(** * Evolving equations: a shallow embedding of [index.ts]

  The TypeScript program searches, with a genetic algorithm, for an
  arithmetic expression whose value is a target number.  This file
  embeds the classes [SafeEvaluator] and [GeneticAlgorithm] and
  proves properties of them.

  Conventions of the embedding.

  - A JavaScript [number] that holds a measured quantity (target,
    solution, fitness, rates, the results of [Math.random]) is an
    exact rational of type [Q]; the test [x === y] on such numbers
    is [Qeq_bool].  Rounding and overflow of IEEE doubles are not
    part of the model.
  - A [number] that the program uses as a count or as an index
    (population size, elitism count, generation counter, ...) is an
    integer of type [Z]; [Math.floor] is [Qfloor].
  - Agents are objects: the state carries a heap of agents, and the
    population, the tournament and the offspring hold references
    into it, so that copying and aliasing can be told apart.
  - [Math.random] reads the next element of a stream of draws; the
    state counts the draws consumed so far.
  - The parser of the library [expr-eval] is a parameter.
  - A JavaScript [TypeError] is the abnormal completion [TypeError].
  - [console.log] and [logProgress] only print and are left out. *)

From Stdlib Require Import ZArith QArith Qround Qabs Lqa Lia String Ascii.
From stdpp Require Import list.

Open Scope Q_scope.

(** ** Types and configuration *)

Record Agent := mkAgent {
  chromosome : string;
  fitness : Q;
  solution : Q;
  equation : string
}.

Record Config := mkConfig {
  populationSize : Z;
  target : Q;
  maxGenerations : Z;
  mutationRate : Q;
  crossoverRate : Q;
  elitismCount : Z;
  tournamentSize : Z;
  maxEquationLength : Z
}.

Definition DEFAULT_CONFIG : Config :=
  {| populationSize := 50;
     target := 42;
     maxGenerations := 1000;
     mutationRate := 1 # 10;
     crossoverRate := 7 # 10;
     elitismCount := 5;
     tournamentSize := 3;
     maxEquationLength := 20 |}.

(** [Partial<Config>]: every key may be absent. *)
Record PartialConfig := mkPartialConfig {
  populationSize' : option Z;
  target' : option Q;
  maxGenerations' : option Z;
  mutationRate' : option Q;
  crossoverRate' : option Q;
  elitismCount' : option Z;
  tournamentSize' : option Z;
  maxEquationLength' : option Z
}.

Definition noOverrides : PartialConfig :=
  mkPartialConfig None None None None None None None None.

(** The object spread [{ ...base, ...over }]. *)
Definition spread (base : Config) (over : PartialConfig) : Config :=
  {| populationSize := default (populationSize base) (populationSize' over);
     target := default (target base) (target' over);
     maxGenerations := default (maxGenerations base) (maxGenerations' over);
     mutationRate := default (mutationRate base) (mutationRate' over);
     crossoverRate := default (crossoverRate base) (crossoverRate' over);
     elitismCount := default (elitismCount base) (elitismCount' over);
     tournamentSize := default (tournamentSize base) (tournamentSize' over);
     maxEquationLength :=
       default (maxEquationLength base) (maxEquationLength' over) |}.

(** ** Characters and strings *)

Module Js.

Definition isDigit (c : ascii) : bool :=
  let n := nat_of_ascii c in (48 <=? n)%nat && (n <=? 57)%nat.

(** The character class [[+\-*/]]. *)
Definition isOperator (c : ascii) : bool :=
  (c =? "+")%char || (c =? "-")%char || (c =? "*")%char || (c =? "/")%char.

(** The class [\s] on code units below 256. *)
Definition isSpace (c : ascii) : bool :=
  let n := nat_of_ascii c in
  ((9 <=? n)%nat && (n <=? 13)%nat) || (n =? 32)%nat || (n =? 160)%nat.

(** [s.replace(/[^...]/g, '')] keeps the characters of the class. *)
Fixpoint keep (f : ascii -> bool) (s : string) : string :=
  match s with
  | EmptyString => EmptyString
  | String c rest => if f c then String c (keep f rest) else keep f rest
  end.

Fixpoint trimStart (s : string) : string :=
  match s with
  | EmptyString => EmptyString
  | String c rest => if isSpace c then trimStart rest else s
  end.

Fixpoint trimEnd (s : string) : string :=
  match s with
  | EmptyString => EmptyString
  | String c rest =>
      match trimEnd rest with
      | EmptyString => if isSpace c then EmptyString else String c EmptyString
      | t => String c t
      end
  end.

Definition trim (s : string) : string := trimEnd (trimStart s).

Definition clamp (n : Z) (len : nat) : nat := Z.to_nat (Z.min (Z.max n 0) (Z.of_nat len)).

(** [s.substring(from, to)]: both ends are clamped to the string and
    swapped when they come in the wrong order. *)
Definition substring (s : string) (from to : Z) : string :=
  let a := clamp from (String.length s) in
  let b := clamp to (String.length s) in
  String.substring (Nat.min a b) (Nat.max a b - Nat.min a b) s.

(** [s.substring(from)]. *)
Definition substringFrom (s : string) (from : Z) : string :=
  substring s from (Z.of_nat (String.length s)).

(** [a[i]] on an array or a string: [undefined] out of range. *)
Definition index {A} (l : list A) (i : Z) : option A :=
  if (i <? 0)%Z then None else l !! Z.to_nat i.

(** The string which [+=] appends for an element read with [index]. *)
Definition toString (v : option ascii) : string :=
  match v with
  | Some c => String c EmptyString
  | None => "undefined"
  end.

(** The contribution of an array element to [join('')]: [undefined]
    and holes print as the empty string. *)
Definition joined (v : option ascii) : string :=
  match v with
  | Some c => String c EmptyString
  | None => EmptyString
  end.

(** [s.split('')], each element held as the text that [join] prints. *)
Definition split (s : string) : list string :=
  (fun c => String c EmptyString) <$> list_ascii_of_string s.

Definition join (l : list string) : string :=
  foldr String.append EmptyString l.

(** [a[i] = v] on an array: an index past the end leaves holes, a
    negative index creates a property and no element. *)
Definition assign (l : list string) (i : Z) (v : string) : list string :=
  if (i <? 0)%Z then l
  else if (i <? Z.of_nat (length l))%Z then <[Z.to_nat i := v]> l
  else l ++ replicate (Z.to_nat i - length l) EmptyString ++ [v].

(** The start position of [splice]: relative to the end when
    negative, clamped to the array. *)
Definition spliceStart {A} (l : list A) (i : Z) : nat :=
  if (i <? 0)%Z then Z.to_nat (Z.max (Z.of_nat (length l) + i) 0)
  else Z.to_nat (Z.min i (Z.of_nat (length l))).

(** [a.splice(i, 0, v)]. *)
Definition spliceInsert {A} (l : list A) (i : Z) (v : A) : list A :=
  let k := spliceStart l i in take k l ++ v :: drop k l.

(** [a.splice(i, 1)]. *)
Definition spliceDelete {A} (l : list A) (i : Z) : list A :=
  let k := spliceStart l i in take k l ++ drop (S k) l.

(** [a.slice(0, to)]. *)
Definition slice0 {A} (l : list A) (to : Z) : list A :=
  let k := if (to <? 0)%Z then Z.to_nat (Z.max (Z.of_nat (length l) + to) 0)
           else Z.to_nat (Z.min to (Z.of_nat (length l))) in
  take k l.

(** [a.sort(cmp)]: the sort of ECMAScript is stable, and for a
    comparator that is a total preorder every stable sort returns the
    same array; insertion from the right is one of them.  [x] goes
    in front of [y] unless [cmp x y > 0]. *)
Fixpoint sortInsert {A} (cmp : A -> A -> Q) (x : A) (l : list A) : list A :=
  match l with
  | [] => [x]
  | y :: rest =>
      if Qle_bool (cmp x y) 0 then x :: y :: rest
      else y :: sortInsert cmp x rest
  end.

Fixpoint sort {A} (cmp : A -> A -> Q) (l : list A) : list A :=
  match l with
  | [] => []
  | x :: rest => sortInsert cmp x (sort cmp rest)
  end.

End Js.

(** ** Safe expression evaluator *)

Section SafeEvaluator.

(** [parser.parse(cleaned).evaluate({})] of [expr-eval]: [Some v]
    when the call returns the finite number [v], [None] when it
    throws or returns anything else. *)
Variable parser : string -> option Q.

(** The class [[0-9+\-*/().\s]]. *)
Definition allowedChar (c : ascii) : bool :=
  Js.isDigit c || Js.isOperator c
  || (c =? "(")%char || (c =? ")")%char || (c =? ".")%char || Js.isSpace c.

Definition cleanExpression (expr : string) : string :=
  Js.trim (Js.keep (fun c => negb (Js.isSpace c)) (Js.keep allowedChar expr)).

(** The loop over the parentheses: [None] is the early [return false]. *)
Fixpoint balanceLoop (balance : Z) (expr : string) : option Z :=
  match expr with
  | EmptyString => Some balance
  | String char rest =>
      let b1 := if (char =? "(")%char then (balance + 1)%Z else balance in
      let b2 := if (char =? ")")%char then (b1 - 1)%Z else b1 in
      if (b2 <? 0)%Z then None else balanceLoop b2 rest
  end.

(** [/[+\-*/]{2,}/.test(expr)]. *)
Fixpoint consecutiveOperators (expr : string) : bool :=
  match expr with
  | String c1 (String c2 _ as rest) =>
      (Js.isOperator c1 && Js.isOperator c2) || consecutiveOperators rest
  | _ => false
  end.

Definition isValidExpression (expr : string) : bool :=
  if (String.length expr =? 0)%nat then false
  else match balanceLoop 0 expr with
       | None => false
       | Some balance =>
           if negb (balance =? 0)%Z then false
           else if consecutiveOperators expr then false
           else true
       end.

Definition evaluate (expression : string) : option Q :=
  let cleaned := cleanExpression expression in
  if negb (isValidExpression cleaned) then None
  else parser cleaned.

End SafeEvaluator.

(** ** Fitness *)

Definition calculateFitness (config : Config) (solution : Q) : Q :=
  let error := Qabs (solution - target config) in
  if Qeq_bool error 0 then 1
  else 1 / (1 + error).

(** ** Genetic algorithm *)

(** A reference to an [Agent] object: its address in the heap. *)
Abbreviation ref := nat (only parsing).

Record GeneticAlgorithm := mkGeneticAlgorithm {
  config : Config;
  population : list ref;
  generation : Z;
  bestFitnessHistory : list Q;
  heap : list Agent;
  drawn : nat
}.

Definition withPopulation (p : list ref) (this : GeneticAlgorithm) :=
  mkGeneticAlgorithm (config this) p (generation this)
    (bestFitnessHistory this) (heap this) (drawn this).

Definition withGeneration (g : Z) (this : GeneticAlgorithm) :=
  mkGeneticAlgorithm (config this) (population this) g
    (bestFitnessHistory this) (heap this) (drawn this).

Definition withHistory (h : list Q) (this : GeneticAlgorithm) :=
  mkGeneticAlgorithm (config this) (population this) (generation this)
    h (heap this) (drawn this).

Definition withHeap (h : list Agent) (this : GeneticAlgorithm) :=
  mkGeneticAlgorithm (config this) (population this) (generation this)
    (bestFitnessHistory this) h (drawn this).

Definition withDrawn (n : nat) (this : GeneticAlgorithm) :=
  mkGeneticAlgorithm (config this) (population this) (generation this)
    (bestFitnessHistory this) (heap this) n.

(** How a method call ends: with a value and the new state, or with a
    [TypeError] thrown. *)
Inductive completion (A : Type) : Type :=
| Normal (a : A)
| TypeError.
Arguments Normal {A} a.
Arguments TypeError {A}.

Definition M (A : Type) : Type :=
  GeneticAlgorithm -> completion (A * GeneticAlgorithm).

Definition ret {A} (a : A) : M A := fun this => Normal (a, this).

Definition bind {A B} (m : M A) (k : A -> M B) : M B :=
  fun this =>
    match m this with
    | Normal (a, this') => k a this'
    | TypeError => TypeError
    end.

Definition throw {A} : M A := fun _ => TypeError.

Declare Scope ga_scope.
Delimit Scope ga_scope with ga.
Notation "x <- m ;; k" := (bind m (fun x => k))
  (at level 100, m at next level, right associativity) : ga_scope.
Notation "m ;; k" := (bind m (fun _ => k))
  (at level 100, right associativity) : ga_scope.
Open Scope ga_scope.

Definition get : M GeneticAlgorithm := fun this => Normal (this, this).

Definition modify (f : GeneticAlgorithm -> GeneticAlgorithm) : M unit :=
  fun this => Normal (tt, f this).

(** [new]: the object gets the next free address. *)
Definition alloc (a : Agent) : M ref :=
  fun this => Normal (length (heap this), withHeap (heap this ++ [a]) this).

(** Reading the fields of an object; on [undefined] that throws. *)
Definition load (r : ref) : M Agent :=
  fun this =>
    match heap this !! r with
    | Some a => Normal (a, this)
    | None => TypeError
    end.

Definition store (r : ref) (a : Agent) : M unit :=
  modify (fun this => withHeap (<[r := a]> (heap this)) this).

(** An array element that is dereferenced next: [undefined] throws. *)
Definition element (l : list ref) (i : Z) : M ref :=
  match Js.index l i with
  | Some r => ret r
  | None => throw
  end.

Definition Qgtb (x y : Q) : bool := negb (Qle_bool x y).
Definition Qltb (x y : Q) : bool := negb (Qle_bool y x).

(** The fitness stored in the object at [r]. *)
Definition fitnessOf (h : list Agent) (r : ref) : Q :=
  match h !! r with
  | Some a => fitness a
  | None => 0
  end.

Definition operators : list ascii := ["+"; "-"; "*"; "/"]%char.
Definition digits : list ascii := list_ascii_of_string "0123456789".

(** ** A reference parser and random sources for running the model *)

Module Sample.

Inductive token := Num (n : Z) | Op (c : ascii).

Definition digitValue (c : ascii) : Z := Z.of_nat (nat_of_ascii c) - 48.

(** Splits a string of digits and operators into numbers and operators;
    any other character is refused. *)
Fixpoint lex (cur : option Z) (s : string) : option (list token) :=
  match s with
  | EmptyString => Some (match cur with Some n => [Num n] | None => [] end)
  | String c rest =>
      if Js.isDigit c then lex (Some (10 * default 0%Z cur + digitValue c)%Z) rest
      else if Js.isOperator c then
        match lex None rest with
        | Some ts => Some (match cur with
                           | Some n => Num n :: Op c :: ts
                           | None => Op c :: ts
                           end)
        | None => None
        end
      else None
  end.

(** [acc] is the sum of the terms already closed, [cur] the running
    product; a division by zero has no finite value. *)
Fixpoint evalTail (acc cur : Q) (ts : list token) : option Q :=
  match ts with
  | [] => Some (Qred (acc + cur))
  | Op o :: Num n :: rest =>
      if (o =? "+")%char then evalTail (acc + cur) (inject_Z n) rest
      else if (o =? "-")%char then evalTail (acc + cur) (- inject_Z n) rest
      else if (o =? "*")%char then evalTail acc (cur * inject_Z n) rest
      else if (n =? 0)%Z then None
      else evalTail acc (cur / inject_Z n) rest
  | _ => None
  end.

(** Left-to-right arithmetic on decimal numbers, with [*] and [/]
    binding tighter than [+] and [-] and with an optional sign in
    front: the value [expr-eval] gives to such an expression, as an
    exact rational.  Everything else is refused. *)
Definition arithmetic (s : string) : option Q :=
  match lex None s with
  | Some (Num n :: rest) => evalTail 0 (inject_Z n) rest
  | Some (Op o :: Num n :: rest) =>
      if (o =? "-")%char then evalTail 0 (- inject_Z n) rest
      else if (o =? "+")%char then evalTail 0 (inject_Z n) rest
      else None
  | _ => None
  end.

(** The stream that yields the elements of [l] and then [0]. *)
Definition draws (l : list Q) : nat -> Q := fun n => nth n l 0.

Definition inUnitInterval (r : Q) : bool :=
  Qle_bool 0 r && negb (Qle_bool 1 r).

(** Three individuals, one of them elite, tournaments of two, and two
    generations to reach the target 10. *)
Definition smallRun : PartialConfig :=
  {| populationSize' := Some 3%Z;
     target' := Some 10;
     maxGenerations' := Some 2%Z;
     mutationRate' := None;
     crossoverRate' := None;
     elitismCount' := Some 1%Z;
     tournamentSize' := Some 2%Z;
     maxEquationLength' := Some 5%Z |}.

(** The same without any generation. *)
Definition noGeneration : PartialConfig :=
  {| populationSize' := Some 3%Z;
     target' := Some 10;
     maxGenerations' := Some 0%Z;
     mutationRate' := None;
     crossoverRate' := None;
     elitismCount' := Some 1%Z;
     tournamentSize' := Some 2%Z;
     maxEquationLength' := Some 5%Z |}.

(** A configuration that breaks every invariant of the run
    configuration: more elite than individuals, rates outside
    [[0, 1]], tournaments larger than the population. *)
Definition brokenInvariants : PartialConfig :=
  {| populationSize' := Some 2%Z;
     target' := Some 10;
     maxGenerations' := Some 1%Z;
     mutationRate' := Some (3 # 2);
     crossoverRate' := Some (- (1 # 2));
     elitismCount' := Some 5%Z;
     tournamentSize' := Some 3%Z;
     maxEquationLength' := Some 5%Z |}.

Definition someDraws : list Q :=
  [0; 1 # 10; 2 # 10; 2 # 10; 5 # 10; 0; 1 # 2; 5 # 10; 9 # 10; 1 # 2;
   2 # 10; 1 # 10; 8 # 10; 3 # 4; 1 # 5; 1 # 3; 2 # 3; 1 # 4; 9 # 10;
   1 # 20; 7 # 10; 3 # 10; 4 # 5; 1 # 2; 1 # 8; 5 # 8; 7 # 8; 2 # 5;
   3 # 5; 1 # 6; 5 # 6; 1 # 7; 3 # 7; 6 # 7; 1 # 9; 4 # 9; 8 # 9].

Definition agentOf (chromosome : string) : Agent :=
  {| chromosome := chromosome; fitness := 0; solution := 0;
     equation := chromosome |}.

(** A state whose heap holds the given agents, for the default
    configuration. *)
Definition stateWith (agents : list Agent) : GeneticAlgorithm :=
  {| config := DEFAULT_CONFIG;
     population := seq 0 (length agents);
     generation := 0;
     bestFitnessHistory := [];
     heap := agents;
     drawn := 0 |}.

(** Three individuals and tournaments without contestants. *)
Definition noTournament : PartialConfig :=
  {| populationSize' := Some 3%Z;
     target' := Some 10;
     maxGenerations' := Some 2%Z;
     mutationRate' := None;
     crossoverRate' := None;
     elitismCount' := Some 1%Z;
     tournamentSize' := Some 0%Z;
     maxEquationLength' := Some 5%Z |}.

(** Three individuals, neither crossover nor mutation. *)
Definition noVariation : PartialConfig :=
  {| populationSize' := Some 3%Z;
     target' := Some 10;
     maxGenerations' := Some 2%Z;
     mutationRate' := Some 0;
     crossoverRate' := Some 0;
     elitismCount' := Some 1%Z;
     tournamentSize' := Some 2%Z;
     maxEquationLength' := Some 5%Z |}.

(** An agent that hits the default target, with its score. *)
Definition answer : Agent :=
  {| chromosome := "6*7"; fitness := 1; solution := 42; equation := "6*7" |}.

(** An agent with the score that the default target gives to 3. *)
Definition three : Agent :=
  {| chromosome := "1+2"; fitness := 1 # 40; solution := 3; equation := "1+2" |}.

End Sample.


Section GeneticAlgorithm.

Variable parser : string -> option Q.

(** The successive results of [Math.random()]. *)
Variable randomSource : nat -> Q.

Definition constructor (config : PartialConfig) : GeneticAlgorithm :=
  {| config := spread DEFAULT_CONFIG config;
     population := [];
     generation := 0;
     bestFitnessHistory := [];
     heap := [];
     drawn := 0 |}.

Definition Math_random : M Q :=
  fun this => Normal (randomSource (drawn this), withDrawn (S (drawn this)) this).

(** [Math.floor(Math.random() * n)]. *)
Definition randomIndex (n : Z) : M Z :=
  r <- Math_random;;
  ret (Qfloor (r * inject_Z n)).

(** The loop of [generateRandomEquation], with [n] iterations left. *)
Fixpoint equationLoop (n : nat) (equation : string) (expectingOperator : bool)
  : M (string * bool) :=
  match n with
  | O => ret (equation, expectingOperator)
  | S k =>
      placeOperator <-
        (if expectingOperator
         then (r <- Math_random;; ret (Qgtb r (3 # 10)))
         else ret false);;
      if placeOperator : bool then
        i <- randomIndex (Z.of_nat (length operators));;
        equationLoop k (equation ++ Js.toString (Js.index operators i)) false
      else
        i <- randomIndex (Z.of_nat (length digits));;
        equationLoop k (equation ++ Js.toString (Js.index digits i)) true
  end.

Definition generateRandomEquation : M string :=
  this <- get;;
  r <- Math_random;;
  let length :=
    (Qfloor (r * inject_Z (maxEquationLength (config this) - 3)) + 3)%Z in
  state <- equationLoop (Z.to_nat length) EmptyString false;;
  if snd state : bool then
    i <- randomIndex (Z.of_nat (List.length digits));;
    ret (fst state ++ Js.toString (Js.index digits i))%string
  else ret (fst state).

Definition createAgentFromChromosome (chromosome : string) : M ref :=
  this <- get;;
  let solution := default 0 (evaluate parser chromosome) in
  let fitness := calculateFitness (config this) solution in
  alloc {| chromosome := chromosome;
           fitness := fitness;
           solution := solution;
           equation := chromosome |}.

Definition createRandomAgent : M ref :=
  chromosome <- generateRandomEquation;;
  createAgentFromChromosome chromosome.

Fixpoint initializeLoop (n : nat) : M unit :=
  match n with
  | O => ret tt
  | S k =>
      agent <- createRandomAgent;;
      modify (fun this => withPopulation (population this ++ [agent]) this);;
      initializeLoop k
  end.

Definition initializePopulation : M unit :=
  modify (withPopulation []);;
  this <- get;;
  initializeLoop (Z.to_nat (populationSize (config this))).

(** The body of the [for ... of] loop of [evaluateFitness]. *)
Definition rescore (agent : ref) : M unit :=
  a <- load agent;;
  this <- get;;
  let solution := default 0 (evaluate parser (chromosome a)) in
  store agent {| chromosome := chromosome a;
                 fitness := calculateFitness (config this) solution;
                 solution := solution;
                 equation := equation a |}.

Fixpoint forEach {A} (f : A -> M unit) (l : list A) : M unit :=
  match l with
  | [] => ret tt
  | x :: rest => f x;; forEach f rest
  end.

Definition evaluateFitness : M unit :=
  this <- get;;
  forEach rescore (population this);;
  modify (fun this =>
    withPopulation
      (Js.sort (fun a b => fitnessOf (heap this) b - fitnessOf (heap this) a)
         (population this)) this);;
  this <- get;;
  best <- element (population this) 0;;
  b <- load best;;
  modify (fun this => withHistory (bestFitnessHistory this ++ [fitness b]) this).

Fixpoint tournamentLoop (n : nat) (tournament : list ref) : M (list ref) :=
  match n with
  | O => ret tournament
  | S k =>
      this <- get;;
      randomIndex <- randomIndex (Z.of_nat (length (population this)));;
      agent <- element (population this) randomIndex;;
      tournamentLoop k (tournament ++ [agent])
  end.

(** [tournament.reduce(...)] without an initial value. *)
Definition reduceBest (tournament : list ref) : M ref :=
  match tournament with
  | [] => throw
  | first :: rest =>
      this <- get;;
      ret (foldl (fun best current =>
                    if Qgtb (fitnessOf (heap this) current)
                            (fitnessOf (heap this) best)
                    then current else best) first rest)
  end.

Definition tournamentSelection : M ref :=
  this <- get;;
  tournament <- tournamentLoop (Z.to_nat (tournamentSize (config this))) [];;
  reduceBest tournament.

Definition cloneAgent (agent : ref) : M ref :=
  a <- load agent;;
  alloc {| chromosome := chromosome a;
           fitness := fitness a;
           solution := solution a;
           equation := equation a |}.

(** [array.map(f)] for an [f] with effects. *)
Fixpoint mapM {A B} (f : A -> M B) (l : list A) : M (list B) :=
  match l with
  | [] => ret []
  | x :: rest => y <- f x;; ys <- mapM f rest;; ret (y :: ys)
  end.

Definition selectElite : M (list ref) :=
  this <- get;;
  mapM cloneAgent (Js.slice0 (population this) (elitismCount (config this))).

Definition crossover (parent1 parent2 : ref) : M ref :=
  p1 <- load parent1;;
  point1 <- randomIndex (Z.of_nat (String.length (chromosome p1)));;
  p2 <- load parent2;;
  point2 <- randomIndex (Z.of_nat (String.length (chromosome p2)));;
  let child1Chromosome :=
    (Js.substring (chromosome p1) 0 point1
     ++ Js.substringFrom (chromosome p2) point2)%string in
  let child2Chromosome :=
    (Js.substring (chromosome p2) 0 point2
     ++ Js.substringFrom (chromosome p1) point1)%string in
  child1 <- createAgentFromChromosome child1Chromosome;;
  child2 <- createAgentFromChromosome child2Chromosome;;
  c1 <- load child1;;
  c2 <- load child2;;
  ret (if Qgtb (fitness c1) (fitness c2) then child1 else child2).

(** [Math.random() > 0.5 ? operators : digits]. *)
Definition charSet : M (list ascii) :=
  r <- Math_random;;
  ret (if Qgtb r (1 # 2) then operators else digits).

(** One edit of the character array of [mutate]. *)
Inductive Edit :=
| Replace (index : Z) (text : string)
| Insert (index : Z) (text : string)
| Delete (index : Z).

Definition applyEdit (chromosome : list string) (e : Edit) : list string :=
  match e with
  | Replace index text => Js.assign chromosome index text
  | Insert index text => Js.spliceInsert chromosome index text
  | Delete index => Js.spliceDelete chromosome index
  end.

(** The branches of [mutate]: the edits they carry out on the
    character array, in order. *)
Definition chooseEdits (chromosome : list string) : M (list Edit) :=
  mutationType <- Math_random;;
  if Qltb mutationType (33 # 100) then
    index <- randomIndex (Z.of_nat (length chromosome));;
    charSet <- charSet;;
    i <- randomIndex (Z.of_nat (length charSet));;
    ret [Replace index (Js.joined (Js.index charSet i))]
  else if Qltb mutationType (66 # 100) then
    index <- randomIndex (Z.of_nat (length chromosome));;
    charSet <- charSet;;
    i <- randomIndex (Z.of_nat (length charSet));;
    ret [Insert index (Js.joined (Js.index charSet i))]
  else if (3 <? Z.of_nat (length chromosome))%Z then
    index <- randomIndex (Z.of_nat (length chromosome));;
    ret [Delete index]
  else ret [].

Definition mutate (agent : ref) : M unit :=
  a <- load agent;;
  let chromosome := Js.split (chromosome a) in
  edits <- chooseEdits chromosome;;
  let newChromosome := Js.join (foldl applyEdit chromosome edits) in
  this <- get;;
  let solution := default 0 (evaluate parser newChromosome) in
  store agent {| chromosome := newChromosome;
                 fitness := calculateFitness (config this) solution;
                 solution := solution;
                 equation := newChromosome |}.

Definition getBestAgent : M (option ref) :=
  this <- get;;
  if (length (population this) =? 0)%nat then ret None
  else best <- element (population this) 0;; ret (Some best).

(** The body of the [while] loop of [evolve]: one offspring. *)
Definition makeOffspring : M ref :=
  parent1 <- tournamentSelection;;
  parent2 <- tournamentSelection;;
  this <- get;;
  r <- Math_random;;
  offspring <-
    (if Qltb r (crossoverRate (config this))
     then crossover parent1 parent2
     else cloneAgent parent1);;
  r' <- Math_random;;
  (if Qltb r' (mutationRate (config this))
   then mutate offspring
   else ret tt);;
  ret offspring.

(** The [while] loop that fills the new population.  Every iteration
    pushes one offspring, so [fuel] iterations are enough when [fuel]
    is at least the number of missing individuals. *)
Fixpoint offspringLoop (fuel : nat) (newPopulation : list ref) : M (list ref) :=
  match fuel with
  | O => ret newPopulation
  | S k =>
      this <- get;;
      if (Z.of_nat (length newPopulation) <? populationSize (config this))%Z
      then
        offspring <- makeOffspring;;
        offspringLoop k (newPopulation ++ [offspring])
      else ret newPopulation
  end.

(** The part of the loop body of [evolve] that follows the convergence
    test: one generation transition. *)
Definition nextGeneration : M unit :=
  elite <- selectElite;;
  this <- get;;
  newPopulation <-
    offspringLoop (Z.to_nat (populationSize (config this))) elite;;
  modify (withPopulation newPopulation);;
  evaluateFitness.

(** [best && best.fitness >= 0.99]. *)
Definition converged (best : option ref) : M bool :=
  match best with
  | None => ret false
  | Some r => b <- load r;; ret (Qle_bool (99 # 100) (fitness b))
  end.

(** The [for] loop of [evolve].  The counter [generation] grows by
    one in each iteration, so [fuel] iterations are enough when [fuel]
    is at least [maxGenerations - generation]. *)
Fixpoint generationLoop (fuel : nat) : M (option ref) :=
  match fuel with
  | O => getBestAgent
  | S k =>
      this <- get;;
      if (generation this <? maxGenerations (config this))%Z then
        best <- getBestAgent;;
        stop <- converged best;;
        if stop : bool then ret best
        else
          nextGeneration;;
          modify (fun this => withGeneration (generation this + 1) this);;
          generationLoop k
      else getBestAgent
  end.

Definition evolve : M (option ref) :=
  initializePopulation;;
  evaluateFitness;;
  modify (withGeneration 0);;
  this <- get;;
  generationLoop (Z.to_nat (maxGenerations (config this))).

Definition getFitnessHistory (this : GeneticAlgorithm) : list Q :=
  bestFitnessHistory this.


(** ** Predicates of the specification *)

(** What the evaluation pass writes into an agent. *)
Definition rescored (config : Config) (a : Agent) : Agent :=
  let solution := default 0 (evaluate parser (chromosome a)) in
  {| chromosome := chromosome a;
     fitness := calculateFitness config solution;
     solution := solution;
     equation := equation a |}.

(** The stored solution and fitness are the ones computed from the
    chromosome. *)
Definition scored (config : Config) (a : Agent) : Prop :=
  solution a = default 0 (evaluate parser (chromosome a)) /\
  fitness a = calculateFitness config (solution a).

(** [this'] comes from [this] by allocating objects and by writing
    to objects at address [n] or above; nothing else changes. *)
Record extends (n : nat) (this this' : GeneticAlgorithm) : Prop := mkExtends {
  ext_config : config this' = config this;
  ext_population : population this' = population this;
  ext_generation : generation this' = generation this;
  ext_history : bestFitnessHistory this' = bestFitnessHistory this;
  ext_length : (length (heap this) <= length (heap this'))%nat;
  ext_heap : forall i, (i < n)%nat -> heap this' !! i = heap this !! i
}.

(** Sorted by decreasing key. *)
Definition descending {A} (key : A -> Q) (l : list A) : Prop :=
  forall i j x y, (i <= j)%nat -> l !! i = Some x -> l !! j = Some y -> key y <= key x.

(** The state after an evaluation pass. *)
Record evaluated (this : GeneticAlgorithm) : Prop := mkEvaluated {
  eval_allocated : forall r, r ∈ population this -> is_Some (heap this !! r);
  eval_scored : forall r a, r ∈ population this -> heap this !! r = Some a ->
             scored (config this) a;
  eval_sorted : descending (fitnessOf (heap this)) (population this);
  eval_nonempty : population this <> []
}.

(** The states at the head of the [for] loop of [evolve], for a run
    that starts in [start]. *)
Inductive reachable (start : GeneticAlgorithm) : GeneticAlgorithm -> Prop :=
| reach_seeded this :
    (initializePopulation;; evaluateFitness;; modify (withGeneration 0)) start
    = Normal (tt, this) ->
    reachable start this
| reach_next this this' :
    reachable start this ->
    (generation this <? maxGenerations (config this))%Z = true ->
    (best <- getBestAgent;; converged best) this = Normal (false, this) ->
    (nextGeneration;;
     modify (fun this => withGeneration (generation this + 1) this)) this
    = Normal (tt, this') ->
    reachable start this'.

(** The loop of [evolve] ends in this state. *)
Definition terminal (this : GeneticAlgorithm) : Prop :=
  (maxGenerations (config this) <= generation this)%Z \/
  exists best, population this !! 0%nat = Some best /\
               99 # 100 <= fitnessOf (heap this) best.

(** The two children of a crossover, as the source builds them. *)
Definition crossoverChildren (config : Config) (a1 a2 : Agent) (point1 point2 : Z)
  : Agent * Agent :=
  let c1 := (Js.substring (chromosome a1) 0 point1
             ++ Js.substringFrom (chromosome a2) point2)%string in
  let c2 := (Js.substring (chromosome a2) 0 point2
             ++ Js.substringFrom (chromosome a1) point1)%string in
  (rescored config (mkAgent c1 0 0 c1), rescored config (mkAgent c2 0 0 c2)).

Fixpoint lastChar (s : string) : option ascii :=
  match s with
  | EmptyString => None
  | String c EmptyString => Some c
  | String _ rest => lastChar rest
  end.

Definition firstChar (s : string) : option ascii :=
  match s with
  | EmptyString => None
  | String c _ => Some c
  end.

(** What the loop of [generateRandomEquation] keeps true of the
    equation built so far and of the flag [expectingOperator]: no two
    operators in a row, a digit in front, and the flag set exactly
    when the last character is a digit. *)
Definition alternating (equation : string) (expectingOperator : bool) : Prop :=
  consecutiveOperators equation = false /\
  (equation <> EmptyString ->
   exists c, firstChar equation = Some c /\ Js.isDigit c = true) /\
  (if expectingOperator
   then exists c, lastChar equation = Some c /\ Js.isDigit c = true
   else equation = EmptyString \/
        exists c, lastChar equation = Some c /\ Js.isOperator c = true).

(** The class [[0-9+\-*/().]]: the characters that cleaning lets
    through. *)
Definition expressionChar (c : ascii) : bool :=
  Js.isDigit c || Js.isOperator c
  || (c =? "(")%char || (c =? ")")%char || (c =? ".")%char.

(** The number of opening parentheses minus the number of closing
    ones. *)
Fixpoint depth (l : list ascii) : Z :=
  match l with
  | [] => 0
  | c :: rest =>
      (if (c =? "(")%char then 1 else 0)
      - (if (c =? ")")%char then 1 else 0) + depth rest
  end%Z.

(** Sorted by increasing value. *)
Definition ascending (l : list Q) : Prop :=
  forall i j x y, (i <= j)%nat -> l !! i = Some x -> l !! j = Some y -> x <= y.

(** The characters of a chromosome: digits and operators. *)
Definition geneChar (c : ascii) : bool := Js.isDigit c || Js.isOperator c.

(** A string of digits and operators. *)
Definition genes (chromosome : string) : bool :=
  forallb geneChar (list_ascii_of_string chromosome).

(** The state holds the configuration [cfg] and every object of its
    heap, in the population or not, satisfies [P]. *)
Definition heapAll (cfg : Config) (P : Agent -> Prop) (this : GeneticAlgorithm) : Prop :=
  config this = cfg /\ Forall P (heap this).

(** ** The usage example *)

(** The configuration that [runExample] passes to the constructor. *)
Definition exampleConfig : PartialConfig :=
  {| populationSize' := Some 50%Z;
     target' := Some 42;
     maxGenerations' := Some 500%Z;
     mutationRate' := Some (15 # 100);
     crossoverRate' := Some (7 # 10);
     elitismCount' := Some 5%Z;
     tournamentSize' := None;
     maxEquationLength' := None |}.

(** [runExample]: a run on a new instance.  The value tells which
    branch of the final [if (result)] reports: [true] for the final
    solution, [false] for the message that no solution was found. *)
Definition runExample : completion (bool * GeneticAlgorithm) :=
  (result <- evolve;;
   ret (match result with Some _ => true | None => false end))
    (constructor exampleConfig).

(** The shape of a seeded chromosome for the maximal length
    [maxLength]: digits and operators, a digit in front, no two
    operators in a row, at least 3 characters and at most
    [maxLength] (4 when [maxLength] is 3). *)
Definition seededShape (maxLength : Z) (chromosome : string) : Prop :=
  genes chromosome = true /\
  consecutiveOperators chromosome = false /\
  (exists c, firstChar chromosome = Some c /\ Js.isDigit c = true) /\
  (3 <= Z.of_nat (String.length chromosome) <= Z.max 4 maxLength)%Z.

(** * Properties *)

(** ** Rational arithmetic *)


Lemma inverse_error_range (e : Q) : 0 <= e -> 0 < 1 / (1 + e) /\ 1 / (1 + e) <= 1.
Proof.
  intros He. split.
  - apply Qlt_shift_div_l; lra.
  - apply Qle_shift_div_r; lra.
Qed.



Lemma Qgtb_true (x y : Q) : Qgtb x y = true <-> y < x.
Proof.
  unfold Qgtb. rewrite negb_true_iff. split; intros H.
  - apply Qnot_le_lt. intros Hle. apply Qle_bool_iff in Hle. congruence.
  - destruct (Qle_bool x y) eqn:E; [| reflexivity].
    apply Qle_bool_iff in E. lra.
Qed.

Lemma Qgtb_false (x y : Q) : Qgtb x y = false <-> x <= y.
Proof.
  unfold Qgtb. rewrite negb_false_iff. apply Qle_bool_iff.
Qed.

Lemma Qltb_true (x y : Q) : Qltb x y = true <-> x < y.
Proof. apply Qgtb_true. Qed.

Lemma Qltb_false (x y : Q) : Qltb x y = false <-> y <= x.
Proof. apply Qgtb_false. Qed.

(** A draw in [[0, 1)] scaled by [n] and floored is an index below [n]. *)
Lemma floor_scaled_bounds (r : Q) (n : Z) :
  0 <= r -> r < 1 -> (0 < n)%Z ->
  (0 <= Qfloor (r * inject_Z n) < n)%Z.
Proof.
  intros H0 H1 Hn.
  assert (Hq : 0 < inject_Z n) by (change 0 with (inject_Z 0); rewrite <- Zlt_Qlt; lia).
  split.
  - change 0%Z with (Qfloor (inject_Z 0)) at 1. rewrite Qfloor_Z.
    rewrite <- (Qfloor_Z 0). apply Qfloor_resp_le.
    change (inject_Z 0) with 0. apply Qmult_le_0_compat; lra.
  - apply Z.lt_nge. intros Hge.
    assert (Hle : inject_Z n <= r * inject_Z n).
    { apply Qle_trans with (inject_Z (Qfloor (r * inject_Z n))).
      - rewrite <- Zle_Qle. exact Hge.
      - apply Qfloor_le. }
    assert (Hlt : r * inject_Z n < 1 * inject_Z n) by (apply Qmult_lt_compat_r; lra).
    lra.
Qed.

Lemma floor_scaled_zero (r : Q) : Qfloor (r * inject_Z 0) = 0%Z.
Proof.
  assert (E : r * inject_Z 0 == inject_Z 0) by (change (inject_Z 0) with 0; ring).
  rewrite (Qfloor_comp _ _ E). apply Qfloor_Z.
Qed.

(** ** Fitness function *)

Lemma calculateFitness_formula (config : Config) (s : Q) :
  calculateFitness config s == 1 / (1 + Qabs (s - target config)).
Proof.
  unfold calculateFitness.
  destruct (Qeq_bool (Qabs (s - target config)) 0) eqn:E; [| reflexivity].
  apply Qeq_bool_eq in E. rewrite E. reflexivity.
Qed.

Lemma calculateFitness_range (config : Config) (s : Q) :
  0 < calculateFitness config s /\ calculateFitness config s <= 1.
Proof.
  rewrite calculateFitness_formula.
  apply inverse_error_range, Qabs_nonneg.
Qed.


(** ** Strings *)

Lemma consecutiveOperators_cons (c : ascii) (s : string) :
  consecutiveOperators s = true -> consecutiveOperators (String c s) = true.
Proof.
  intros H. destruct s as [| c' s']; [discriminate |].
  change (consecutiveOperators (String c (String c' s')))
    with ((Js.isOperator c && Js.isOperator c') || consecutiveOperators (String c' s')).
  rewrite H. apply orb_true_r.
Qed.

(** Removing characters that are not operators keeps a run of two
    operators in place. *)
Lemma consecutiveOperators_keep (f : ascii -> bool) (s : string) :
  (forall c, Js.isOperator c = true -> f c = true) ->
  consecutiveOperators s = true -> consecutiveOperators (Js.keep f s) = true.
Proof.
  intros Hf. induction s as [| c1 s IH]; [discriminate |].
  destruct s as [| c2 s'].
  - discriminate.
  - change (consecutiveOperators (String c1 (String c2 s')))
      with ((Js.isOperator c1 && Js.isOperator c2) || consecutiveOperators (String c2 s')).
    intros H. apply orb_true_iff in H as [H | H].
    + apply andb_true_iff in H as [H1 H2].
      simpl. rewrite (Hf _ H1), (Hf _ H2).
      destruct (Js.keep f s'); simpl; rewrite H1, H2; reflexivity.
    + specialize (IH H).
      change (Js.keep f (String c1 (String c2 s')))
        with (if f c1 then String c1 (Js.keep f (String c2 s'))
              else Js.keep f (String c2 s')).
      destruct (f c1); [apply consecutiveOperators_cons |]; exact IH.
Qed.

Lemma trimStart_keep (s : string) :
  Js.trimStart (Js.keep (fun c => negb (Js.isSpace c)) s)
  = Js.keep (fun c => negb (Js.isSpace c)) s.
Proof.
  induction s as [| c s IH]; [reflexivity |].
  simpl. destruct (Js.isSpace c) eqn:E; simpl; [exact IH |].
  rewrite E. reflexivity.
Qed.

Lemma trimEnd_keep (s : string) :
  Js.trimEnd (Js.keep (fun c => negb (Js.isSpace c)) s)
  = Js.keep (fun c => negb (Js.isSpace c)) s.
Proof.
  induction s as [| c s IH]; [reflexivity |].
  simpl. destruct (Js.isSpace c) eqn:E; simpl; [exact IH |].
  rewrite IH. destruct (Js.keep _ s); [rewrite E |]; reflexivity.
Qed.

(** After the white space is removed, [trim] has nothing left to do. *)
Lemma cleanExpression_keep (expr : string) :
  cleanExpression expr
  = Js.keep (fun c => negb (Js.isSpace c)) (Js.keep allowedChar expr).
Proof.
  unfold cleanExpression, Js.trim. rewrite trimStart_keep. apply trimEnd_keep.
Qed.

Lemma isOperator_not_space (c : ascii) :
  Js.isOperator c = true -> negb (Js.isSpace c) = true.
Proof.
  unfold Js.isOperator. rewrite !orb_true_iff, !Ascii.eqb_eq.
  intros [[[-> | ->] | ->] | ->]; reflexivity.
Qed.

Lemma isOperator_allowed (c : ascii) :
  Js.isOperator c = true -> allowedChar c = true.
Proof.
  unfold allowedChar. intros ->. rewrite orb_true_r. reflexivity.
Qed.

Lemma consecutiveOperators_invalid (expr : string) :
  consecutiveOperators expr = true -> isValidExpression expr = false.
Proof.
  intros H. unfold isValidExpression.
  destruct (String.length expr =? 0)%nat; [reflexivity |].
  destruct (balanceLoop 0 expr) as [b |]; [| reflexivity].
  destruct (negb (b =? 0)%Z); [reflexivity |].
  rewrite H. reflexivity.
Qed.

(** Two operators in a row make the evaluator return [null], whatever
    the parser would say. *)
Lemma evaluate_consecutiveOperators (expression : string) :
  consecutiveOperators expression = true -> evaluate parser expression = None.
Proof.
  intros H. unfold evaluate.
  rewrite consecutiveOperators_invalid; [reflexivity |].
  rewrite cleanExpression_keep.
  apply consecutiveOperators_keep; [apply isOperator_not_space |].
  apply consecutiveOperators_keep; [apply isOperator_allowed | exact H].
Qed.

(** ** The monad of method calls *)

Lemma bind_Normal {A B} (m : M A) (k : A -> M B) (this : GeneticAlgorithm)
  (r : B * GeneticAlgorithm) :
  bind m k this = Normal r <->
  exists a this', m this = Normal (a, this') /\ k a this' = Normal r.
Proof.
  unfold bind. split.
  - destruct (m this) as [[a this'] |]; [| discriminate].
    intros H. exists a, this'. split; [reflexivity | exact H].
  - intros (a & this' & -> & H). exact H.
Qed.

Lemma bind_run {A B} (m : M A) (k : A -> M B) (this this' : GeneticAlgorithm) (a : A) :
  m this = Normal (a, this') -> bind m k this = k a this'.
Proof. unfold bind. intros ->. reflexivity. Qed.

Ltac run_inv H :=
  repeat match type of H with
    | bind _ _ _ = Normal _ =>
        let a := fresh "v" in
        let s := fresh "st" in
        let H1 := fresh "Hrun" in
        apply bind_Normal in H as (a & s & H1 & H)
    end.

Ltac run_basic H :=
  unfold ret, get, modify, throw in H;
  first [ discriminate H
        | injection H as H; repeat match goal with E : _ = _ |- _ => subst end ].

Ltac simpl_state :=
  cbn [config population generation bestFitnessHistory heap drawn
       withPopulation withGeneration withHistory withHeap withDrawn fst snd] in *.

(** ** Extension of the heap *)

Lemma extends_refl (n : nat) (this : GeneticAlgorithm) : extends n this this.
Proof. constructor; auto. Qed.

Lemma extends_trans (n : nat) (a b c : GeneticAlgorithm) :
  extends n a b -> extends n b c -> extends n a c.
Proof.
  intros [] []. constructor; try congruence; try lia.
  intros i Hi. rewrite ext_heap1, ext_heap0 by exact Hi. reflexivity.
Qed.

Lemma extends_weaken (m n : nat) (a b : GeneticAlgorithm) :
  (m <= n)%nat -> extends n a b -> extends m a b.
Proof.
  intros Hmn []. constructor; auto.
  intros i Hi. apply ext_heap0. lia.
Qed.

(** Chaining two calls that each leave the objects allocated before
    them untouched. *)
Lemma extends_step (n : nat) (a b c : GeneticAlgorithm) :
  (n <= length (heap a))%nat ->
  extends n a b -> extends (length (heap b)) b c -> extends n a c.
Proof.
  intros Hn Hab Hbc. apply extends_trans with b; [exact Hab |].
  apply (extends_weaken _ (length (heap b))); [| exact Hbc].
  destruct Hab. lia.
Qed.

Lemma extends_withDrawn (n d : nat) (this : GeneticAlgorithm) :
  extends n this (withDrawn d this).
Proof. constructor; auto. Qed.

Lemma extends_alloc (this : GeneticAlgorithm) (new : list Agent) :
  extends (length (heap this)) this (withHeap (heap this ++ new) this).
Proof.
  constructor; auto; simpl.
  - rewrite length_app. lia.
  - intros i Hi. apply lookup_app_l. exact Hi.
Qed.

Lemma extends_store (n r : nat) (a : Agent) (this : GeneticAlgorithm) :
  (n <= r)%nat -> extends n this (withHeap (<[r := a]> (heap this)) this).
Proof.
  intros Hn. constructor; auto; simpl.
  - rewrite length_insert. lia.
  - intros i Hi. apply list_lookup_insert_ne. lia.
Qed.

(** ** The methods, one by one *)

Lemma Math_random_run (this : GeneticAlgorithm) :
  Math_random this
  = Normal (randomSource (drawn this), withDrawn (S (drawn this)) this).
Proof. reflexivity. Qed.

Lemma randomIndex_run (n : Z) (this : GeneticAlgorithm) :
  randomIndex n this
  = Normal (Qfloor (randomSource (drawn this) * inject_Z n),
            withDrawn (S (drawn this)) this).
Proof. reflexivity. Qed.

(** Creating an agent never throws: the new object goes to the end of
    the heap, scored from its chromosome. *)
Lemma createAgentFromChromosome_run (c : string) (this : GeneticAlgorithm) :
  createAgentFromChromosome c this
  = Normal (length (heap this),
            withHeap (heap this ++
                      [rescored (config this) (mkAgent c 0 0 c)]) this).
Proof. reflexivity. Qed.

Lemma rescored_scored (config : Config) (a : Agent) : scored config (rescored config a).
Proof. split; reflexivity. Qed.

Lemma rescored_of_scored (config : Config) (a : Agent) :
  scored config a -> rescored config a = a.
Proof.
  destruct a as [c f s e]. unfold scored, rescored. simpl.
  intros [-> ->]. reflexivity.
Qed.

Lemma cloneAgent_Normal (agent : ref) (this this' : GeneticAlgorithm) (r : ref) :
  cloneAgent agent this = Normal (r, this') ->
  exists a, heap this !! agent = Some a /\
            r = length (heap this) /\
            this' = withHeap (heap this ++ [a]) this.
Proof.
  unfold cloneAgent, bind, load, alloc.
  destruct (heap this !! agent) as [a |]; [| discriminate].
  intros H. injection H as <- <-. exists a. destruct a. auto.
Qed.

Lemma cloneAgent_run (agent : ref) (this : GeneticAlgorithm) (a : Agent) :
  heap this !! agent = Some a ->
  cloneAgent agent this
  = Normal (length (heap this), withHeap (heap this ++ [a]) this).
Proof.
  intros H. unfold cloneAgent, bind, load, alloc. rewrite H.
  destruct a. reflexivity.
Qed.

Lemma element_Normal (l : list ref) (i : Z) (this this' : GeneticAlgorithm) (r : ref) :
  element l i this = Normal (r, this') ->
  Js.index l i = Some r /\ this' = this.
Proof.
  unfold element. destruct (Js.index l i) as [x |]; [| discriminate].
  intros H. injection H as -> ->. auto.
Qed.

Lemma index_elem_of {A} (l : list A) (i : Z) (x : A) :
  Js.index l i = Some x -> x ∈ l.
Proof.
  unfold Js.index. destruct (i <? 0)%Z; [discriminate |].
  apply list_elem_of_lookup_2.
Qed.

Lemma tournamentLoop_Normal (n : nat) (t t' : list ref) (this this' : GeneticAlgorithm) :
  tournamentLoop n t this = Normal (t', this') ->
  (exists d, this' = withDrawn d this) /\
  (forall r, r ∈ t' -> r ∈ t \/ r ∈ population this).
Proof.
  revert t this. induction n as [| n IH]; intros t this H.
  - injection H as <- <-. split; [exists (drawn this); destruct this; reflexivity | auto].
  - simpl in H. run_inv H. run_basic Hrun.
    rewrite randomIndex_run in Hrun0. injection Hrun0 as <- <-.
    apply element_Normal in Hrun1 as [Hidx ->].
    apply IH in H as [[d ->] Hin]. split.
    + exists d. reflexivity.
    + intros r Hr. apply Hin in Hr as [Hr | Hr]; [| right; exact Hr].
      apply elem_of_app in Hr as [Hr | Hr]; [left; exact Hr | right].
      apply list_elem_of_singleton in Hr as ->.
      apply index_elem_of in Hidx. exact Hidx.
Qed.

Lemma foldl_choice {A} (f : A -> A -> A) (first : A) (rest : list A) :
  (forall b c, f b c = b \/ f b c = c) ->
  foldl f first rest ∈ first :: rest.
Proof.
  intros Hf. revert first. induction rest as [| x rest IH]; intros first.
  - simpl. apply list_elem_of_here.
  - simpl. specialize (IH (f first x)).
    apply elem_of_cons in IH as [-> | IH].
    + destruct (Hf first x) as [-> | ->].
      * apply list_elem_of_here.
      * apply list_elem_of_further, list_elem_of_here.
    + apply list_elem_of_further, list_elem_of_further, IH.
Qed.

Lemma reduceBest_Normal (t : list ref) (this this' : GeneticAlgorithm) (r : ref) :
  reduceBest t this = Normal (r, this') -> r ∈ t /\ this' = this.
Proof.
  destruct t as [| first rest]; [discriminate |].
  simpl. unfold bind, get, ret. intros H. injection H as <- <-.
  split; [| reflexivity].
  apply foldl_choice. intros b c. destruct (Qgtb _ _); auto.
Qed.

(** A tournament only draws numbers, and its winner is a member of
    the population. *)
Lemma tournamentSelection_Normal (this this' : GeneticAlgorithm) (r : ref) :
  tournamentSelection this = Normal (r, this') ->
  r ∈ population this /\ exists d, this' = withDrawn d this.
Proof.
  unfold tournamentSelection. intros H. run_inv H. run_basic Hrun.
  apply tournamentLoop_Normal in Hrun0 as [[d ->] Hin].
  apply reduceBest_Normal in H as [Hr ->].
  split; [| exists d; reflexivity].
  apply Hin in Hr as [Hr | Hr]; [| exact Hr].
  apply elem_of_nil in Hr. contradiction.
Qed.


Lemma crossover_run (parent1 parent2 : ref) (this : GeneticAlgorithm) (a1 a2 : Agent) :
  heap this !! parent1 = Some a1 ->
  heap this !! parent2 = Some a2 ->
  let point1 :=
    Qfloor (randomSource (drawn this)
            * inject_Z (Z.of_nat (String.length (chromosome a1)))) in
  let point2 :=
    Qfloor (randomSource (S (drawn this))
            * inject_Z (Z.of_nat (String.length (chromosome a2)))) in
  let children := crossoverChildren (config this) a1 a2 point1 point2 in
  crossover parent1 parent2 this
  = Normal (if Qgtb (fitness (fst children)) (fitness (snd children))
            then length (heap this) else S (length (heap this)),
            withHeap (heap this ++ [fst children; snd children])
              (withDrawn (S (S (drawn this))) this)).
Proof.
  intros H1 H2. cbv zeta.
  unfold crossover.
  rewrite (bind_run _ _ this this a1) by (unfold load; rewrite H1; reflexivity).
  erewrite bind_run by apply randomIndex_run.
  erewrite bind_run by (unfold load; simpl_state; rewrite H2; reflexivity).
  erewrite bind_run by apply randomIndex_run.
  erewrite bind_run by apply createAgentFromChromosome_run.
  erewrite bind_run by apply createAgentFromChromosome_run.
  simpl_state.
  erewrite bind_run.
  2:{ unfold load. simpl_state.
      rewrite lookup_app_l by (rewrite length_app; cbn [length]; lia).
      rewrite lookup_app_r by lia. rewrite Nat.sub_diag. reflexivity. }
  erewrite bind_run.
  2:{ unfold load. simpl_state. rewrite lookup_app_r by lia.
      rewrite Nat.sub_diag. reflexivity. }
  unfold ret, crossoverChildren. simpl_state.
  rewrite length_app, <- app_assoc. cbn [length app].
  replace (length (heap this) + 1)%nat with (S (length (heap this))) by lia.
  reflexivity.
Qed.

Lemma crossover_Normal (parent1 parent2 : ref) (this this' : GeneticAlgorithm) (r : ref) :
  crossover parent1 parent2 this = Normal (r, this') ->
  exists a1 a2, heap this !! parent1 = Some a1 /\ heap this !! parent2 = Some a2.
Proof.
  unfold crossover. intros H. run_inv H.
  unfold load in Hrun, Hrun1.
  rewrite randomIndex_run in Hrun0. injection Hrun0 as _ <-.
  destruct (heap this !! parent1) as [a1 |] eqn:E1; [| discriminate].
  injection Hrun as _ <-.
  simpl_state.
  destruct (heap this !! parent2) as [a2 |] eqn:E2; [| discriminate].
  exists a1, a2. auto.
Qed.

Lemma charSet_run (this : GeneticAlgorithm) :
  charSet this
  = Normal (if Qgtb (randomSource (drawn this)) (1 # 2) then operators else digits,
            withDrawn (S (drawn this)) this).
Proof. reflexivity. Qed.

(** Choosing the edit only draws numbers, and it yields at most one
    edit. *)
Lemma chooseEdits_total (c : list string) (this : GeneticAlgorithm) :
  exists edits d,
    chooseEdits c this = Normal (edits, withDrawn d this) /\
    (length edits <= 1)%nat.
Proof.
  unfold chooseEdits.
  erewrite bind_run by apply Math_random_run.
  destruct (Qltb _ (33 # 100)); [| destruct (Qltb _ (66 # 100))].
  - erewrite bind_run by apply randomIndex_run.
    erewrite bind_run by apply charSet_run.
    erewrite bind_run by apply randomIndex_run.
    unfold ret. simpl_state. eexists _, _. split; [reflexivity | simpl; lia].
  - erewrite bind_run by apply randomIndex_run.
    erewrite bind_run by apply charSet_run.
    erewrite bind_run by apply randomIndex_run.
    unfold ret. simpl_state. eexists _, _. split; [reflexivity | simpl; lia].
  - destruct (3 <? Z.of_nat (length c))%Z.
    + erewrite bind_run by apply randomIndex_run.
      unfold ret. simpl_state. eexists _, _. split; [reflexivity | simpl; lia].
    + unfold ret. exists [], (S (drawn this)). split; [reflexivity | simpl; lia].
Qed.

(** The agent that [mutate] leaves at the address of [a]. *)
Lemma mutate_run (agent : ref) (this : GeneticAlgorithm) (a : Agent) :
  heap this !! agent = Some a ->
  exists edits d,
    chooseEdits (Js.split (chromosome a)) this = Normal (edits, withDrawn d this) /\
    let c := Js.join (foldl applyEdit (Js.split (chromosome a)) edits) in
    mutate agent this
    = Normal (tt, withHeap (<[agent := rescored (config this) (mkAgent c 0 0 c)]>
                              (heap this)) (withDrawn d this)).
Proof.
  intros H.
  destruct (chooseEdits_total (Js.split (chromosome a)) this) as (edits & d & He & _).
  exists edits, d. split; [exact He |].
  cbv zeta. unfold mutate.
  rewrite (bind_run _ _ this this a) by (unfold load; rewrite H; reflexivity).
  erewrite bind_run by exact He.
  reflexivity.
Qed.

Lemma mutate_Normal (agent : ref) (this this' : GeneticAlgorithm) :
  mutate agent this = Normal (tt, this') ->
  exists a, heap this !! agent = Some a.
Proof.
  unfold mutate. intros H. run_inv H. unfold load in Hrun.
  destruct (heap this !! agent) as [a |]; [| discriminate]. eauto.
Qed.

Lemma mutate_extends (agent : ref) (this this' : GeneticAlgorithm) (n : nat) :
  (n <= agent)%nat ->
  mutate agent this = Normal (tt, this') ->
  extends n this this' /\ length (heap this') = length (heap this).
Proof.
  intros Hn H. destruct (mutate_Normal _ _ _ H) as [a Ha].
  destruct (mutate_run agent this a Ha) as (edits & d & _ & Hm).
  cbv zeta in Hm. rewrite Hm in H. injection H as <-. split.
  - apply extends_trans with (withDrawn d this); [apply extends_withDrawn |].
    apply (extends_store n agent _ (withDrawn d this)). exact Hn.
  - simpl. apply length_insert.
Qed.

(** An offspring is a new object; the objects that existed before are
    left as they were. *)
Lemma makeOffspring_Normal (this this' : GeneticAlgorithm) (r : ref) :
  makeOffspring this = Normal (r, this') ->
  extends (length (heap this)) this this' /\
  (length (heap this) <= r < length (heap this'))%nat.
Proof.
  unfold makeOffspring. intros H. run_inv H.
  apply tournamentSelection_Normal in Hrun as [_ [d1 ->]].
  apply tournamentSelection_Normal in Hrun0 as [_ [d2 ->]].
  run_basic Hrun1. rewrite Math_random_run in Hrun2. injection Hrun2 as <- <-.
  rewrite Math_random_run in Hrun4. injection Hrun4 as <- <-.
  run_basic H. simpl_state.
  assert (Hoff : extends (length (heap this)) this st3 /\ (length (heap this) <= r < length (heap st3))%nat).
  { destruct (Qltb _ (crossoverRate _)).
    - destruct (crossover_Normal _ _ _ _ _ Hrun3) as (a1 & a2 & H1 & H2).
      rewrite (crossover_run _ _ _ a1 a2 H1 H2) in Hrun3. cbv zeta in Hrun3.
      injection Hrun3 as <- <-. simpl_state. split.
      + constructor; auto; simpl_state.
        * rewrite length_app. lia.
        * intros i Hi. apply lookup_app_l. exact Hi.
      + rewrite length_app. cbn [length]. destruct (Qgtb _ _); lia.
    - apply cloneAgent_Normal in Hrun3 as (a & Ha & -> & ->). simpl_state. split.
      + constructor; auto; simpl_state.
        * rewrite length_app. lia.
        * intros i Hi. apply lookup_app_l. exact Hi.
      + rewrite length_app. cbn [length]. lia. }
  destruct Hoff as [Hext Hr].
  destruct (Qltb _ (mutationRate _)).
  - destruct v5. apply (mutate_extends r _ _ (length (heap this))) in Hrun5 as [Hmut Hlen]; [| lia].
    simpl_state. split; [| lia].
    apply extends_trans with st3; [exact Hext |].
    apply extends_trans with (withDrawn (S (drawn st3)) st3);
      [apply extends_withDrawn | exact Hmut].
  - run_basic Hrun5. simpl_state. split; [| exact Hr].
    apply extends_trans with st3; [exact Hext | apply extends_withDrawn].
Qed.

(** ** Sorting *)

Lemma descending_nil {A} (key : A -> Q) : descending key [].
Proof. intros i j x y _ H. rewrite lookup_nil in H. discriminate. Qed.

Lemma descending_cons {A} (key : A -> Q) (x : A) (l : list A) :
  descending key (x :: l) <->
  (forall y, y ∈ l -> key y <= key x) /\ descending key l.
Proof.
  split.
  - intros H. split.
    + intros y Hy. apply list_elem_of_lookup_1 in Hy as [j Hj].
      apply (H 0%nat (S j) x y); [lia | reflexivity | exact Hj].
    + intros i j a b Hij Ha Hb.
      apply (H (S i) (S j) a b); [lia | exact Ha | exact Hb].
  - intros [Hx Hl] i j a b Hij Ha Hb.
    destruct i as [| i], j as [| j]; simpl in Ha, Hb.
    + injection Ha as <-. injection Hb as <-. apply Qle_refl.
    + injection Ha as <-. apply Hx. apply list_elem_of_lookup_2 in Hb. exact Hb.
    + lia.
    + apply (Hl i j a b); [lia | exact Ha | exact Hb].
Qed.

Lemma sortInsert_Permutation {A} (cmp : A -> A -> Q) (x : A) (l : list A) :
  Js.sortInsert cmp x l ≡ₚ x :: l.
Proof.
  induction l as [| y l IH]; [reflexivity |].
  simpl. destruct (Qle_bool (cmp x y) 0); [reflexivity |].
  rewrite IH. apply Permutation_swap.
Qed.

(** Sorting rearranges the array and loses nothing. *)
Lemma sort_Permutation {A} (cmp : A -> A -> Q) (l : list A) :
  Js.sort cmp l ≡ₚ l.
Proof.
  induction l as [| x l IH]; [reflexivity |].
  simpl. rewrite sortInsert_Permutation, IH. reflexivity.
Qed.

Lemma sortInsert_descending {A} (key : A -> Q) (x : A) (l : list A) :
  descending key l ->
  descending key (Js.sortInsert (fun a b => key b - key a) x l).
Proof.
  induction l as [| y l IH]; intros Hl.
  - simpl. apply descending_cons. split; [| apply descending_nil].
    intros z Hz. apply elem_of_nil in Hz. contradiction.
  - apply descending_cons in Hl as [Hy Hl]. simpl.
    destruct (Qle_bool (key y - key x) 0) eqn:E.
    + apply Qle_bool_iff in E.
      apply descending_cons. split.
      * intros z Hz. apply elem_of_cons in Hz as [-> | Hz]; [lra |].
        specialize (Hy z Hz). lra.
      * apply descending_cons. auto.
    + assert (Hlt : ~ key y - key x <= 0).
      { intros Hle. apply Qle_bool_iff in Hle. congruence. }
      apply descending_cons. split.
      * intros z Hz. rewrite sortInsert_Permutation in Hz.
        apply elem_of_cons in Hz as [-> | Hz]; [lra | auto].
      * apply IH. exact Hl.
Qed.

(** The comparator [(a, b) => b.fitness - a.fitness] sorts by
    decreasing fitness. *)
Lemma sort_descending {A} (key : A -> Q) (l : list A) :
  descending key (Js.sort (fun a b => key b - key a) l).
Proof.
  induction l as [| x l IH]; [apply descending_nil |].
  simpl. apply sortInsert_descending. exact IH.
Qed.

(** ** The evaluation pass *)

Lemma rescore_Normal (agent : ref) (this this' : GeneticAlgorithm) :
  rescore agent this = Normal (tt, this') ->
  exists a, heap this !! agent = Some a /\
            this' = withHeap (<[agent := rescored (config this) a]> (heap this)) this.
Proof.
  unfold rescore, bind, load, get, store, modify.
  destruct (heap this !! agent) as [a |]; [| discriminate].
  intros H. injection H as <-. exists a. auto.
Qed.

Lemma rescore_run (agent : ref) (this : GeneticAlgorithm) (a : Agent) :
  heap this !! agent = Some a ->
  rescore agent this
  = Normal (tt, withHeap (<[agent := rescored (config this) a]> (heap this)) this).
Proof.
  intros H. unfold rescore, bind, load, get, store, modify. rewrite H. reflexivity.
Qed.

(** The loop over the population rewrites the score of its members
    and of nothing else. *)
Lemma forEach_rescore_Normal (l : list ref) (this this' : GeneticAlgorithm) :
  forEach rescore l this = Normal (tt, this') ->
  (forall r, r ∈ l -> is_Some (heap this !! r)) /\
  exists h',
    this' = withHeap h' this /\
    length h' = length (heap this) /\
    (forall r, r ∈ l -> h' !! r = rescored (config this) <$> heap this !! r) /\
    (forall r, r ∉ l -> h' !! r = heap this !! r).
Proof.
  revert this. induction l as [| x l IH]; intros this H.
  - injection H as <-. split.
    + intros r Hr. apply elem_of_nil in Hr. contradiction.
    + exists (heap this). destruct this. repeat split; auto.
      intros r Hr. apply elem_of_nil in Hr. contradiction.
  - simpl in H. run_inv H. destruct v.
    apply rescore_Normal in Hrun as (a & Ha & ->).
    apply IH in H as (Hall & h' & -> & Hlen & Hin & Hout).
    simpl_state.
    assert (Hx : forall r, <[x := rescored (config this) a]> (heap this) !! r
                           = if decide (r = x) then Some (rescored (config this) a)
                             else heap this !! r).
    { intros r. destruct (decide (r = x)) as [-> | Hne].
      - apply list_lookup_insert_eq. apply lookup_lt_Some in Ha. exact Ha.
      - apply list_lookup_insert_ne. congruence. }
    split.
    + intros r Hr. apply elem_of_cons in Hr as [-> | Hr]; [rewrite Ha; eauto |].
      specialize (Hall r Hr). rewrite Hx in Hall.
      destruct (decide (r = x)) as [-> | _]; [rewrite Ha; eauto | exact Hall].
    + exists h'. split; [reflexivity |]. split; [rewrite Hlen; apply length_insert |].
      split.
      * intros r Hr. destruct (decide (r ∈ l)) as [Hl | Hl].
        -- rewrite (Hin r Hl), Hx.
           destruct (decide (r = x)) as [-> | _]; [rewrite Ha |]; reflexivity.
        -- apply elem_of_cons in Hr as [-> | Hr]; [| contradiction].
           rewrite (Hout x Hl), Hx, Ha.
           destruct (decide (x = x)); [reflexivity | contradiction].
      * intros r Hr. apply not_elem_of_cons in Hr as [Hne Hl].
        rewrite (Hout r Hl), Hx.
        destruct (decide (r = x)); [contradiction | reflexivity].
Qed.

Lemma forEach_rescore_total (l : list ref) (this : GeneticAlgorithm) :
  (forall r, r ∈ l -> is_Some (heap this !! r)) ->
  exists this', forEach rescore l this = Normal (tt, this').
Proof.
  revert this. induction l as [| x l IH]; intros this Hall.
  - eexists. reflexivity.
  - destruct (Hall x) as [a Ha]; [apply list_elem_of_here |].
    simpl. erewrite bind_run by (apply rescore_run; exact Ha).
    apply IH. intros r Hr. simpl_state.
    destruct (Hall r) as [b Hb]; [apply list_elem_of_further; exact Hr |].
    apply lookup_lt_is_Some. rewrite length_insert.
    apply lookup_lt_Some in Hb. exact Hb.
Qed.

(** The result of an evaluation pass, spelt out. *)
Lemma evaluateFitness_Normal (this this' : GeneticAlgorithm) :
  evaluateFitness this = Normal (tt, this') ->
  (forall r, r ∈ population this -> is_Some (heap this !! r)) /\
  exists h' best,
    length h' = length (heap this) /\
    (forall r, r ∈ population this ->
               h' !! r = rescored (config this) <$> heap this !! r) /\
    (forall r, r ∉ population this -> h' !! r = heap this !! r) /\
    Js.sort (fun a b => fitnessOf h' b - fitnessOf h' a) (population this) !! 0%nat
    = Some best /\
    this' =
      withHistory (bestFitnessHistory this ++ [fitnessOf h' best])
        (withPopulation
           (Js.sort (fun a b => fitnessOf h' b - fitnessOf h' a) (population this))
           (withHeap h' this)).
Proof.
  unfold evaluateFitness. intros H. run_inv H.
  run_basic Hrun. destruct v0.
  apply forEach_rescore_Normal in Hrun0 as (Hall & h' & -> & Hlen & Hin & Hout).
  run_basic Hrun1. run_basic Hrun2. simpl_state.
  apply element_Normal in Hrun3 as [Hidx ->].
  unfold Js.index in Hidx. simpl in Hidx.
  unfold load in Hrun4. simpl_state.
  destruct (h' !! v3) as [b |] eqn:Eb; [| discriminate].
  injection Hrun4 as <- <-. run_basic H.
  split; [exact Hall |].
  exists h', v3. repeat split; auto.
  unfold fitnessOf at 3. rewrite Eb. reflexivity.
Qed.

(** After an evaluation pass every member of the population carries
    the score of its chromosome, and the population is sorted. *)
Lemma evaluateFitness_evaluated (this this' : GeneticAlgorithm) :
  evaluateFitness this = Normal (tt, this') ->
  evaluated this' /\
  population this' ≡ₚ population this /\
  config this' = config this /\
  generation this' = generation this /\
  length (bestFitnessHistory this') = S (length (bestFitnessHistory this)).
Proof.
  intros H.
  apply evaluateFitness_Normal in H
    as (Hall & h' & best & Hlen & Hin & Hout & Hbest & ->).
  simpl_state. repeat split.
  - simpl_state. intros r Hr. rewrite sort_Permutation in Hr.
    rewrite (Hin r Hr). destruct (Hall r Hr) as [a ->]. simpl. eauto.
  - simpl_state. rewrite sort_Permutation in H. rewrite (Hin r H) in H0.
    destruct (Hall r H) as [b Hb]. rewrite Hb in H0. injection H0 as <-. reflexivity.
  - simpl_state. rewrite sort_Permutation in H. rewrite (Hin r H) in H0.
    destruct (Hall r H) as [b Hb]. rewrite Hb in H0. injection H0 as <-. reflexivity.
  - simpl_state. apply sort_descending.
  - simpl_state. intros E. rewrite E in Hbest. discriminate.
  - apply sort_Permutation.
  - rewrite length_app. simpl. lia.
Qed.

(** ** Elitism *)

(** Cloning the members of [l], all of them allocated, appends their
    copies to the heap in order. *)
Lemma mapM_cloneAgent_run (l : list ref) (this : GeneticAlgorithm) :
  (forall r, r ∈ l -> is_Some (heap this !! r)) ->
  exists agents,
    length agents = length l /\
    (forall j r, l !! j = Some r -> agents !! j = heap this !! r) /\
    mapM cloneAgent l this
    = Normal (seq (length (heap this)) (length l),
              withHeap (heap this ++ agents) this).
Proof.
  revert this. induction l as [| x l IH]; intros this Hall.
  - exists []. split; [reflexivity |]. split; [intros j r H; discriminate |].
    simpl. unfold ret. rewrite app_nil_r. destruct this. reflexivity.
  - destruct (Hall x) as [a Ha]; [apply list_elem_of_here |].
    destruct (IH (withHeap (heap this ++ [a]) this)) as (agents & Hlen & Hf & Hrun).
    { intros r Hr. simpl_state. apply lookup_lt_is_Some.
      rewrite length_app.
      destruct (Hall r) as [b Hb]; [apply list_elem_of_further; exact Hr |].
      apply lookup_lt_Some in Hb. lia. }
    exists (a :: agents). split; [simpl; congruence |]. split.
    + intros [| j] r Hj; simpl in Hj |- *.
      * injection Hj as <-. symmetry. exact Ha.
      * rewrite (Hf j r Hj). simpl_state. apply lookup_app_l.
        destruct (Hall r) as [c Hc];
          [apply list_elem_of_further; eapply list_elem_of_lookup_2; exact Hj |].
        apply lookup_lt_Some in Hc. exact Hc.
    + simpl. erewrite bind_run by (apply cloneAgent_run; exact Ha).
      erewrite bind_run by exact Hrun.
      unfold ret. simpl_state. rewrite length_app, <- app_assoc. simpl.
      replace (length (heap this) + 1)%nat with (S (length (heap this))) by lia.
      reflexivity.
Qed.

Lemma slice0_take {A} (l : list A) (to : Z) :
  exists k, Js.slice0 l to = take k l /\ (k <= length l)%nat /\
            (forall i : nat, (Z.of_nat i < to)%Z -> (i < length l)%nat -> (i < k)%nat).
Proof.
  unfold Js.slice0. destruct (to <? 0)%Z eqn:E.
  - eexists. split; [reflexivity |]. split; lia.
  - eexists. split; [reflexivity |]. split; lia.
Qed.

(** The elite are new objects, placed at the end of the heap in the
    order of their rank, and each holds the fields of the individual
    of that rank. *)
Lemma selectElite_run (this : GeneticAlgorithm) :
  (forall r, r ∈ population this -> is_Some (heap this !! r)) ->
  exists k agents,
    (k <= length (population this))%nat /\
    (forall i : nat, (Z.of_nat i < elitismCount (config this))%Z ->
                     (i < length (population this))%nat -> (i < k)%nat) /\
    length agents = k /\
    (forall j r, (j < k)%nat -> population this !! j = Some r ->
                 agents !! j = heap this !! r) /\
    selectElite this
    = Normal (seq (length (heap this)) k, withHeap (heap this ++ agents) this).
Proof.
  intros Hall. unfold selectElite.
  destruct (slice0_take (population this) (elitismCount (config this)))
    as (k & Hk & Hle & Hrank).
  destruct (mapM_cloneAgent_run (take k (population this)) this)
    as (agents & Hlen & Hf & Hrun).
  { intros r Hr. apply Hall. apply list_elem_of_lookup_1 in Hr as [j Hj].
    apply lookup_take_Some in Hj as [Hj _]. eapply list_elem_of_lookup_2; exact Hj. }
  rewrite length_take in Hlen, Hrun.
  replace (k `min` length (population this))%nat with k in Hlen, Hrun by lia.
  exists k, agents. repeat split; auto.
  - intros j r Hj Hr. apply Hf. rewrite lookup_take_lt by exact Hj. exact Hr.
  - erewrite bind_run by reflexivity. rewrite Hk, Hrun. reflexivity.
Qed.

(** ** Filling the new population *)

Lemma offspringLoop_Normal (fuel : nat) (newPopulation result : list ref)
  (this this' : GeneticAlgorithm) :
  offspringLoop fuel newPopulation this = Normal (result, this') ->
  extends (length (heap this)) this this' /\
  exists offspring,
    result = newPopulation ++ offspring /\
    (forall r, r ∈ offspring -> (length (heap this) <= r < length (heap this'))%nat).
Proof.
  revert newPopulation this. induction fuel as [| fuel IH]; intros np this H.
  - injection H as <- <-. split; [apply extends_refl |].
    exists []. split; [rewrite app_nil_r; reflexivity |].
    intros r Hr. apply elem_of_nil in Hr. contradiction.
  - simpl in H. run_inv H. run_basic Hrun.
    destruct (Z.of_nat (length np) <? populationSize (config st))%Z.
    + apply bind_Normal in H as (child & s1 & Hmake & H).
      apply makeOffspring_Normal in Hmake as [Hext Hr].
      apply IH in H as (Hext' & offspring & -> & Hoff).
      split; [eapply extends_step; eauto |].
      exists (child :: offspring). split; [rewrite <- app_assoc; reflexivity |].
      intros r Hin. destruct Hext', Hext.
      apply elem_of_cons in Hin as [-> | Hin]; [lia |].
      specialize (Hoff r Hin). lia.
    + run_basic H. split; [apply extends_refl |].
      exists []. split; [rewrite app_nil_r; reflexivity |].
      intros r Hr. apply elem_of_nil in Hr. contradiction.
Qed.

(** With enough fuel the loop stops because the new population is
    full. *)
Lemma offspringLoop_length (fuel : nat) (newPopulation result : list ref)
  (this this' : GeneticAlgorithm) :
  (populationSize (config this) - Z.of_nat (length newPopulation) <= Z.of_nat fuel)%Z ->
  offspringLoop fuel newPopulation this = Normal (result, this') ->
  Z.of_nat (length result)
  = Z.max (Z.of_nat (length newPopulation)) (populationSize (config this)).
Proof.
  revert newPopulation this. induction fuel as [| fuel IH]; intros np this Hfuel H.
  - injection H as <- <-. lia.
  - simpl in H. run_inv H. run_basic Hrun.
    destruct (Z.of_nat (length np) <? populationSize (config st))%Z eqn:E.
    + apply bind_Normal in H as (child & s1 & Hmake & H).
      apply makeOffspring_Normal in Hmake as [Hext _].
      apply IH in H.
      * destruct Hext. rewrite ext_config0 in H. rewrite H.
        rewrite length_app. simpl. lia.
      * destruct Hext. rewrite ext_config0. rewrite length_app. simpl. lia.
    + run_basic H. lia.
Qed.

(** ** Ranks in a sorted array *)

Lemma filter_length_Permutation {A} (f : A -> bool) (l l' : list A) :
  l ≡ₚ l' -> length (List.filter f l) = length (List.filter f l').
Proof.
  induction 1 as [| x l l' _ IH | x y l | l l' l'' _ IH1 _ IH2]; simpl.
  - reflexivity.
  - destruct (f x); simpl; congruence.
  - destruct (f x), (f y); reflexivity.
  - congruence.
Qed.

Lemma filter_length_app {A} (f : A -> bool) (l l' : list A) :
  length (List.filter f (l ++ l'))
  = (length (List.filter f l) + length (List.filter f l'))%nat.
Proof. rewrite List.filter_app, length_app. reflexivity. Qed.

Lemma filter_length_all {A} (f : A -> bool) (l : list A) :
  (forall x, x ∈ l -> f x = true) -> length (List.filter f l) = length l.
Proof.
  induction l as [| x l IH]; intros H; [reflexivity |].
  simpl. rewrite (H x) by apply list_elem_of_here. simpl.
  rewrite IH; [reflexivity |]. intros y Hy. apply H, list_elem_of_further, Hy.
Qed.

(** In an array sorted by decreasing key that has more than [i]
    elements of key at least [v], the element of rank [i] is one of
    them. *)
Lemma descending_rank {A} (key : A -> Q) (l : list A) (v : Q) (i : nat) :
  descending key l ->
  (i < length (List.filter (fun x => Qle_bool v (key x)) l))%nat ->
  exists x, l !! i = Some x /\ v <= key x.
Proof.
  revert i. induction l as [| x l IH]; intros i Hl Hi; [simpl in Hi; lia |].
  apply descending_cons in Hl as [Hx Hl]. simpl in Hi.
  destruct (Qle_bool v (key x)) eqn:E.
  - destruct i as [| i].
    + exists x. split; [reflexivity | apply Qle_bool_iff; exact E].
    + simpl in Hi. apply IH; [exact Hl | lia].
  - exfalso.
    destruct (List.filter (fun y => Qle_bool v (key y)) l) as [| y rest] eqn:Ef;
      [simpl in Hi; lia |].
    assert (Hy : In y (List.filter (fun y => Qle_bool v (key y)) l))
      by (rewrite Ef; left; reflexivity).
    apply List.filter_In in Hy as [Hin Hv].
    apply Qle_bool_iff in Hv. apply list_elem_of_In in Hin.
    specialize (Hx y Hin).
    assert (Hle : v <= key x) by lra.
    apply Qle_bool_iff in Hle. congruence.
Qed.

Lemma fitnessOf_lookup (h h' : list Agent) (r r' : ref) :
  h' !! r' = h !! r -> fitnessOf h' r' = fitnessOf h r.
Proof. unfold fitnessOf. intros ->. reflexivity. Qed.

(** ** One generation transition *)

Lemma nextGeneration_Normal (this this' : GeneticAlgorithm) :
  (forall r, r ∈ population this -> is_Some (heap this !! r)) ->
  nextGeneration this = Normal (tt, this') ->
  exists k : nat,
    (k <= length (population this))%nat /\
    (forall i : nat, (Z.of_nat i < elitismCount (config this))%Z ->
                     (i < length (population this))%nat -> (i < k)%nat) /\
    evaluated this' /\
    config this' = config this /\
    generation this' = generation this /\
    length (bestFitnessHistory this') = S (length (bestFitnessHistory this)) /\
    Z.of_nat (length (population this'))
    = Z.max (Z.of_nat k) (populationSize (config this)) /\
    (exists offspring,
        population this' ≡ₚ seq (length (heap this)) k ++ offspring /\
        forall r, r ∈ offspring -> (length (heap this) + k <= r)%nat) /\
    (forall i, (i < length (heap this))%nat -> heap this' !! i = heap this !! i) /\
    (forall j r, (j < k)%nat -> population this !! j = Some r ->
                 heap this' !! (length (heap this) + j)%nat
                 = rescored (config this) <$> heap this !! r).
Proof.
  intros Hall H. unfold nextGeneration in H.
  destruct (selectElite_run this Hall) as (k & agents & Hk & Hrank & Hlen & Hagents & Hsel).
  rewrite (bind_run _ _ _ _ _ Hsel) in H.
  erewrite bind_run in H by reflexivity. simpl_state.
  apply bind_Normal in H as (newPopulation & s2 & Hloop & H).
  apply bind_Normal in H as ([] & s3 & Hmod & H).
  unfold modify in Hmod. injection Hmod as <-.
  pose proof Hloop as Hsize.
  apply offspringLoop_length in Hsize; [| simpl_state; rewrite length_seq; lia].
  apply offspringLoop_Normal in Hloop as (Hext & offspring & -> & Hoff).
  destruct Hext as [Hc Hp Hg Hh Hl Hheap]. simpl_state.
  rewrite length_app in Hl, Hheap, Hoff. rewrite Hlen in Hl, Hheap, Hoff.
  rewrite length_seq in Hsize.
  pose proof (evaluateFitness_evaluated _ _ H) as (Hev & Hperm & Hc' & Hg' & Hh').
  apply evaluateFitness_Normal in H as (_ & h' & best & Hlen' & Hin & Hout & _ & ->).
  simpl_state.
  assert (Helite : forall j, (j < k)%nat ->
                             (length (heap this) + j)%nat
                             ∈ seq (length (heap this)) k ++ offspring).
  { intros j Hj. apply elem_of_app. left. apply elem_of_seq. lia. }
  exists k. split; [exact Hk |]. split; [exact Hrank |].
  split; [exact Hev |]. split; [congruence |]. split; [congruence |].
  split; [rewrite Hh', Hh; reflexivity |].
  split; [rewrite Hperm, Hsize; reflexivity |].
  split; [| split].
  - exists offspring. split; [exact Hperm |].
    intros r Hr. specialize (Hoff r Hr). lia.
  - intros i Hi. rewrite Hout.
    + rewrite Hheap by lia. apply lookup_app_l. exact Hi.
    + intros Hmem. apply elem_of_app in Hmem as [Hmem | Hmem].
      * apply elem_of_seq in Hmem. lia.
      * specialize (Hoff i Hmem). lia.
  - intros j r Hj Hr. rewrite (Hin _ (Helite j Hj)).
    rewrite Hheap by lia. rewrite lookup_app_r by lia.
    replace (length (heap this) + j - length (heap this))%nat with j by lia.
    rewrite (Hagents j r Hj Hr). rewrite Hc. reflexivity.
Qed.

(** ** Seeding *)

Lemma withDrawn_id (this : GeneticAlgorithm) : withDrawn (drawn this) this = this.
Proof. destruct this. reflexivity. Qed.

(** Generating an equation only draws numbers; it never throws. *)
Lemma equationLoop_total (n : nat) (equation : string) (expectingOperator : bool)
  (this : GeneticAlgorithm) :
  exists state d,
    equationLoop n equation expectingOperator this
    = Normal (state, withDrawn d this).
Proof.
  revert equation expectingOperator this.
  induction n as [| n IH]; intros equation e this.
  - exists (equation, e), (drawn this). unfold equationLoop, ret.
    rewrite withDrawn_id. reflexivity.
  - cbn [equationLoop].
    assert (Hplace : exists (b : bool) d,
               (if e then (r <- Math_random;; ret (Qgtb r (3 # 10))) else ret false) this
               = Normal (b, withDrawn d this)).
    { destruct e.
      - eexists _, _. erewrite bind_run by apply Math_random_run. reflexivity.
      - exists false, (drawn this). unfold ret. rewrite withDrawn_id. reflexivity. }
    destruct Hplace as (b & d & Hplace).
    erewrite bind_run by exact Hplace.
    destruct b.
    + erewrite bind_run by apply randomIndex_run. simpl_state.
      edestruct IH as (state & d' & ->). exists state, d'. reflexivity.
    + erewrite bind_run by apply randomIndex_run. simpl_state.
      edestruct IH as (state & d' & ->). exists state, d'. reflexivity.
Qed.

Lemma generateRandomEquation_total (this : GeneticAlgorithm) :
  exists chromosome d,
    generateRandomEquation this = Normal (chromosome, withDrawn d this).
Proof.
  unfold generateRandomEquation.
  erewrite bind_run by reflexivity.
  erewrite bind_run by apply Math_random_run.
  edestruct equationLoop_total as (state & d & Hloop).
  erewrite bind_run by exact Hloop. simpl_state.
  destruct (snd state).
  - erewrite bind_run by apply randomIndex_run. simpl_state.
    eexists _, _. reflexivity.
  - eexists _, _. reflexivity.
Qed.

Lemma createRandomAgent_total (this : GeneticAlgorithm) :
  exists a d,
    scored (config this) a /\
    createRandomAgent this
    = Normal (length (heap this), withHeap (heap this ++ [a]) (withDrawn d this)).
Proof.
  unfold createRandomAgent.
  destruct (generateRandomEquation_total this) as (c & d & Hgen).
  erewrite bind_run by exact Hgen.
  rewrite createAgentFromChromosome_run. simpl_state.
  eexists _, d. split; [| reflexivity]. apply rescored_scored.
Qed.

Lemma initializeLoop_total (n : nat) (this : GeneticAlgorithm) :
  exists agents d,
    length agents = n /\
    Forall (scored (config this)) agents /\
    initializeLoop n this
    = Normal (tt, withPopulation (population this ++ seq (length (heap this)) n)
                    (withHeap (heap this ++ agents) (withDrawn d this))).
Proof.
  revert this. induction n as [| n IH]; intros this.
  - exists [], (drawn this). split; [reflexivity |]. split; [constructor |].
    simpl. unfold ret. rewrite !app_nil_r. destruct this. reflexivity.
  - destruct (createRandomAgent_total this) as (a & d & Ha & Hrun).
    cbn [initializeLoop].
    erewrite bind_run by exact Hrun.
    erewrite bind_run by reflexivity. simpl_state.
    edestruct IH as (agents & d' & Hlen & Hscored & ->). simpl_state.
    exists (a :: agents), d'. split; [simpl; congruence |].
    split; [constructor; assumption |].
    rewrite length_app, <- !app_assoc. simpl.
    replace (length (heap this) + 1)%nat with (S (length (heap this))) by lia.
    reflexivity.
Qed.

(** Seeding never throws: it allocates [populationSize] scored agents
    and makes them the population. *)
Lemma initializePopulation_total (this : GeneticAlgorithm) :
  exists agents d,
    length agents = Z.to_nat (populationSize (config this)) /\
    Forall (scored (config this)) agents /\
    initializePopulation this
    = Normal (tt, withPopulation (seq (length (heap this)) (length agents))
                    (withHeap (heap this ++ agents) (withDrawn d this))).
Proof.
  unfold initializePopulation.
  erewrite bind_run by reflexivity.
  erewrite bind_run by reflexivity. simpl_state.
  edestruct initializeLoop_total as (agents & d & Hlen & Hscored & ->). simpl_state.
  exists agents, d. rewrite Hlen. auto.
Qed.

Lemma evaluateFitness_total (this : GeneticAlgorithm) :
  (forall r, r ∈ population this -> is_Some (heap this !! r)) ->
  population this <> [] ->
  exists this', evaluateFitness this = Normal (tt, this').
Proof.
  intros Hall Hne. unfold evaluateFitness.
  destruct (forEach_rescore_total _ _ Hall) as [s1 Hloop].
  erewrite bind_run by reflexivity.
  erewrite bind_run by exact Hloop.
  apply forEach_rescore_Normal in Hloop as (_ & h' & -> & Hlen & _ & _).
  erewrite bind_run by reflexivity.
  erewrite bind_run by reflexivity. simpl_state.
  set (sorted := Js.sort _ (population this)).
  assert (Hperm : sorted ≡ₚ population this) by apply sort_Permutation.
  destruct sorted as [| best rest] eqn:E.
  { apply Permutation_nil_l in Hperm. congruence. }
  erewrite bind_run by reflexivity.
  assert (Hbest : is_Some (h' !! best)).
  { apply lookup_lt_is_Some. rewrite Hlen.
    destruct (Hall best) as [a Ha]; [rewrite <- Hperm; apply list_elem_of_here |].
    apply lookup_lt_Some in Ha. exact Ha. }
  destruct Hbest as [b Hb].
  erewrite bind_run by (unfold load; simpl_state; rewrite Hb; reflexivity).
  eexists. reflexivity.
Qed.

(** An empty population makes the evaluation pass throw: it reads
    [fitness] from [undefined]. *)
Lemma evaluateFitness_empty (this : GeneticAlgorithm) :
  population this = [] -> evaluateFitness this = TypeError.
Proof.
  intros H. unfold evaluateFitness, bind, get, modify. rewrite H.
  cbn [forEach ret]. simpl_state. rewrite H. reflexivity.
Qed.

(** ** The states of a run *)

Lemma evaluated_withGeneration (g : Z) (this : GeneticAlgorithm) :
  evaluated this -> evaluated (withGeneration g this).
Proof. intros []. constructor; simpl_state; assumption. Qed.

Lemma seeded_state (start this : GeneticAlgorithm) :
  (initializePopulation;; evaluateFitness;; modify (withGeneration 0)) start
  = Normal (tt, this) ->
  evaluated this /\
  config this = config start /\
  Z.of_nat (length (population this)) = populationSize (config start) /\
  generation this = 0%Z /\
  length (bestFitnessHistory this) = S (length (bestFitnessHistory start)).
Proof.
  intros H.
  destruct (initializePopulation_total start) as (agents & d & Hlen & _ & Hinit).
  rewrite (bind_run _ _ _ _ _ Hinit) in H.
  apply bind_Normal in H as ([] & s2 & Hev & H).
  unfold modify in H. injection H as <-.
  apply evaluateFitness_evaluated in Hev as (Hev & Hperm & Hc & Hg & Hh).
  simpl_state.
  split; [apply evaluated_withGeneration; exact Hev |].
  split; [exact Hc |]. split; [| split; [reflexivity | exact Hh]].
  rewrite Hperm, length_seq, Hlen.
  destruct Hev as [_ _ _ Hne].
  assert (Hpos : length (population s2) <> 0%nat)
    by (destruct (population s2); [congruence | discriminate]).
  rewrite Hperm, length_seq, Hlen in Hpos. lia.
Qed.

(** Every state at the head of the loop has been evaluated, holds the
    configuration of the run, and has a full population. *)
Lemma reachable_invariant (start this : GeneticAlgorithm) :
  reachable start this ->
  evaluated this /\
  config this = config start /\
  Z.of_nat (length (population this)) = populationSize (config start).
Proof.
  induction 1 as [this Hseed | this this' _ IH _ _ Hnext].
  - apply seeded_state in Hseed as (Hev & Hc & Hlen & _). auto.
  - destruct IH as (Hev & Hc & Hlen).
    apply bind_Normal in Hnext as ([] & s1 & Hnext & Hmod).
    unfold modify in Hmod. injection Hmod as <-.
    apply nextGeneration_Normal in Hnext
      as (k & Hk & _ & Hev' & Hc' & _ & _ & Hlen' & _);
      [| apply Hev].
    split; [apply evaluated_withGeneration; exact Hev' |]. simpl_state.
    split; [congruence |]. rewrite Hlen', Hc. lia.
Qed.

Lemma descending_head {A} (key : A -> Q) (l : list A) :
  descending key l -> l <> [] ->
  exists best, l !! 0%nat = Some best /\ forall x, x ∈ l -> key x <= key best.
Proof.
  intros Hl Hne. destruct l as [| best rest]; [congruence |].
  exists best. split; [reflexivity |].
  apply descending_cons in Hl as [Hbest _].
  intros x Hx. apply elem_of_cons in Hx as [-> | Hx]; [apply Qle_refl | auto].
Qed.


(** ** Substrings *)

Lemma substring_take_drop (n m : nat) (s : string) :
  list_ascii_of_string (String.substring n m s)
  = take m (drop n (list_ascii_of_string s)).
Proof.
  revert n m. induction s as [| c s IH]; intros n m.
  - destruct n, m; reflexivity.
  - destruct n as [| n].
    + destruct m as [| m]; [reflexivity |].
      simpl. rewrite IH. reflexivity.
    + simpl. apply IH.
Qed.

Lemma length_list_ascii (s : string) :
  length (list_ascii_of_string s) = String.length s.
Proof. induction s as [| c s IH]; simpl; congruence. Qed.

(** [s.substring(0, p)] is the prefix of length [p]. *)
Lemma substring_prefix (s : string) (p : Z) :
  list_ascii_of_string (Js.substring s 0 p)
  = take (Z.to_nat p) (list_ascii_of_string s).
Proof.
  unfold Js.substring. rewrite substring_take_drop.
  set (len := String.length s).
  assert (Ha : Js.clamp 0 len = 0%nat) by (unfold Js.clamp; lia).
  rewrite Ha. rewrite Nat.min_0_l, Nat.max_0_l, Nat.sub_0_r, drop_0.
  destruct (Z_le_gt_dec p (Z.of_nat len)) as [Hle | Hgt].
  - replace (Js.clamp p len) with (Z.to_nat p) by (unfold Js.clamp; lia).
    reflexivity.
  - replace (Js.clamp p len) with len by (unfold Js.clamp; lia).
    assert (Hl : length (list_ascii_of_string s) = len) by apply length_list_ascii.
    rewrite (take_ge _ len) by lia. rewrite (take_ge _ (Z.to_nat p)) by lia.
    reflexivity.
Qed.

(** [s.substring(p)] is what is left after the first [p] characters. *)
Lemma substring_suffix (s : string) (p : Z) :
  list_ascii_of_string (Js.substringFrom s p)
  = drop (Z.to_nat p) (list_ascii_of_string s).
Proof.
  unfold Js.substringFrom, Js.substring. rewrite substring_take_drop.
  set (len := String.length s).
  assert (Hb : Js.clamp (Z.of_nat len) len = len) by (unfold Js.clamp; lia).
  rewrite Hb.
  assert (Ha : (Js.clamp p len <= len)%nat) by (unfold Js.clamp; lia).
  rewrite Nat.min_l, Nat.max_r by exact Ha.
  assert (Hl : length (list_ascii_of_string s) = len) by apply length_list_ascii.
  rewrite take_ge by (rewrite length_drop; lia).
  destruct (Z_le_gt_dec p (Z.of_nat len)) as [Hle | Hgt].
  - replace (Js.clamp p len) with (Z.to_nat p) by (unfold Js.clamp; lia).
    reflexivity.
  - replace (Js.clamp p len) with len by (unfold Js.clamp; lia).
    rewrite (drop_ge _ len) by lia. rewrite (drop_ge _ (Z.to_nat p)) by lia.
    reflexivity.
Qed.

Lemma list_ascii_append (s t : string) :
  list_ascii_of_string (s ++ t)%string
  = list_ascii_of_string s ++ list_ascii_of_string t.
Proof. induction s as [| c s IH]; simpl; congruence. Qed.

(** ** Agents from rejected chromosomes *)

(** C7. A chromosome that the evaluator rejects, as it does every
    string with two operators in a row, never makes the driver throw:
    the agent gets the solution 0 and the fitness 1 / (1 + |0 - target|),
    when it is created and when it is evaluated again. *)
Theorem rejected_chromosome_scores_zero (c : string) (this : GeneticAlgorithm) :
  (consecutiveOperators c = true -> evaluate parser c = None) /\
  (evaluate parser c = None ->
   (exists agent this' a,
       createAgentFromChromosome c this = Normal (agent, this') /\
       heap this' !! agent = Some a /\
       chromosome a = c /\
       solution a = 0 /\
       fitness a = calculateFitness (config this) 0 /\
       fitness a == 1 / (1 + Qabs (0 - target (config this)))) /\
   (forall agent old,
       heap this !! agent = Some old -> chromosome old = c ->
       exists this' a,
         rescore agent this = Normal (tt, this') /\
         heap this' !! agent = Some a /\
         chromosome a = c /\
         solution a = 0 /\
         fitness a == 1 / (1 + Qabs (0 - target (config this))))).
Proof.
  split; [apply evaluate_consecutiveOperators |].
  intros Hrejected. split.
  - rewrite createAgentFromChromosome_run.
    eexists _, _, _. split; [reflexivity |]. simpl_state.
    split; [rewrite lookup_app_r, Nat.sub_diag by lia; reflexivity |].
    unfold rescored. cbn [chromosome solution fitness]. rewrite Hrejected.
    repeat split. apply calculateFitness_formula.
  - intros agent old Hold Hc.
    rewrite (rescore_run _ _ _ Hold).
    eexists _, _. split; [reflexivity |]. simpl_state.
    split; [apply list_lookup_insert_eq; apply lookup_lt_Some in Hold; exact Hold |].
    unfold rescored. cbn [chromosome solution fitness]. rewrite Hc, Hrejected.
    repeat split. apply calculateFitness_formula.
Qed.


(** ** The loop of [evolve] *)

Lemma getBestAgent_run (this : GeneticAlgorithm) (best : ref) :
  population this !! 0%nat = Some best ->
  getBestAgent this = Normal (Some best, this).
Proof.
  intros H. unfold getBestAgent, bind, get.
  destruct (population this) as [| x l] eqn:E; [discriminate |].
  simpl in H. injection H as ->. reflexivity.
Qed.

Lemma evaluated_best (this : GeneticAlgorithm) :
  evaluated this ->
  exists best b,
    population this !! 0%nat = Some best /\
    heap this !! best = Some b /\
    fitnessOf (heap this) best = fitness b /\
    forall r, r ∈ population this ->
              fitnessOf (heap this) r <= fitnessOf (heap this) best.
Proof.
  intros [Halloc _ Hsorted Hne].
  destruct (descending_head _ _ Hsorted Hne) as (best & Hbest & Hmax).
  destruct (Halloc best) as [b Hb]; [eapply list_elem_of_lookup_2; exact Hbest |].
  exists best, b. repeat split; auto. unfold fitnessOf. rewrite Hb. reflexivity.
Qed.

Lemma converged_run (this : GeneticAlgorithm) (best : ref) (b : Agent) :
  heap this !! best = Some b ->
  converged (Some best) this = Normal (Qle_bool (99 # 100) (fitness b), this).
Proof. intros H. unfold converged, bind, load. rewrite H. reflexivity. Qed.

(** In a terminal state the loop returns the first individual and
    leaves the state as it is. *)
Lemma generationLoop_terminal (fuel : nat) (this : GeneticAlgorithm) :
  evaluated this -> terminal this ->
  exists best,
    population this !! 0%nat = Some best /\
    generationLoop fuel this = Normal (Some best, this).
Proof.
  intros Hev Hterm.
  destruct (evaluated_best this Hev) as (best & b & Hbest & Hb & Hfit & _).
  exists best. split; [exact Hbest |].
  destruct fuel as [| fuel]; [apply getBestAgent_run; exact Hbest |].
  cbn [generationLoop]. erewrite bind_run by reflexivity.
  destruct (generation this <? maxGenerations (config this))%Z eqn:E;
    [| apply getBestAgent_run; exact Hbest].
  destruct Hterm as [Hgen | (best' & Hbest' & Hfit')]; [lia |].
  rewrite Hbest in Hbest'. injection Hbest' as <-.
  erewrite bind_run by (apply getBestAgent_run; exact Hbest).
  erewrite bind_run by (apply converged_run; exact Hb).
  rewrite Hfit in Hfit'. apply Qle_bool_iff in Hfit'. rewrite Hfit'. reflexivity.
Qed.

(** In any other state the loop makes one generation transition,
    counts it, and goes on. *)
Lemma generationLoop_continue (fuel : nat) (this : GeneticAlgorithm) :
  evaluated this -> ~ terminal this ->
  (maxGenerations (config this) - generation this <= Z.of_nat fuel)%Z ->
  exists k,
    fuel = S k /\
    (generation this <? maxGenerations (config this))%Z = true /\
    (best <- getBestAgent;; converged best) this = Normal (false, this) /\
    generationLoop fuel this
    = (nextGeneration;;
       modify (fun this => withGeneration (generation this + 1) this);;
       generationLoop k) this.
Proof.
  intros Hev Hterm Hfuel.
  destruct (evaluated_best this Hev) as (best & b & Hbest & Hb & Hfit & _).
  assert (Hgen : (generation this < maxGenerations (config this))%Z).
  { apply Z.lt_nge. intros Hge. apply Hterm. left. exact Hge. }
  assert (Hlow : Qle_bool (99 # 100) (fitness b) = false).
  { destruct (Qle_bool (99 # 100) (fitness b)) eqn:E; [| reflexivity].
    exfalso. apply Hterm. right. exists best. split; [exact Hbest |].
    rewrite Hfit. apply Qle_bool_iff. exact E. }
  destruct fuel as [| k]; [lia |]. exists k. split; [reflexivity |].
  split; [apply Z.ltb_lt; exact Hgen |]. split.
  - erewrite bind_run by (apply getBestAgent_run; exact Hbest).
    rewrite (converged_run _ _ _ Hb), Hlow. reflexivity.
  - cbn [generationLoop]. erewrite bind_run by reflexivity.
    rewrite (proj2 (Z.ltb_lt _ _) Hgen).
    erewrite bind_run by (apply getBestAgent_run; exact Hbest).
    erewrite bind_run by (apply converged_run; exact Hb).
    rewrite Hlow. reflexivity.
Qed.

Lemma terminal_dec (this : GeneticAlgorithm) : terminal this \/ ~ terminal this.
Proof.
  unfold terminal.
  destruct (Z_le_gt_dec (maxGenerations (config this)) (generation this)) as [H | H];
    [left; left; exact H |].
  destruct (population this !! 0%nat) as [best |] eqn:E.
  - destruct (Qlt_le_dec (fitnessOf (heap this) best) (99 # 100)) as [Hlt | Hle].
    + right. intros [Hge | (best' & Hbest' & Hfit)]; [lia |].
      injection Hbest' as <-. lra.
    + left. right. exists best. auto.
  - right. intros [Hge | (best' & Hbest' & _)]; [lia | discriminate].
Qed.

(** Whenever the loop returns, it returns the first individual of a
    terminal state that the run has reached. *)
Lemma generationLoop_Normal (start : GeneticAlgorithm) (fuel : nat)
  (this final : GeneticAlgorithm) (result : option ref) :
  reachable start this ->
  (maxGenerations (config this) - generation this <= Z.of_nat fuel)%Z ->
  generationLoop fuel this = Normal (result, final) ->
  reachable start final /\ terminal final /\
  exists best, result = Some best /\ population final !! 0%nat = Some best.
Proof.
  revert this. induction fuel as [| fuel IH]; intros this Hreach Hfuel Hrun.
  - pose proof (reachable_invariant _ _ Hreach) as (Hev & _).
    assert (Hterm : terminal this) by (left; lia).
    destruct (generationLoop_terminal 0 this Hev Hterm) as (best & Hbest & Hret).
    rewrite Hret in Hrun. injection Hrun as <- <-. eauto.
  - pose proof (reachable_invariant _ _ Hreach) as (Hev & _).
    destruct (terminal_dec this) as [Hterm | Hterm].
    + destruct (generationLoop_terminal (S fuel) this Hev Hterm) as (best & Hbest & Hret).
      rewrite Hret in Hrun. injection Hrun as <- <-. eauto.
    + destruct (generationLoop_continue (S fuel) this Hev Hterm Hfuel)
        as (k & Hk & Hgen & Hconv & Hstep).
      injection Hk as <-. rewrite Hstep in Hrun.
      apply bind_Normal in Hrun as ([] & s1 & Hnext & Hrun).
      apply bind_Normal in Hrun as ([] & s2 & Hmod & Hrun).
      assert (Hreach' : reachable start s2).
      { eapply reach_next; [exact Hreach | exact Hgen | exact Hconv |].
        rewrite (bind_run _ _ _ _ _ Hnext). exact Hmod. }
      apply (IH s2 Hreach'); [| exact Hrun].
      unfold modify in Hmod. injection Hmod as <-. simpl_state.
      pose proof (reachable_invariant _ _ Hreach) as (Hev0 & _).
      apply nextGeneration_Normal in Hnext
        as (_ & _ & _ & _ & Hc & Hg & _); [| apply Hev0].
      rewrite Hc, Hg. apply Z.ltb_lt in Hgen. lia.
Qed.

Lemma evolve_Normal (start final : GeneticAlgorithm) (result : option ref) :
  evolve start = Normal (result, final) ->
  exists seeded,
    reachable start seeded /\
    generationLoop (Z.to_nat (maxGenerations (config seeded))) seeded
    = Normal (result, final) /\
    generation seeded = 0%Z.
Proof.
  unfold evolve. intros H.
  apply bind_Normal in H as ([] & s1 & Hinit & H).
  apply bind_Normal in H as ([] & s2 & Hev & H).
  apply bind_Normal in H as ([] & s3 & Hmod & H).
  erewrite bind_run in H by reflexivity.
  exists s3. split; [| split; [exact H |]].
  - apply reach_seeded.
    rewrite (bind_run _ _ _ _ _ Hinit), (bind_run _ _ _ _ _ Hev). exact Hmod.
  - unfold modify in Hmod. injection Hmod as <-. reflexivity.
Qed.


Lemma withGeneration_id (this : GeneticAlgorithm) :
  withGeneration (generation this) this = this.
Proof. destruct this. reflexivity. Qed.

(** Seeding and the first evaluation pass succeed when the population
    is not empty. *)
Lemma seeding_total (start : GeneticAlgorithm) :
  (1 <= populationSize (config start))%Z ->
  exists seeded,
    (initializePopulation;; evaluateFitness) start = Normal (tt, seeded) /\
    evaluated seeded /\
    config seeded = config start /\
    generation seeded = generation start /\
    length (bestFitnessHistory seeded) = S (length (bestFitnessHistory start)).
Proof.
  intros Hsize.
  destruct (initializePopulation_total start) as (agents & d & Hlen & _ & Hinit).
  destruct (evaluateFitness_total
              (withPopulation (seq (length (heap start)) (length agents))
                 (withHeap (heap start ++ agents) (withDrawn d start))))
    as [seeded Hev].
  { simpl_state. intros r Hr. apply elem_of_seq in Hr.
    apply lookup_lt_is_Some. rewrite length_app. lia. }
  { simpl_state. destruct agents; [simpl in Hlen; lia | discriminate]. }
  exists seeded. rewrite (bind_run _ _ _ _ _ Hinit). split; [exact Hev |].
  apply evaluateFitness_evaluated in Hev as (Hev & _ & Hc & Hg & Hh). auto.
Qed.

(** Without individuals the first evaluation pass throws. *)
Lemma seeding_empty (start : GeneticAlgorithm) :
  (populationSize (config start) <= 0)%Z ->
  (initializePopulation;; evaluateFitness) start = TypeError.
Proof.
  intros Hsize.
  destruct (initializePopulation_total start) as (agents & d & Hlen & _ & Hinit).
  rewrite (bind_run _ _ _ _ _ Hinit). apply evaluateFitness_empty. simpl_state.
  replace (length agents) with 0%nat by lia. reflexivity.
Qed.

Lemma evolve_zero_generations (start : GeneticAlgorithm) :
  maxGenerations (config start) = 0%Z ->
  (1 <= populationSize (config start))%Z ->
  exists best seeded,
    (initializePopulation;; evaluateFitness) start = Normal (tt, seeded) /\
    evolve start = Normal (Some best, withGeneration 0 seeded) /\
    population seeded !! 0%nat = Some best /\
    (forall r, r ∈ population seeded ->
               fitnessOf (heap seeded) r <= fitnessOf (heap seeded) best) /\
    generation seeded = generation start /\
    length (bestFitnessHistory seeded) = S (length (bestFitnessHistory start)).
Proof.
  intros Hmax Hsize.
  destruct (seeding_total start Hsize) as (seeded & Hseed & Hev & Hc & Hg & Hh).
  destruct (evaluated_best seeded Hev) as (best & b & Hbest & _ & _ & Hbound).
  exists best, seeded. repeat split; auto.
  unfold evolve.
  apply bind_Normal in Hseed as ([] & s1 & Hinit & Hpass).
  rewrite (bind_run _ _ _ _ _ Hinit), (bind_run _ _ _ _ _ Hpass).
  erewrite bind_run by reflexivity. erewrite bind_run by reflexivity.
  simpl_state. rewrite Hc, Hmax. simpl.
  apply getBestAgent_run. simpl_state. exact Hbest.
Qed.

(** ** Crossover *)

Section Draws.

(** [Math.random] returns a number in [[0, 1)]. *)
Hypothesis random_unit : forall n, 0 <= randomSource n /\ randomSource n < 1.

Lemma randomSource_index (n : nat) (len : nat) :
  (0 < len)%nat ->
  (0 <= Qfloor (randomSource n * inject_Z (Z.of_nat len)) < Z.of_nat len)%Z.
Proof.
  intros Hlen. destruct (random_unit n) as [H0 H1].
  apply floor_scaled_bounds; [exact H0 | exact H1 | lia].
Qed.

(** C3, as the code implements it.  Crossover cuts parent A at [p1]
    and parent B at [p2], both within the chromosome, builds
    A[0:p1] + B[p2:] and B[0:p2] + A[p1:], scores both, and returns
    the first one when its fitness is strictly higher and the second
    one otherwise, so also when the two are equal. *)
Theorem crossover_returns_fitter_child
  (parent1 parent2 : ref) (this : GeneticAlgorithm) (a1 a2 : Agent) :
  heap this !! parent1 = Some a1 ->
  heap this !! parent2 = Some a2 ->
  let A := list_ascii_of_string (chromosome a1) in
  let B := list_ascii_of_string (chromosome a2) in
  let score := fun c => calculateFitness (config this) (default 0 (evaluate parser c)) in
  exists (p1 p2 : nat) (child1 child2 : string) (child : ref)
         (this' : GeneticAlgorithm) (c : Agent),
    (A <> [] -> (p1 < length A)%nat) /\
    (B <> [] -> (p2 < length B)%nat) /\
    list_ascii_of_string child1 = take p1 A ++ drop p2 B /\
    list_ascii_of_string child2 = take p2 B ++ drop p1 A /\
    crossover parent1 parent2 this = Normal (child, this') /\
    heap this' !! child = Some c /\
    scored (config this) c /\
    fitness c = score (chromosome c) /\
    (score child2 < score child1 -> chromosome c = child1) /\
    (score child1 <= score child2 -> chromosome c = child2).
Proof.
  intros H1 H2 A B score.
  pose proof (crossover_run parent1 parent2 this a1 a2 H1 H2) as Hrun.
  cbv zeta in Hrun. unfold crossoverChildren in Hrun.
  cbn [fst snd rescored chromosome fitness solution] in Hrun.
  set (point1 := Qfloor (randomSource (drawn this)
                         * inject_Z (Z.of_nat (String.length (chromosome a1))))) in *.
  set (point2 := Qfloor (randomSource (S (drawn this))
                         * inject_Z (Z.of_nat (String.length (chromosome a2))))) in *.
  assert (Hp1 : A <> [] -> (Z.to_nat point1 < length A)%nat).
  { intros HA. unfold A. rewrite length_list_ascii.
    assert (Hpos : (0 < String.length (chromosome a1))%nat).
    { rewrite <- length_list_ascii. fold A. destruct A; [congruence | simpl; lia]. }
    pose proof (randomSource_index (drawn this) _ Hpos) as Hidx.
    fold point1 in Hidx. lia. }
  assert (Hp2 : B <> [] -> (Z.to_nat point2 < length B)%nat).
  { intros HB. unfold B. rewrite length_list_ascii.
    assert (Hpos : (0 < String.length (chromosome a2))%nat).
    { rewrite <- length_list_ascii. fold B. destruct B; [congruence | simpl; lia]. }
    pose proof (randomSource_index (S (drawn this)) _ Hpos) as Hidx.
    fold point2 in Hidx. lia. }
  exists (Z.to_nat point1), (Z.to_nat point2).
  exists (Js.substring (chromosome a1) 0 point1
          ++ Js.substringFrom (chromosome a2) point2)%string.
  exists (Js.substring (chromosome a2) 0 point2
          ++ Js.substringFrom (chromosome a1) point1)%string.
  unfold score.
  destruct (Qgtb _ _) eqn:E in Hrun.
  - apply Qgtb_true in E.
    eexists _, _, _.
    split; [exact Hp1 |]. split; [exact Hp2 |].
    split; [rewrite list_ascii_append, substring_prefix, substring_suffix; reflexivity |].
    split; [rewrite list_ascii_append, substring_prefix, substring_suffix; reflexivity |].
    split; [exact Hrun |]. simpl_state.
    split; [rewrite lookup_app_r, Nat.sub_diag by lia; reflexivity |].
    split; [apply rescored_scored |]. split; [reflexivity |].
    split; [reflexivity |]. intros Hle. lra.
  - apply Qgtb_false in E.
    eexists _, _, _.
    split; [exact Hp1 |]. split; [exact Hp2 |].
    split; [rewrite list_ascii_append, substring_prefix, substring_suffix; reflexivity |].
    split; [rewrite list_ascii_append, substring_prefix, substring_suffix; reflexivity |].
    split; [exact Hrun |]. simpl_state.
    split; [rewrite lookup_app_r by lia;
            replace (S (length (heap this)) - length (heap this))%nat with 1%nat by lia;
            reflexivity |].
    split; [apply rescored_scored |]. split; [reflexivity |].
    split; [intros Hlt; lra | reflexivity].
Qed.

(** ** Mutation *)

Lemma Normal_value {A} (x y : A) (s s' : GeneticAlgorithm) :
  Normal (x, s) = Normal (y, s') -> x = y.
Proof. intros H. injection H. auto. Qed.

Lemma chooseEdits_run (chars : list string) (this : GeneticAlgorithm) :
  let d := drawn this in
  let len := Z.of_nat (length chars) in
  let index := Qfloor (randomSource (S d) * inject_Z len) in
  let set := if Qgtb (randomSource (S (S d))) (1 # 2) then operators else digits in
  let text :=
    Js.joined (Js.index set (Qfloor (randomSource (S (S (S d)))
                                     * inject_Z (Z.of_nat (length set))))) in
  chooseEdits chars this
  = if Qltb (randomSource d) (33 # 100)
    then Normal ([Replace index text], withDrawn (S (S (S (S d)))) this)
    else if Qltb (randomSource d) (66 # 100)
    then Normal ([Insert index text], withDrawn (S (S (S (S d)))) this)
    else if (3 <? len)%Z
    then Normal ([Delete index], withDrawn (S (S d)) this)
    else Normal ([], withDrawn (S d) this).
Proof.
  cbv zeta. unfold chooseEdits.
  erewrite bind_run by apply Math_random_run.
  destruct (Qltb _ (33 # 100)); [reflexivity |].
  destruct (Qltb _ (66 # 100)); [reflexivity |].
  destruct (3 <? _)%Z; reflexivity.
Qed.

Lemma operators_spec (c : ascii) : c ∈ operators -> Js.isOperator c = true.
Proof.
  unfold operators. rewrite !elem_of_cons, elem_of_nil.
  intros [-> | [-> | [-> | [-> | []]]]]; reflexivity.
Qed.

Lemma digits_spec (c : ascii) : c ∈ digits -> Js.isDigit c = true.
Proof.
  unfold digits. simpl. rewrite !elem_of_cons, elem_of_nil.
  intros H. repeat (destruct H as [-> | H]; [reflexivity |]). contradiction.
Qed.

(** A draw picks a character of the set it indexes. *)
Lemma index_draw {A} (l : list A) (n : nat) :
  l <> [] ->
  exists x, Js.index l (Qfloor (randomSource n * inject_Z (Z.of_nat (length l))))
            = Some x /\ x ∈ l.
Proof.
  intros Hne.
  assert (Hpos : (0 < length l)%nat) by (destruct l; [congruence | simpl; lia]).
  pose proof (randomSource_index n _ Hpos) as Hidx.
  unfold Js.index.
  destruct (Z.ltb_spec (Qfloor (randomSource n * inject_Z (Z.of_nat (length l)))) 0);
    [lia |].
  destruct (lookup_lt_is_Some_2 l
              (Z.to_nat (Qfloor (randomSource n * inject_Z (Z.of_nat (length l))))))
    as [x Hx]; [lia |].
  exists x. split; [exact Hx |]. eapply list_elem_of_lookup_2. exact Hx.
Qed.

Lemma pick_char (n k : nat) :
  exists c : ascii,
    Js.joined
      (Js.index (if Qgtb (randomSource n) (1 # 2) then operators else digits)
         (Qfloor (randomSource k
                  * inject_Z (Z.of_nat
                      (length (if Qgtb (randomSource n) (1 # 2)
                               then operators else digits))))))
    = String c EmptyString /\
    (Js.isDigit c = true \/ Js.isOperator c = true).
Proof.
  destruct (Qgtb (randomSource n) (1 # 2)).
  - destruct (index_draw operators k) as (c & -> & Hc); [discriminate |].
    exists c. split; [reflexivity |]. right. apply operators_spec, Hc.
  - destruct (index_draw digits k) as (c & -> & Hc); [discriminate |].
    exists c. split; [reflexivity |]. left. apply digits_spec, Hc.
Qed.

Lemma position_draw (n : nat) (chars : list string) :
  let i := Qfloor (randomSource n * inject_Z (Z.of_nat (length chars))) in
  (0 <= i)%Z /\ (chars <> [] -> (i < Z.of_nat (length chars))%Z).
Proof.
  cbv zeta. destruct chars as [| c chars].
  - change (Z.of_nat (length (@nil string))) with 0%Z.
    rewrite floor_scaled_zero. split; [lia | congruence].
  - pose proof (randomSource_index n (length (c :: chars)) ltac:(simpl; lia)).
    split; [lia | intros _; lia].
Qed.

(** C5, as the code implements it.  A call of [mutate] draws a
    number [m] and carries out at most one edit of the chromosome: a
    substitution of one position by a digit or an operator when
    [m < 0.33], an insertion of such a character when
    [0.33 <= m < 0.66], and otherwise a deletion when the chromosome
    has more than 3 characters and no edit at all when it has not.
    Afterwards the solution and the fitness stored in the agent are
    the ones computed from the new chromosome. *)
Theorem mutate_edits_and_rescores (agent : ref) (this : GeneticAlgorithm) (a : Agent) :
  heap this !! agent = Some a ->
  let chars := Js.split (chromosome a) in
  let m := randomSource (drawn this) in
  exists (edits : list Edit) (this' : GeneticAlgorithm) (a' : Agent),
    (exists d, chooseEdits chars this = Normal (edits, withDrawn d this)) /\
    mutate agent this = Normal (tt, this') /\
    (length edits <= 1)%nat /\
    (m < 33 # 100 ->
     exists i c, edits = [Replace i (String c EmptyString)] /\
                 (0 <= i)%Z /\ (chars <> [] -> (i < Z.of_nat (length chars))%Z) /\
                 (Js.isDigit c = true \/ Js.isOperator c = true)) /\
    (33 # 100 <= m -> m < 66 # 100 ->
     exists i c, edits = [Insert i (String c EmptyString)] /\
                 (0 <= i)%Z /\ (chars <> [] -> (i < Z.of_nat (length chars))%Z) /\
                 (Js.isDigit c = true \/ Js.isOperator c = true)) /\
    (66 # 100 <= m -> (3 < length chars)%nat ->
     exists i, edits = [Delete i] /\ (0 <= i < Z.of_nat (length chars))%Z) /\
    (66 # 100 <= m -> (length chars <= 3)%nat -> edits = []) /\
    heap this' !! agent = Some a' /\
    chromosome a' = Js.join (foldl applyEdit chars edits) /\
    equation a' = chromosome a' /\
    solution a' = default 0 (evaluate parser (chromosome a')) /\
    fitness a' = calculateFitness (config this) (solution a').
Proof.
  intros Ha chars m.
  destruct (mutate_run agent this a Ha) as (edits & d & Hchoose & Hmut).
  cbv zeta in Hmut. fold chars in Hchoose, Hmut.
  exists edits. eexists _, _.
  split; [exists d; exact Hchoose |]. split; [exact Hmut |].
  destruct (chooseEdits_total chars this) as (edits' & d' & Hchoose' & Hlen).
  rewrite Hchoose in Hchoose'. injection Hchoose' as <- _.
  split; [exact Hlen |].
  pose proof (chooseEdits_run chars this) as Hrun. cbv zeta in Hrun.
  fold m in Hrun. rewrite Hchoose in Hrun.
  destruct (pick_char (S (S (drawn this))) (S (S (S (drawn this))))) as (c & Hc & Hclass).
  pose proof (position_draw (S (drawn this)) chars) as [Hi0 Hi1].
  split; [| split; [| split; [| split]]].
  - intros Hm. apply Qltb_true in Hm. rewrite Hm in Hrun.
    apply Normal_value in Hrun as ->. rewrite Hc. eexists _, c. eauto.
  - intros Hm1 Hm2. apply Qltb_false in Hm1. apply Qltb_true in Hm2.
    rewrite Hm1, Hm2 in Hrun.
    apply Normal_value in Hrun as ->. rewrite Hc. eexists _, c. eauto.
  - intros Hm Hlong.
    assert (Hm1 : Qltb m (33 # 100) = false) by (apply Qltb_false; lra).
    assert (Hm2 : Qltb m (66 # 100) = false) by (apply Qltb_false; exact Hm).
    rewrite Hm1, Hm2 in Hrun.
    destruct (Z.ltb_spec 3 (Z.of_nat (length chars))); [| lia].
    apply Normal_value in Hrun as ->. eexists. split; [reflexivity |].
    split; [exact Hi0 |]. apply Hi1. destruct chars; [simpl in Hlong; lia | discriminate].
  - intros Hm Hshort.
    assert (Hm1 : Qltb m (33 # 100) = false) by (apply Qltb_false; lra).
    assert (Hm2 : Qltb m (66 # 100) = false) by (apply Qltb_false; exact Hm).
    rewrite Hm1, Hm2 in Hrun.
    destruct (Z.ltb_spec 3 (Z.of_nat (length chars))); [lia |].
    apply Normal_value in Hrun as ->. reflexivity.
  - simpl_state.
    split; [apply list_lookup_insert_eq; apply lookup_lt_Some in Ha; exact Ha |].
    repeat split.
Qed.

(** ** Progress: the calls that cannot throw *)

Lemma tournamentLoop_total (n : nat) (tournament : list ref) (this : GeneticAlgorithm) :
  population this <> [] ->
  exists t' d,
    tournamentLoop n tournament this = Normal (t', withDrawn d this) /\
    length t' = (length tournament + n)%nat.
Proof.
  intros Hne. revert tournament this Hne.
  induction n as [| n IH]; intros t this Hne.
  - exists t, (drawn this). unfold tournamentLoop, ret. rewrite withDrawn_id.
    split; [reflexivity | lia].
  - cbn [tournamentLoop]. erewrite bind_run by reflexivity.
    erewrite bind_run by apply randomIndex_run.
    destruct (index_draw (population this) (drawn this) Hne) as (agent & Hidx & _).
    simpl_state. unfold element at 1. rewrite Hidx.
    erewrite bind_run by reflexivity.
    destruct (IH (t ++ [agent]) (withDrawn (S (drawn this)) this) Hne)
      as (t' & d & Hrun & Hlen).
    exists t', d. split; [exact Hrun |].
    rewrite Hlen, length_app. simpl. lia.
Qed.

Lemma tournamentSelection_total (this : GeneticAlgorithm) :
  (1 <= tournamentSize (config this))%Z ->
  population this <> [] ->
  exists r d,
    tournamentSelection this = Normal (r, withDrawn d this) /\
    r ∈ population this.
Proof.
  intros Hsize Hne. unfold tournamentSelection.
  erewrite bind_run by reflexivity.
  destruct (tournamentLoop_total (Z.to_nat (tournamentSize (config this))) [] this Hne)
    as (t & d & Hloop & Hlen).
  assert (Hsel : exists r, (tournament <- tournamentLoop
                              (Z.to_nat (tournamentSize (config this))) [];;
                            reduceBest tournament) this
                           = Normal (r, withDrawn d this)).
  { erewrite bind_run by exact Hloop.
    destruct t as [| first rest]; [simpl in Hlen; lia |].
    eexists. reflexivity. }
  destruct Hsel as [r Hsel]. exists r, d. split; [exact Hsel |].
  assert (Hfull : tournamentSelection this = Normal (r, withDrawn d this)).
  { unfold tournamentSelection. erewrite bind_run by reflexivity. exact Hsel. }
  apply tournamentSelection_Normal in Hfull as [Hr _]. exact Hr.
Qed.

Lemma makeOffspring_total (this : GeneticAlgorithm) :
  (1 <= tournamentSize (config this))%Z ->
  population this <> [] ->
  (forall r, r ∈ population this -> is_Some (heap this !! r)) ->
  exists r this', makeOffspring this = Normal (r, this').
Proof.
  intros Hsize Hne Halloc. unfold makeOffspring.
  destruct (tournamentSelection_total this Hsize Hne) as (p1 & d1 & Hsel1 & Hp1).
  erewrite bind_run by exact Hsel1.
  destruct (tournamentSelection_total (withDrawn d1 this) Hsize Hne)
    as (p2 & d2 & Hsel2 & Hp2).
  erewrite bind_run by exact Hsel2.
  erewrite bind_run by reflexivity.
  erewrite bind_run by apply Math_random_run. simpl_state.
  destruct (Halloc p1 Hp1) as [a1 Ha1]. destruct (Halloc p2 Hp2) as [a2 Ha2].
  assert (Hoff : exists r s,
             (if Qltb (randomSource d2) (crossoverRate (config this))
              then crossover p1 p2 else cloneAgent p1)
               (withDrawn (S d2) (withDrawn d2 (withDrawn d1 this)))
             = Normal (r, s) /\ is_Some (heap s !! r)).
  { destruct (Qltb _ _).
    - eexists _, _. split; [apply (crossover_run _ _ _ a1 a2); assumption |].
      simpl_state. apply lookup_lt_is_Some. rewrite length_app. simpl.
      destruct (Qgtb _ _); lia.
    - eexists _, _. split; [apply (cloneAgent_run _ _ a1); assumption |].
      simpl_state. apply lookup_lt_is_Some. rewrite length_app. simpl. lia. }
  destruct Hoff as (r & s & Hoff & [a Ha]).
  erewrite bind_run by exact Hoff.
  erewrite bind_run by apply Math_random_run.
  destruct (Qltb _ (mutationRate _)).
  - destruct (mutate_run r (withDrawn (S (drawn s)) s) a Ha) as (edits & d & _ & Hmut).
    cbv zeta in Hmut. erewrite bind_run by exact Hmut.
    eexists _, _. reflexivity.
  - erewrite bind_run by reflexivity. eexists _, _. reflexivity.
Qed.

Lemma extends_allocated (n : nat) (this this' : GeneticAlgorithm) :
  extends n this this' ->
  (forall r, r ∈ population this -> is_Some (heap this !! r)) ->
  forall r, r ∈ population this' -> is_Some (heap this' !! r).
Proof.
  intros [_ Hp _ _ Hl _] Halloc r Hr. rewrite Hp in Hr.
  apply lookup_lt_is_Some. specialize (Halloc r Hr).
  apply lookup_lt_is_Some in Halloc. lia.
Qed.

Lemma offspringLoop_total (fuel : nat) (newPopulation : list ref) (this : GeneticAlgorithm) :
  (Z.of_nat (length newPopulation) < populationSize (config this) ->
   1 <= tournamentSize (config this))%Z ->
  population this <> [] ->
  (forall r, r ∈ population this -> is_Some (heap this !! r)) ->
  exists result this', offspringLoop fuel newPopulation this = Normal (result, this').
Proof.
  revert newPopulation this.
  induction fuel as [| fuel IH]; intros np this Hsize Hne Halloc.
  - eexists _, _. reflexivity.
  - cbn [offspringLoop]. erewrite bind_run by reflexivity.
    destruct (Z.ltb_spec (Z.of_nat (length np)) (populationSize (config this)));
      [| eexists _, _; reflexivity].
    destruct (makeOffspring_total this (Hsize H) Hne Halloc) as (r & s & Hmake).
    erewrite bind_run by exact Hmake.
    apply makeOffspring_Normal in Hmake as [Hext _].
    apply IH.
    + destruct Hext as [Hc _ _ _ _ _]. rewrite Hc. intros _. apply Hsize, H.
    + destruct Hext as [_ Hp _ _ _ _]. rewrite Hp. exact Hne.
    + eapply extends_allocated; eauto.
Qed.

(** A generation transition from an evaluated state returns when
    the tournaments are not empty. *)
Lemma nextGeneration_total (this : GeneticAlgorithm) :
  evaluated this ->
  (1 <= populationSize (config this))%Z ->
  (1 <= tournamentSize (config this))%Z ->
  exists this', nextGeneration this = Normal (tt, this').
Proof.
  intros [Halloc _ _ Hne] Hpop Hsize. unfold nextGeneration.
  destruct (selectElite_run this Halloc) as (k & agents & Hk & _ & Hlen & _ & Hsel).
  erewrite bind_run by exact Hsel.
  erewrite bind_run by reflexivity. simpl_state.
  destruct (offspringLoop_total (Z.to_nat (populationSize (config this)))
              (seq (length (heap this)) k) (withHeap (heap this ++ agents) this))
    as (newPopulation & s2 & Hloop).
  { intros _. exact Hsize. }
  { exact Hne. }
  { apply (extends_allocated _ _ _ (extends_alloc this agents) Halloc). }
  erewrite bind_run by exact Hloop.
  erewrite bind_run by reflexivity.
  pose proof Hloop as Hsz.
  apply offspringLoop_length in Hsz; [| simpl_state; rewrite length_seq; lia].
  apply offspringLoop_Normal in Hloop as (Hext & offspring & -> & Hoff).
  destruct Hext as [_ _ _ _ Hl _]. simpl_state.
  rewrite length_app in Hl, Hoff. rewrite length_seq in Hsz.
  apply evaluateFitness_total; simpl_state.
  - intros r Hr. apply lookup_lt_is_Some.
    apply elem_of_app in Hr as [Hr | Hr].
    + apply elem_of_seq in Hr. lia.
    + specialize (Hoff r Hr). lia.
  - intros Hnil. rewrite Hnil in Hsz. simpl in Hsz. lia.
Qed.

(** A run with at least one individual and tournaments that are not
    empty returns. *)
Lemma generationLoop_total (start : GeneticAlgorithm) (fuel : nat)
  (this : GeneticAlgorithm) :
  (1 <= tournamentSize (config start))%Z ->
  reachable start this ->
  exists result final, generationLoop fuel this = Normal (result, final).
Proof.
  intros Hsize. revert this. induction fuel as [| fuel IH]; intros this Hreach.
  - pose proof (reachable_invariant _ _ Hreach) as (Hev & _).
    destruct (evaluated_best this Hev) as (best & b & Hbest & _).
    eexists _, _. apply getBestAgent_run. exact Hbest.
  - pose proof (reachable_invariant _ _ Hreach) as (Hev & Hc & Hlen).
    destruct (evaluated_best this Hev) as (best & b & Hbest & Hb & _).
    cbn [generationLoop]. erewrite bind_run by reflexivity.
    destruct (generation this <? maxGenerations (config this))%Z eqn:Hgen;
      [| eexists _, _; apply getBestAgent_run; exact Hbest].
    erewrite bind_run by (apply getBestAgent_run; exact Hbest).
    erewrite bind_run by (apply converged_run; exact Hb).
    destruct (Qle_bool (99 # 100) (fitness b)) eqn:Hconv;
      [eexists _, _; reflexivity |].
    destruct (nextGeneration_total this Hev) as [s1 Hnext].
    { rewrite Hc, <- Hlen. destruct Hev as [_ _ _ Hne].
      destruct (population this); [congruence | simpl; lia]. }
    { rewrite Hc. exact Hsize. }
    erewrite bind_run by exact Hnext.
    erewrite bind_run by reflexivity.
    apply IH. eapply reach_next; [exact Hreach | exact Hgen | |].
    + erewrite bind_run by (apply getBestAgent_run; exact Hbest).
      rewrite (converged_run _ _ _ Hb), Hconv. reflexivity.
    + rewrite (bind_run _ _ _ _ _ Hnext). reflexivity.
Qed.

Lemma evolve_total (start : GeneticAlgorithm) :
  (1 <= populationSize (config start))%Z ->
  (1 <= tournamentSize (config start))%Z ->
  exists result final, evolve start = Normal (result, final).
Proof.
  intros Hpop Hsize.
  destruct (seeding_total start Hpop) as (seeded & Hseed & _).
  apply bind_Normal in Hseed as ([] & s1 & Hinit & Hpass).
  unfold evolve.
  rewrite (bind_run _ _ _ _ _ Hinit), (bind_run _ _ _ _ _ Hpass).
  erewrite bind_run by reflexivity. erewrite bind_run by reflexivity.
  apply (generationLoop_total start); [exact Hsize |].
  apply reach_seeded.
  rewrite (bind_run _ _ _ _ _ Hinit), (bind_run _ _ _ _ _ Hpass). reflexivity.
Qed.

(** ** Random equations *)

Lemma lastChar_snoc (s : string) (c : ascii) :
  lastChar (s ++ String c EmptyString) = Some c.
Proof.
  induction s as [| x s IH]; [reflexivity |].
  simpl. rewrite IH. destruct (s ++ String c EmptyString)%string eqn:E; [| reflexivity].
  destruct s; discriminate.
Qed.

Lemma firstChar_snoc (s : string) (c : ascii) :
  firstChar (s ++ String c EmptyString)
  = Some (default c (firstChar s)).
Proof. destruct s; reflexivity. Qed.

Lemma length_snoc (s : string) (c : ascii) :
  String.length (s ++ String c EmptyString) = S (String.length s).
Proof. induction s as [| x s IH]; simpl; congruence. Qed.

Lemma consecutiveOperators_snoc (s : string) (c : ascii) :
  consecutiveOperators (s ++ String c EmptyString)
  = consecutiveOperators s
    || match lastChar s with
       | Some x => Js.isOperator x && Js.isOperator c
       | None => false
       end.
Proof.
  induction s as [| x s IH]; [reflexivity |].
  destruct s as [| y s].
  - simpl. rewrite orb_false_r. reflexivity.
  - cbn [String.append].
    change (consecutiveOperators (String x (String y (s ++ String c EmptyString))))
      with ((Js.isOperator x && Js.isOperator y)
            || consecutiveOperators (String y (s ++ String c EmptyString))).
    cbn [String.append] in IH. rewrite IH.
    change (consecutiveOperators (String x (String y s)))
      with ((Js.isOperator x && Js.isOperator y) || consecutiveOperators (String y s)).
    change (lastChar (String x (String y s))) with (lastChar (String y s)).
    rewrite orb_assoc. reflexivity.
Qed.

Lemma isDigit_not_operator (c : ascii) :
  Js.isDigit c = true -> Js.isOperator c = false.
Proof.
  intros H. unfold Js.isOperator.
  rewrite !orb_false_iff.
  repeat split; apply Ascii.eqb_neq; intros ->; vm_compute in H; discriminate.
Qed.

Lemma alternating_digit (equation : string) (e : bool) (c : ascii) :
  alternating equation e -> Js.isDigit c = true ->
  alternating (equation ++ String c EmptyString) true.
Proof.
  intros (Hcons & Hfirst & _) Hc. split; [| split].
  - rewrite consecutiveOperators_snoc, Hcons.
    rewrite (isDigit_not_operator c Hc).
    destruct (lastChar equation); [rewrite andb_false_r |]; reflexivity.
  - intros _. rewrite firstChar_snoc.
    destruct equation as [| x s]; [exists c; auto |].
    destruct Hfirst as (y & Hy & Hd); [discriminate |].
    exists y. rewrite Hy. auto.
  - exists c. rewrite lastChar_snoc. auto.
Qed.

Lemma alternating_operator (equation : string) (c : ascii) :
  alternating equation true -> Js.isOperator c = true ->
  alternating (equation ++ String c EmptyString) false.
Proof.
  intros (Hcons & Hfirst & (x & Hx & Hd)) Hc. split; [| split].
  - rewrite consecutiveOperators_snoc, Hcons, Hx.
    rewrite (isDigit_not_operator x Hd). reflexivity.
  - intros _. rewrite firstChar_snoc.
    destruct equation as [| y s]; [discriminate |].
    destruct Hfirst as (z & Hz & Hzd); [discriminate |].
    exists z. rewrite Hz. auto.
  - right. exists c. rewrite lastChar_snoc. auto.
Qed.

Lemma draw_operator (n : nat) :
  exists c, Js.toString (Js.index operators
              (Qfloor (randomSource n * inject_Z (Z.of_nat (length operators)))))
            = String c EmptyString /\ Js.isOperator c = true.
Proof.
  destruct (index_draw operators n) as (c & -> & Hc); [discriminate |].
  exists c. split; [reflexivity | apply operators_spec, Hc].
Qed.

Lemma draw_digit (n : nat) :
  exists c, Js.toString (Js.index digits
              (Qfloor (randomSource n * inject_Z (Z.of_nat (length digits)))))
            = String c EmptyString /\ Js.isDigit c = true.
Proof.
  destruct (index_draw digits n) as (c & -> & Hc); [discriminate |].
  exists c. split; [reflexivity | apply digits_spec, Hc].
Qed.

(** The loop adds one character per iteration and keeps the
    alternation. *)
Lemma equationLoop_alternating (n : nat) (equation : string) (e : bool)
  (this this' : GeneticAlgorithm) (equation' : string) (e' : bool) :
  alternating equation e ->
  equationLoop n equation e this = Normal ((equation', e'), this') ->
  alternating equation' e' /\
  String.length equation' = (String.length equation + n)%nat.
Proof.
  revert equation e this. induction n as [| n IH]; intros equation e this Halt H.
  - injection H as <- <- _. split; [exact Halt | lia].
  - cbn [equationLoop] in H.
    apply bind_Normal in H as (place & s1 & Hplace & H).
    destruct place.
    + assert (He : e = true).
      { destruct e; [reflexivity |]. unfold ret in Hplace. discriminate. }
      subst e.
      rewrite (bind_run _ _ _ _ _ (randomIndex_run _ _)) in H.
      destruct (draw_operator (drawn s1)) as (c & Hc & Hop).
      rewrite Hc in H. apply IH in H as [Halt' Hlen].
      * split; [exact Halt' |]. rewrite Hlen, length_snoc. lia.
      * apply alternating_operator; assumption.
    + rewrite (bind_run _ _ _ _ _ (randomIndex_run _ _)) in H.
      destruct (draw_digit (drawn s1)) as (c & Hc & Hd).
      rewrite Hc in H. apply IH in H as [Halt' Hlen].
      * split; [exact Halt' |]. rewrite Hlen, length_snoc. lia.
      * eapply alternating_digit; eassumption.
Qed.

Lemma alternating_empty : alternating EmptyString false.
Proof.
  split; [reflexivity |]. split; [intros H; congruence | left; reflexivity].
Qed.

(** What holds of every generated equation: it has no two operators
    in a row, it begins with a digit, and its length is between 3 and
    [maxEquationLength] (4 when [maxEquationLength] is 3).  Its last
    character is the digit that the final step appends when the loop
    ended on a digit, and the operator on which the loop ended
    otherwise. *)
Lemma generateRandomEquation_shape (this this' : GeneticAlgorithm) (equation : string) :
  (3 <= maxEquationLength (config this))%Z ->
  generateRandomEquation this = Normal (equation, this') ->
  consecutiveOperators equation = false /\
  (exists c, firstChar equation = Some c /\ Js.isDigit c = true) /\
  (3 <= Z.of_nat (String.length equation)
   <= Z.max 4 (maxEquationLength (config this)))%Z /\
  (exists c, lastChar equation = Some c /\
             (Js.isDigit c = true \/ Js.isOperator c = true)).
Proof.
  intros Hmax H. unfold generateRandomEquation in H.
  erewrite bind_run in H by reflexivity.
  erewrite bind_run in H by apply Math_random_run.
  apply bind_Normal in H as ([eq e] & s1 & Hloop & H).
  apply equationLoop_alternating in Hloop as [Halt Hlen];
    [| apply alternating_empty].
  cbn [String.length Nat.add] in Hlen. cbn [fst snd] in H.
  set (L := Qfloor (randomSource (drawn this)
                    * inject_Z (maxEquationLength (config this) - 3))) in *.
  assert (HL : (0 <= L <= Z.max 0 (maxEquationLength (config this) - 4))%Z).
  { destruct (Z.eq_dec (maxEquationLength (config this)) 3%Z) as [E | E].
    - unfold L. rewrite E. change (3 - 3)%Z with 0%Z.
      rewrite floor_scaled_zero. lia.
    - destruct (random_unit (drawn this)) as [H0 H1].
      assert (Hpos : (0 < maxEquationLength (config this) - 3)%Z) by lia.
      pose proof (floor_scaled_bounds _ _ H0 H1 Hpos) as Hb.
      fold L in Hb. lia. }
  assert (Hne : eq <> EmptyString).
  { intros ->. simpl in Hlen. lia. }
  destruct Halt as (Hcons & Hfirst & Hlast).
  destruct (Hfirst Hne) as (f & Hf & Hfd).
  destruct e.
  - rewrite (bind_run _ _ _ _ _ (randomIndex_run _ _)) in H.
    destruct (draw_digit (drawn s1)) as (c & Hc & Hd).
    rewrite Hc in H. unfold ret in H. apply Normal_value in H as <-.
    split; [| split; [| split]].
    + destruct Hlast as (x & Hx & Hxd).
      rewrite consecutiveOperators_snoc, Hcons, Hx.
      rewrite (isDigit_not_operator c Hd), andb_false_r. reflexivity.
    + exists f. rewrite firstChar_snoc, Hf. auto.
    + rewrite length_snoc, Hlen. lia.
    + exists c. rewrite lastChar_snoc. auto.
  - unfold ret in H. apply Normal_value in H as <-.
    split; [exact Hcons |]. split; [exists f; auto |].
    split; [rewrite Hlen; lia |].
    destruct Hlast as [-> | (x & Hx & Hxo)]; [congruence |].
    exists x. auto.
Qed.

End Draws.
(** C2. With at least one individual and no more elite than
    individuals, the population has [populationSize] members after
    seeding and after every generation transition, and after every
    evaluation pass it is sorted by decreasing fitness, the best
    individual first.  Seeding and the first evaluation pass always
    succeed, and so does every transition when [Math.random] stays in
    [[0, 1)] and the tournaments are not empty. *)
Theorem population_size_and_order (start : GeneticAlgorithm) :
  (1 <= populationSize (config start))%Z ->
  (elitismCount (config start) <= populationSize (config start))%Z ->
  (exists seeded,
      initializePopulation start = Normal (tt, seeded) /\
      Z.of_nat (length (population seeded)) = populationSize (config start)) /\
  (exists first, reachable start first) /\
  (forall this,
      reachable start this ->
      Z.of_nat (length (population this)) = populationSize (config start) /\
      descending (fitnessOf (heap this)) (population this) /\
      exists best,
        population this !! 0%nat = Some best /\
        forall r, r ∈ population this ->
                  fitnessOf (heap this) r <= fitnessOf (heap this) best) /\
  (forall this,
      (forall n, 0 <= randomSource n /\ randomSource n < 1) ->
      (1 <= tournamentSize (config start))%Z ->
      reachable start this ->
      exists this', nextGeneration this = Normal (tt, this')).
Proof.
  intros Hsize _.
  destruct (initializePopulation_total start) as (agents & d & Hlen & _ & Hinit).
  split; [| split; [| split]].
  - eexists. split; [exact Hinit |]. simpl_state. rewrite length_seq. lia.
  - destruct (evaluateFitness_total
                (withPopulation (seq (length (heap start)) (length agents))
                   (withHeap (heap start ++ agents) (withDrawn d start))))
      as [s2 Hev].
    + simpl_state. intros r Hr. apply elem_of_seq in Hr.
      apply lookup_lt_is_Some. rewrite length_app. lia.
    + simpl_state. destruct agents; [simpl in Hlen; lia | discriminate].
    + exists (withGeneration 0 s2). apply reach_seeded.
      rewrite (bind_run _ _ _ _ _ Hinit), (bind_run _ _ _ _ _ Hev). reflexivity.
  - intros this Hreach.
    apply reachable_invariant in Hreach as (Hev & _ & Hlen').
    split; [exact Hlen' |]. split; [apply Hev |].
    apply descending_head; apply Hev.
  - intros this Hrandom Htournament Hreach.
    apply reachable_invariant in Hreach as (Hev & Hc & _).
    apply (nextGeneration_total Hrandom this Hev); rewrite Hc; assumption.
Qed.

(** C6. In a generation transition the fitness at every rank below
    [elitismCount] does not go down, and the elite of the new
    generation are new objects with the fields of the old top
    individuals, which are left as they were. *)
Theorem elitism_non_regression (start this this' : GeneticAlgorithm) :
  reachable start this ->
  nextGeneration this = Normal (tt, this') ->
  (forall (i : nat) (r : ref),
      (Z.of_nat i < elitismCount (config this))%Z ->
      population this !! i = Some r ->
      (exists r', population this' !! i = Some r' /\
                  fitnessOf (heap this) r <= fitnessOf (heap this') r') /\
      (is_Some (heap this !! r) /\
       heap this' !! (length (heap this) + i)%nat = heap this !! r /\
       (length (heap this) + i)%nat ∈ population this' /\
       (length (heap this) + i)%nat ∉ population this)) /\
  (forall r, r ∈ population this -> heap this' !! r = heap this !! r).
Proof.
  intros Hreach Hnext.
  apply reachable_invariant in Hreach as (Hev & _ & _).
  destruct Hev as [Halloc Hscored Hsorted _].
  apply nextGeneration_Normal in Hnext
    as (k & Hk & Hrank & Hev' & Hc & _ & _ & _ & (offspring & Hperm & Hoff)
        & Hold & Hcopy); [| exact Halloc].
  assert (Hcopy' : forall j r, (j < k)%nat -> population this !! j = Some r ->
                               heap this' !! (length (heap this) + j)%nat
                               = heap this !! r).
  { intros j r Hj Hr. rewrite (Hcopy j r Hj Hr).
    assert (Hin : r ∈ population this) by (eapply list_elem_of_lookup_2; exact Hr).
    destruct (Halloc r Hin) as [a Ha]. rewrite Ha. simpl.
    rewrite rescored_of_scored; [reflexivity |]. eapply Hscored; eauto. }
  split.
  - intros i r Hi Hr.
    assert (Hlt : (i < length (population this))%nat)
      by (apply lookup_lt_Some in Hr; exact Hr).
    specialize (Hrank i Hi Hlt).
    assert (Hin : r ∈ population this) by (eapply list_elem_of_lookup_2; exact Hr).
    split.
    + apply (descending_rank (fitnessOf (heap this'))); [apply Hev' |].
      rewrite (filter_length_Permutation _ _ _ Hperm).
      replace k with (S i + (k - S i))%nat by lia.
      rewrite seq_app, <- app_assoc, filter_length_app.
      rewrite filter_length_all; [rewrite length_seq; lia |].
      intros x Hx. apply elem_of_seq in Hx.
      apply Qle_bool_iff.
      assert (Hj : (x - length (heap this) < length (population this))%nat) by lia.
      apply lookup_lt_is_Some in Hj as [rj Hrj].
      assert (Hjk : (x - length (heap this) < k)%nat) by lia.
      assert (Hx' : x = (length (heap this) + (x - length (heap this)))%nat) by lia.
      rewrite Hx'.
      rewrite (fitnessOf_lookup _ _ _ _ (Hcopy' _ rj Hjk Hrj)).
      apply (Hsorted (x - length (heap this))%nat i rj r); [lia | exact Hrj | exact Hr].
    + split; [| split; [| split]].
      * apply Halloc. exact Hin.
      * apply Hcopy'; assumption.
      * rewrite Hperm. apply elem_of_app. left. apply elem_of_seq. lia.
      * intros Hmem. destruct (Halloc _ Hmem) as [a Ha].
        apply lookup_lt_Some in Ha. lia.
  - intros r Hr. apply Hold. destruct (Halloc r Hr) as [a Ha].
    apply lookup_lt_Some in Ha. exact Ha.
Qed.
(** C8, as the code implements it.  The run ends exactly in the
    states where the best fitness is at least 0.99 or the generation
    counter has reached [maxGenerations]; it then yields the first
    individual of the population, the best one, also when the
    generations are used up and also when [maxGenerations] is 0: a
    run that returns never returns [null].  A run with at least one
    individual and tournaments that are not empty does return. *)
Theorem evolve_ends_in_terminal_state (start : GeneticAlgorithm) :
  (forall result final,
      evolve start = Normal (result, final) ->
      terminal final /\
      exists best,
        result = Some best /\
        population final !! 0%nat = Some best /\
        forall r, r ∈ population final ->
                  fitnessOf (heap final) r <= fitnessOf (heap final) best) /\
  (forall this fuel,
      reachable start this -> terminal this ->
      exists best,
        population this !! 0%nat = Some best /\
        generationLoop fuel this = Normal (Some best, this)) /\
  (forall this fuel,
      reachable start this -> ~ terminal this ->
      (maxGenerations (config this) - generation this <= Z.of_nat fuel)%Z ->
      exists k,
        fuel = S k /\
        generationLoop fuel this
        = (nextGeneration;;
           modify (fun this => withGeneration (generation this + 1) this);;
           generationLoop k) this) /\
  ((forall n, 0 <= randomSource n /\ randomSource n < 1) ->
   (1 <= populationSize (config start))%Z ->
   (1 <= tournamentSize (config start))%Z ->
   exists result final, evolve start = Normal (result, final)).
Proof.
  split; [| split; [| split]].
  - intros result final H.
    apply evolve_Normal in H as (seeded & Hreach & Hloop & Hgen).
    apply (generationLoop_Normal start) in Hloop as (Hfinal & Hterm & best & -> & Hbest);
      [| exact Hreach | rewrite Hgen; lia].
    split; [exact Hterm |]. exists best. split; [reflexivity |].
    split; [exact Hbest |].
    apply reachable_invariant in Hfinal as (Hev & _).
    destruct (evaluated_best final Hev) as (best' & b & Hbest' & _ & _ & Hmax).
    rewrite Hbest in Hbest'. injection Hbest' as <-. exact Hmax.
  - intros this fuel Hreach Hterm.
    apply reachable_invariant in Hreach as (Hev & _).
    apply generationLoop_terminal; assumption.
  - intros this fuel Hreach Hterm Hfuel.
    apply reachable_invariant in Hreach as (Hev & _).
    destruct (generationLoop_continue fuel this Hev Hterm Hfuel)
      as (k & Hk & _ & _ & Hstep).
    exists k. auto.
  - intros Hrandom Hpop Htournament. apply evolve_total; assumption.
Qed.
(** C9. With [maxGenerations = 0] and at least one individual, a new
    run returns the best individual of the seeded population, in the
    state that seeding and the first evaluation pass leave, without
    any generation transition; the fitness history then has exactly
    one entry. *)
Theorem evolve_without_generations (cfg : PartialConfig) :
  maxGenerations (spread DEFAULT_CONFIG cfg) = 0%Z ->
  (1 <= populationSize (spread DEFAULT_CONFIG cfg))%Z ->
  exists best seeded,
    (initializePopulation;; evaluateFitness) (constructor cfg)
    = Normal (tt, seeded) /\
    evolve (constructor cfg) = Normal (Some best, seeded) /\
    population seeded !! 0%nat = Some best /\
    (forall r, r ∈ population seeded ->
               fitnessOf (heap seeded) r <= fitnessOf (heap seeded) best) /\
    Z.of_nat (length (population seeded)) = populationSize (spread DEFAULT_CONFIG cfg) /\
    generation seeded = 0%Z /\
    length (getFitnessHistory seeded) = 1%nat.
Proof.
  intros Hmax Hsize.
  destruct (evolve_zero_generations (constructor cfg) Hmax Hsize)
    as (best & seeded & Hseed & Hrun & Hbest & Hbound & Hg & Hh).
  exists best, seeded.
  assert (Hid : withGeneration 0 seeded = seeded).
  { rewrite <- (withGeneration_id seeded) at 2. rewrite Hg. reflexivity. }
  rewrite Hid in Hrun. repeat split; auto.
  assert (Hreach : reachable (constructor cfg) seeded).
  { apply reach_seeded. apply bind_Normal in Hseed as ([] & s1 & Hinit & Hpass).
    rewrite (bind_run _ _ _ _ _ Hinit), (bind_run _ _ _ _ _ Hpass).
    unfold modify. rewrite Hid. reflexivity. }
  apply reachable_invariant in Hreach as (_ & _ & Hlen). exact Hlen.
Qed.

(** C10, as the code implements it.  The constructor checks nothing:
    it stores the defaults overridden by the given fields, whatever
    their values, and no configuration is refused.  A run on it
    starts by seeding [populationSize] individuals; seeding and the
    first evaluation pass succeed when there is at least one
    individual, and the run throws a [TypeError] when there is none.
    With at least one individual and tournaments that are not empty
    the run returns, whatever the elitism count and the rates. *)
Theorem constructor_accepts_every_configuration (cfg : PartialConfig) :
  config (constructor cfg) = spread DEFAULT_CONFIG cfg /\
  population (constructor cfg) = [] /\
  generation (constructor cfg) = 0%Z /\
  bestFitnessHistory (constructor cfg) = [] /\
  (exists seeded,
      initializePopulation (constructor cfg) = Normal (tt, seeded) /\
      length (population seeded)
      = Z.to_nat (populationSize (spread DEFAULT_CONFIG cfg))) /\
  ((1 <= populationSize (spread DEFAULT_CONFIG cfg))%Z ->
   exists first,
     (initializePopulation;; evaluateFitness) (constructor cfg)
     = Normal (tt, first)) /\
  ((populationSize (spread DEFAULT_CONFIG cfg) <= 0)%Z ->
   evolve (constructor cfg) = TypeError) /\
  ((forall n, 0 <= randomSource n /\ randomSource n < 1) ->
   (1 <= populationSize (spread DEFAULT_CONFIG cfg))%Z ->
   (1 <= tournamentSize (spread DEFAULT_CONFIG cfg))%Z ->
   exists result final, evolve (constructor cfg) = Normal (result, final)).
Proof.
  repeat split.
  - destruct (initializePopulation_total (constructor cfg))
      as (agents & d & Hlen & _ & Hinit).
    eexists. split; [exact Hinit |]. simpl_state. rewrite length_seq. exact Hlen.
  - intros Hsize.
    destruct (seeding_total (constructor cfg) Hsize) as (seeded & Hseed & _).
    exists seeded. exact Hseed.
  - intros Hsize. pose proof (seeding_empty (constructor cfg) Hsize) as Hthrow.
    unfold evolve. unfold bind in Hthrow |- *.
    destruct (initializePopulation (constructor cfg)) as [[[] s1] |]; [| reflexivity].
    rewrite Hthrow. reflexivity.
  - intros Hrandom Hpop Htournament. apply evolve_total; assumption.
Qed.

(** * Further properties of the evaluator *)

Lemma keep_keep (f g : ascii -> bool) (s : string) :
  Js.keep f (Js.keep g s) = Js.keep (fun c => g c && f c) s.
Proof.
  induction s as [| c s IH]; [reflexivity |].
  simpl. destruct (g c); simpl; [| exact IH].
  destruct (f c); simpl; congruence.
Qed.

Lemma keep_ext (f g : ascii -> bool) (s : string) :
  (forall c, f c = g c) -> Js.keep f s = Js.keep g s.
Proof.
  intros Hfg. induction s as [| c s IH]; [reflexivity |].
  simpl. rewrite Hfg, IH. reflexivity.
Qed.

Lemma keep_elem_of (f : ascii -> bool) (s : string) (c : ascii) :
  c ∈ list_ascii_of_string (Js.keep f s) <->
  f c = true /\ c ∈ list_ascii_of_string s.
Proof.
  induction s as [| x s IH]; simpl.
  - split; [intros H; apply elem_of_nil in H; contradiction |].
    intros [_ H]. exact H.
  - destruct (f x) eqn:E; simpl; rewrite ?elem_of_cons, IH.
    + split.
      * intros [-> | [Hc Hin]]; auto.
      * intros [Hc [-> | Hin]]; auto.
    + split.
      * intros [Hc Hin]; auto.
      * intros [Hc [-> | Hin]]; [congruence | auto].
Qed.

Lemma keep_all (f : ascii -> bool) (s : string) :
  (forall c, c ∈ list_ascii_of_string s -> f c = true) -> Js.keep f s = s.
Proof.
  induction s as [| x s IH]; intros H; [reflexivity |].
  simpl. rewrite (H x) by apply list_elem_of_here.
  rewrite IH; [reflexivity |].
  intros c Hc. apply H. simpl. apply list_elem_of_further, Hc.
Qed.

Lemma expressionChar_allowed (c : ascii) :
  allowedChar c && negb (Js.isSpace c) = expressionChar c.
Proof. destruct c as [[] [] [] [] [] [] [] []]; reflexivity. Qed.

Lemma cleanExpression_expressionChar (expr : string) :
  cleanExpression expr = Js.keep expressionChar expr.
Proof.
  rewrite cleanExpression_keep, keep_keep.
  apply keep_ext, expressionChar_allowed.
Qed.

Lemma expressionChar_not_space (c : ascii) :
  expressionChar c = true -> Js.isSpace c = false.
Proof. destruct c as [[] [] [] [] [] [] [] []]; vm_compute; congruence. Qed.

(** X1.  Cleaning is one filter and nothing more: the cleaned string
    is made of the characters of the input that are digits, operators,
    parentheses or dots, in their order; trimming never removes
    anything; cleaning a cleaned string changes nothing; and no
    character of the result is white space or foreign to the input. *)
Theorem cleanExpression_filter (expr : string) :
  cleanExpression expr = Js.keep expressionChar expr /\
  cleanExpression (cleanExpression expr) = cleanExpression expr /\
  (forall c, c ∈ list_ascii_of_string (cleanExpression expr) ->
             expressionChar c = true /\ Js.isSpace c = false /\
             c ∈ list_ascii_of_string expr).
Proof.
  split; [apply cleanExpression_expressionChar |]. split.
  - rewrite !cleanExpression_expressionChar, keep_keep.
    apply keep_ext. intros c. destruct (expressionChar c); reflexivity.
  - intros c Hc. rewrite cleanExpression_expressionChar in Hc.
    apply keep_elem_of in Hc as [Hc Hin].
    auto using expressionChar_not_space.
Qed.

(** X2.  The evaluator reads only the digits, operators, parentheses
    and dots of its argument: two strings that agree on those
    characters are evaluated alike, so that white space and letters
    inside an expression are skipped, also between two digits. *)
Theorem evaluate_ignores_other_characters (e e' : string) :
  Js.keep expressionChar e = Js.keep expressionChar e' ->
  evaluate parser e = evaluate parser e'.
Proof.
  intros H. unfold evaluate.
  rewrite !cleanExpression_expressionChar, H. reflexivity.
Qed.

Lemma depth_app (l l' : list ascii) : depth (l ++ l') = (depth l + depth l')%Z.
Proof. induction l as [| c l IH]; simpl; [reflexivity | lia]. Qed.

Lemma balanceLoop_Some (expr : string) (balance balance' : Z) :
  (0 <= balance)%Z ->
  balanceLoop balance expr = Some balance' <->
  (forall n, 0 <= balance + depth (take n (list_ascii_of_string expr)))%Z /\
  balance' = (balance + depth (list_ascii_of_string expr))%Z.
Proof.
  revert balance. induction expr as [| c s IH]; intros balance Hb; simpl.
  - split.
    + intros H. injection H as <-. split; [| lia].
      intros n. rewrite take_nil. simpl. lia.
    + intros [_ ->]. f_equal. lia.
  - set (b2 := (if (c =? ")")%char
                then (if (c =? "(")%char then balance + 1 else balance) - 1
                else if (c =? "(")%char then balance + 1 else balance)%Z).
    assert (Eb2 : (b2 = balance + ((if (c =? "(")%char then 1 else 0)
                                   - (if (c =? ")")%char then 1 else 0)))%Z).
    { unfold b2. destruct (c =? "(")%char, (c =? ")")%char; lia. }
    destruct (b2 <? 0)%Z eqn:E.
    + apply Z.ltb_lt in E. split; [discriminate |].
      intros [Hpre _]. specialize (Hpre 1%nat). simpl in Hpre.
      destruct (c =? "(")%char, (c =? ")")%char; lia.
    + apply Z.ltb_ge in E. rewrite (IH b2 E). split.
      * intros [Hpre ->]. split; [| lia].
        intros [| n]; simpl; [lia |]. specialize (Hpre n).
        destruct (c =? "(")%char, (c =? ")")%char; lia.
      * intros [Hpre ->]. split; [| lia].
        intros n. specialize (Hpre (S n)). simpl in Hpre.
        destruct (c =? "(")%char, (c =? ")")%char; lia.
Qed.

(** X3.  The validity check accepts exactly the strings that are not
    empty, whose parentheses are balanced (no prefix closes more than
    it opens, and the whole string opens as many as it closes) and
    that have no two operators in a row. *)
Theorem isValidExpression_spec (expr : string) :
  isValidExpression expr = true <->
  expr <> EmptyString /\
  (forall n, (0 <= depth (take n (list_ascii_of_string expr)))%Z) /\
  depth (list_ascii_of_string expr) = 0%Z /\
  consecutiveOperators expr = false.
Proof.
  unfold isValidExpression.
  destruct expr as [| c s]; [simpl; split; [discriminate | intros [H _]; congruence] |].
  change (String.length (String c s) =? 0)%nat with false. cbv iota.
  destruct (balanceLoop 0 (String c s)) as [balance |] eqn:E.
  - apply balanceLoop_Some in E as [Hpre ->]; [| lia].
    destruct (0 + depth (list_ascii_of_string (String c s)) =? 0)%Z eqn:E0; cbn [negb].
    + apply Z.eqb_eq in E0.
      destruct (consecutiveOperators (String c s)) eqn:Ec.
      * split; [discriminate | intros (_ & _ & _ & H); discriminate].
      * split; [| reflexivity]. intros _. repeat split; [discriminate | | lia].
        intros n. specialize (Hpre n). lia.
    + apply Z.eqb_neq in E0. split; [discriminate |].
      intros (_ & _ & H & _). lia.
  - split; [discriminate |]. intros (_ & Hpre & Hbal & _). exfalso.
    assert (H : balanceLoop 0 (String c s)
                = Some (0 + depth (list_ascii_of_string (String c s)))%Z).
    { apply balanceLoop_Some; [lia |]. split; [| reflexivity].
      intros n. specialize (Hpre n). lia. }
    congruence.
Qed.

(** X4.  The parser is consulted only on strings that have passed the
    validity check and that hold nothing but digits, operators,
    parentheses and dots: two parsers that agree on those strings
    give the same evaluator. *)
Theorem evaluate_guards_parser (other : string -> option Q) (expression : string) :
  (forall s, isValidExpression s = true ->
             (forall c, c ∈ list_ascii_of_string s -> expressionChar c = true) ->
             parser s = other s) ->
  evaluate parser expression = evaluate other expression.
Proof.
  intros Hagree. unfold evaluate.
  destruct (isValidExpression (cleanExpression expression)) eqn:E; [| reflexivity].
  cbn [negb]. apply Hagree; [exact E |].
  intros c Hc. rewrite cleanExpression_expressionChar in Hc.
  apply keep_elem_of in Hc as [Hc _]. exact Hc.
Qed.

(** ** The convergence test *)



(** * Further properties of the genetic algorithm *)

(** ** Tournaments *)

Lemma withDrawn_withDrawn (a b : nat) (this : GeneticAlgorithm) :
  withDrawn a (withDrawn b this) = withDrawn a this.
Proof. reflexivity. Qed.

(** The contestants are read off the population at the indices drawn,
    one draw for each. *)
Lemma tournamentLoop_picks (n : nat) (t t' : list ref) (this this' : GeneticAlgorithm) :
  tournamentLoop n t this = Normal (t', this') ->
  this' = withDrawn (drawn this + n) this /\
  exists picks,
    t' = t ++ picks /\ length picks = n /\
    forall i r, picks !! i = Some r ->
      Js.index (population this)
        (Qfloor (randomSource (drawn this + i)
                 * inject_Z (Z.of_nat (length (population this))))) = Some r.
Proof.
  revert t this. induction n as [| n IH]; intros t this H.
  - injection H as <- <-. split.
    + rewrite Nat.add_0_r. symmetry. apply withDrawn_id.
    + exists []. split; [rewrite app_nil_r; reflexivity |].
      split; [reflexivity |]. intros i r Hi. discriminate.
  - simpl in H. run_inv H. run_basic Hrun.
    rewrite randomIndex_run in Hrun0. injection Hrun0 as <- <-.
    apply element_Normal in Hrun1 as [Hidx ->].
    apply IH in H as (-> & picks & -> & Hlen & Hpicks). simpl_state. split.
    + rewrite withDrawn_withDrawn. f_equal. lia.
    + exists (v1 :: picks). split; [rewrite <- app_assoc; reflexivity |].
      split; [simpl; congruence |].
      intros [| i] r Hi; simpl in Hi.
      * injection Hi as <-. rewrite Nat.add_0_r. exact Hidx.
      * replace (drawn st + S i)%nat with (S (drawn st) + i)%nat by lia.
        apply Hpicks. exact Hi.
Qed.

(** The reduction keeps the first contestant of maximal fitness. *)
Lemma foldl_first_maximum {A} (key : A -> Q) (first : A) (rest : list A) :
  exists i,
    (first :: rest) !! i
    = Some (foldl (fun best current =>
                     if Qgtb (key current) (key best) then current else best)
              first rest) /\
    (forall j x, (first :: rest) !! j = Some x ->
       key x <= key (foldl (fun best current =>
                              if Qgtb (key current) (key best) then current else best)
                       first rest)) /\
    (forall j x, (j < i)%nat -> (first :: rest) !! j = Some x ->
       key x < key (foldl (fun best current =>
                             if Qgtb (key current) (key best) then current else best)
                      first rest)).
Proof.
  induction rest as [| x rest IH] using rev_ind.
  - exists 0%nat. simpl. split; [reflexivity |]. split.
    + intros [| j] y Hy; [| discriminate]. injection Hy as <-. apply Qle_refl.
    + intros j y Hj. lia.
  - rewrite foldl_app. simpl.
    destruct IH as (i & Hi & Hmax & Hfirst).
    set (best := foldl (fun best current =>
                          if Qgtb (key current) (key best) then current else best)
                   first rest) in *.
    assert (Hsplit : forall j y, (first :: rest ++ [x]) !! j = Some y ->
              (first :: rest) !! j = Some y \/ (j = S (length rest) /\ y = x)).
    { intros j y Hy. rewrite app_comm_cons in Hy.
      apply lookup_app_Some in Hy as [Hy | [Hlen Hy]]; [left; exact Hy | right].
      simpl in Hlen, Hy.
      destruct (j - S (length rest))%nat as [| m] eqn:Em; [| discriminate].
      injection Hy as <-. split; [lia | reflexivity]. }
    destruct (Qgtb (key x) (key best)) eqn:E.
    + apply Qgtb_true in E. exists (S (length rest)). split.
      * rewrite app_comm_cons. rewrite lookup_app_r by (simpl; lia).
        simpl. rewrite Nat.sub_diag. reflexivity.
      * split.
        -- intros j y Hy. apply Hsplit in Hy as [Hy | [_ ->]]; [| apply Qle_refl].
           specialize (Hmax j y Hy). lra.
        -- intros j y Hj Hy. apply Hsplit in Hy as [Hy | [-> _]]; [| lia].
           specialize (Hmax j y Hy). lra.
    + apply Qgtb_false in E. exists i. split.
      * rewrite app_comm_cons. apply lookup_app_l_Some. exact Hi.
      * split.
        -- intros j y Hy. apply Hsplit in Hy as [Hy | [_ ->]]; [| exact E].
           exact (Hmax j y Hy).
        -- intros j y Hj Hy. apply Hsplit in Hy as [Hy | [-> _]].
           ++ exact (Hfirst j y Hj Hy).
           ++ apply lookup_lt_Some in Hi. simpl in Hi. lia.
Qed.

(** X6.  A tournament that returns has drawn [tournamentSize]
    numbers, one for each contestant, and changed nothing else; each
    contestant is the member of the population at the index drawn;
    the winner is a contestant, no contestant is fitter, and among
    the contestants of equal fitness it is the one drawn first. *)
Theorem tournamentSelection_winner (this this' : GeneticAlgorithm) (winner : ref) :
  tournamentSelection this = Normal (winner, this') ->
  exists tournament : list ref,
    length tournament = Z.to_nat (tournamentSize (config this)) /\
    (1 <= length tournament)%nat /\
    (forall i r, tournament !! i = Some r ->
       Js.index (population this)
         (Qfloor (randomSource (drawn this + i)
                  * inject_Z (Z.of_nat (length (population this))))) = Some r) /\
    (exists i,
        tournament !! i = Some winner /\
        (forall j x, tournament !! j = Some x ->
                     fitnessOf (heap this) x <= fitnessOf (heap this) winner) /\
        (forall j x, (j < i)%nat -> tournament !! j = Some x ->
                     fitnessOf (heap this) x < fitnessOf (heap this) winner)) /\
    this' = withDrawn (drawn this + length tournament) this.
Proof.
  unfold tournamentSelection. intros H. run_inv H. run_basic Hrun.
  apply tournamentLoop_picks in Hrun0 as (-> & picks & -> & Hlen & Hpicks).
  simpl in H. destruct picks as [| first rest]; [discriminate |].
  unfold reduceBest, bind, get, ret in H. simpl_state. injection H as <- <-.
  exists (first :: rest). split; [exact Hlen |]. split; [simpl; lia |].
  split; [exact Hpicks |]. split; [| rewrite Hlen; reflexivity].
  apply (foldl_first_maximum (fitnessOf (heap st))).
Qed.

(** ** The shape of a generation transition *)

Lemma slice0_length {A} (l : list A) (to : Z) :
  Z.of_nat (length (Js.slice0 l to))
  = if (to <? 0)%Z then Z.max (Z.of_nat (length l) + to) 0
    else Z.min to (Z.of_nat (length l)).
Proof.
  unfold Js.slice0. rewrite length_take.
  destruct (to <? 0)%Z eqn:E; [apply Z.ltb_lt in E | apply Z.ltb_ge in E]; lia.
Qed.

(** The number of elite individuals. *)
Lemma selectElite_exact (this : GeneticAlgorithm) :
  (forall r, r ∈ population this -> is_Some (heap this !! r)) ->
  exists agents,
    length agents
    = length (Js.slice0 (population this) (elitismCount (config this))) /\
    (forall j r, (j < length agents)%nat -> population this !! j = Some r ->
                 agents !! j = heap this !! r) /\
    selectElite this
    = Normal (seq (length (heap this)) (length agents),
              withHeap (heap this ++ agents) this).
Proof.
  intros Hall.
  destruct (selectElite_run this Hall) as (k & agents & Hk & _ & Hlen & Hagents & Hsel).
  exists agents. rewrite Hlen. split; [| split; [exact Hagents | exact Hsel]].
  unfold selectElite in Hsel. rewrite (bind_run get _ this this this) in Hsel
    by reflexivity.
  destruct (mapM_cloneAgent_run
              (Js.slice0 (population this) (elitismCount (config this))) this)
    as (agents' & Hlen' & _ & Hrun).
  { intros r Hr. apply Hall. unfold Js.slice0 in Hr.
    apply list_elem_of_lookup_1 in Hr as [j Hj].
    apply lookup_take_Some in Hj as [Hj _]. eapply list_elem_of_lookup_2; exact Hj. }
  rewrite Hrun in Hsel. injection Hsel as Hseq _.
  apply (f_equal length) in Hseq. rewrite !length_seq in Hseq. lia.
Qed.

(** A generation transition, step by step: the elite, the offspring,
    and the evaluation pass on the new population. *)
Lemma nextGeneration_steps (this this' : GeneticAlgorithm) :
  (forall r, r ∈ population this -> is_Some (heap this !! r)) ->
  nextGeneration this = Normal (tt, this') ->
  exists agents offspring filled,
    length agents
    = length (Js.slice0 (population this) (elitismCount (config this))) /\
    (forall j r, (j < length agents)%nat -> population this !! j = Some r ->
                 agents !! j = heap this !! r) /\
    offspringLoop (Z.to_nat (populationSize (config this)))
      (seq (length (heap this)) (length agents))
      (withHeap (heap this ++ agents) this)
    = Normal (seq (length (heap this)) (length agents) ++ offspring, filled) /\
    evaluateFitness
      (withPopulation (seq (length (heap this)) (length agents) ++ offspring) filled)
    = Normal (tt, this').
Proof.
  intros Hall H. unfold nextGeneration in H.
  destruct (selectElite_exact this Hall) as (agents & Hlen & Hagents & Hsel).
  rewrite (bind_run _ _ _ _ _ Hsel) in H.
  erewrite bind_run in H by reflexivity. simpl_state.
  apply bind_Normal in H as (newPopulation & filled & Hloop & H).
  apply bind_Normal in H as ([] & s3 & Hmod & H).
  unfold modify in Hmod. injection Hmod as <-.
  pose proof Hloop as Hloop'.
  apply offspringLoop_Normal in Hloop' as (_ & offspring & -> & _).
  exists agents, offspring, filled. auto.
Qed.

(** ** Evaluation passes on a population that is already evaluated *)

Lemma withHeap_id (this : GeneticAlgorithm) : withHeap (heap this) this = this.
Proof. destruct this. reflexivity. Qed.

Lemma withPopulation_id (this : GeneticAlgorithm) :
  withPopulation (population this) this = this.
Proof. destruct this. reflexivity. Qed.

Lemma rescore_scored (agent : ref) (this : GeneticAlgorithm) (a : Agent) :
  heap this !! agent = Some a -> scored (config this) a ->
  rescore agent this = Normal (tt, this).
Proof.
  intros Ha Hs. rewrite (rescore_run _ _ _ Ha), (rescored_of_scored _ _ Hs).
  rewrite list_insert_id by exact Ha. rewrite withHeap_id. reflexivity.
Qed.

Lemma forEach_rescore_scored (l : list ref) (this : GeneticAlgorithm) :
  (forall r, r ∈ l -> exists a, heap this !! r = Some a /\ scored (config this) a) ->
  forEach rescore l this = Normal (tt, this).
Proof.
  induction l as [| x l IH]; intros Hall; [reflexivity |].
  destruct (Hall x) as (a & Ha & Hs); [apply list_elem_of_here |].
  simpl. rewrite (bind_run _ _ _ _ _ (rescore_scored _ _ _ Ha Hs)).
  apply IH. intros r Hr. apply Hall, list_elem_of_further, Hr.
Qed.

Lemma sortInsert_head {A} (key : A -> Q) (x : A) (l : list A) :
  (forall y, y ∈ l -> key y <= key x) ->
  Js.sortInsert (fun a b => key b - key a) x l = x :: l.
Proof.
  intros Hx. destruct l as [| y l]; [reflexivity |]. simpl.
  assert (H : Qle_bool (key y - key x) 0 = true).
  { apply Qle_bool_iff. specialize (Hx y (list_elem_of_here _ _)). lra. }
  rewrite H. reflexivity.
Qed.

(** Sorting an array that is sorted returns it as it is. *)
Lemma sort_descending_id {A} (key : A -> Q) (l : list A) :
  descending key l -> Js.sort (fun a b => key b - key a) l = l.
Proof.
  induction l as [| x l IH]; intros Hl; [reflexivity |].
  apply descending_cons in Hl as [Hx Hl]. simpl.
  rewrite (IH Hl). apply sortInsert_head, Hx.
Qed.

(** On an evaluated state an evaluation pass only repeats the best
    fitness in the history. *)
Lemma evaluateFitness_fixed (this : GeneticAlgorithm) :
  evaluated this ->
  exists best,
    population this !! 0%nat = Some best /\
    evaluateFitness this
    = Normal (tt, withHistory
                    (bestFitnessHistory this ++ [fitnessOf (heap this) best]) this).
Proof.
  intros Hev. destruct (evaluated_best this Hev) as (best & b & Hbest & Hb & Hfit & _).
  destruct Hev as [Halloc Hscored Hsorted Hne].
  exists best. split; [exact Hbest |].
  unfold evaluateFitness.
  rewrite (bind_run get _ this this this) by reflexivity.
  rewrite (bind_run (forEach rescore (population this)) _ this this tt).
  2:{ apply forEach_rescore_scored. intros r Hr.
      destruct (Halloc r Hr) as [a Ha]. exists a. split; [exact Ha |].
      exact (Hscored r a Hr Ha). }
  rewrite (bind_run (modify _) _ this this tt).
  2:{ unfold modify. rewrite (sort_descending_id _ _ Hsorted), withPopulation_id.
      reflexivity. }
  rewrite (bind_run get _ this this this) by reflexivity.
  rewrite (bind_run (element (population this) 0) _ this this best).
  2:{ unfold element.
      change (Js.index (population this) 0) with (population this !! 0%nat).
      rewrite Hbest. reflexivity. }
  rewrite (bind_run (load best) _ this this b).
  2:{ unfold load. rewrite Hb. reflexivity. }
  unfold modify. rewrite Hfit. reflexivity.
Qed.

(** What an evaluation pass adds to the history. *)
Lemma evaluateFitness_history (this this' : GeneticAlgorithm) :
  evaluateFitness this = Normal (tt, this') ->
  exists best,
    population this' !! 0%nat = Some best /\
    bestFitnessHistory this'
    = bestFitnessHistory this ++ [fitnessOf (heap this') best] /\
    0 < fitnessOf (heap this') best /\ fitnessOf (heap this') best <= 1.
Proof.
  intros H. pose proof (evaluateFitness_evaluated _ _ H) as (Hev & _).
  apply evaluateFitness_Normal in H as (_ & h' & best & _ & _ & _ & Hbest & ->).
  simpl_state. exists best. split; [exact Hbest |]. split; [reflexivity |].
  destruct Hev as [Halloc Hscored _ _]. simpl_state.
  assert (Hin : best ∈ Js.sort (fun a b => fitnessOf h' b - fitnessOf h' a)
                         (population this))
    by (eapply list_elem_of_lookup_2; exact Hbest).
  destruct (Halloc best Hin) as [b Hb].
  destruct (Hscored best b Hin Hb) as [_ Hfit].
  unfold fitnessOf. rewrite Hb, Hfit. apply calculateFitness_range.
Qed.

(** X8.  Two evaluation passes in a row: the second one changes no
    individual and no rank, and adds to the history the entry that
    the first one added. *)
Theorem evaluateFitness_twice (this first : GeneticAlgorithm) :
  evaluateFitness this = Normal (tt, first) ->
  exists (best : ref) (f : Q),
    population first !! 0%nat = Some best /\
    f = fitnessOf (heap first) best /\
    bestFitnessHistory first = bestFitnessHistory this ++ [f] /\
    evaluateFitness first
    = Normal (tt, withHistory (bestFitnessHistory first ++ [f]) first).
Proof.
  intros H. pose proof (evaluateFitness_evaluated _ _ H) as (Hev & _).
  destruct (evaluateFitness_history _ _ H) as (best & Hbest & Hhist & _).
  destruct (evaluateFitness_fixed first Hev) as (best' & Hbest' & Hrun).
  assert (best' = best) as -> by congruence.
  exists best, (fitnessOf (heap first) best). auto.
Qed.

(** ** Tournaments without contestants *)

Lemma tournamentSelection_empty (this : GeneticAlgorithm) :
  (tournamentSize (config this) <= 0)%Z -> tournamentSelection this = TypeError.
Proof.
  intros H. unfold tournamentSelection, bind, get.
  replace (Z.to_nat (tournamentSize (config this))) with 0%nat by lia.
  reflexivity.
Qed.

(** X7.  With [tournamentSize] zero or negative the reduction of the
    empty tournament throws: at every head of the loop, when the
    elite do not fill the population, the generation transition
    throws a [TypeError], and so does the run unless that state ends
    it. *)
Theorem tournament_without_contestants (start this : GeneticAlgorithm) (fuel : nat) :
  reachable start this ->
  (tournamentSize (config start) <= 0)%Z ->
  (elitismCount (config start) < populationSize (config start))%Z ->
  tournamentSelection this = TypeError /\
  nextGeneration this = TypeError /\
  ((generation this <? maxGenerations (config this))%Z = true ->
   (best <- getBestAgent;; converged best) this = Normal (false, this) ->
   generationLoop (S fuel) this = TypeError).
Proof.
  intros Hreach Hsize Helite.
  destruct (reachable_invariant _ _ Hreach) as (Hev & Hc & Hlen).
  assert (Hthrow : nextGeneration this = TypeError).
  { destruct (selectElite_exact this (eval_allocated _ Hev))
      as (agents & Hagents & _ & Hsel).
    unfold nextGeneration. rewrite (bind_run _ _ _ _ _ Hsel).
    rewrite (bind_run get _ _ _ _ eq_refl). simpl_state.
    assert (Hk : (Z.of_nat (length agents) < populationSize (config this))%Z).
    { rewrite Hagents, slice0_length, Hc.
      assert (Hne : length (population this) <> 0%nat)
        by (destruct Hev as [_ _ _ Hne], (population this); [congruence | discriminate]).
      destruct (elitismCount (config start) <? 0)%Z eqn:E;
        [apply Z.ltb_lt in E | apply Z.ltb_ge in E]; lia. }
    destruct (Z.to_nat (populationSize (config this))) as [| k] eqn:Ek; [lia |].
    unfold bind at 1. simpl. unfold bind at 1, get at 1. simpl_state.
    rewrite length_seq.
    apply Z.ltb_lt in Hk. rewrite Hk.
    unfold bind at 1, makeOffspring at 1, bind at 1.
    rewrite tournamentSelection_empty by (simpl_state; rewrite Hc; exact Hsize).
    reflexivity. }
  split; [apply tournamentSelection_empty; rewrite Hc; exact Hsize |].
  split; [exact Hthrow |].
  intros Hgen Hbest. simpl. unfold bind at 1, get at 1. rewrite Hgen.
  apply bind_Normal in Hbest as (best & s & Hget & Hconv).
  rewrite (bind_run _ _ _ _ _ Hget).
  assert (s = this) as ->.
  { unfold getBestAgent, bind, get in Hget.
    destruct (length (population this) =? 0)%nat; [injection Hget as _ <-; reflexivity |].
    destruct (element (population this) 0 this) as [[r s'] |] eqn:E; [| discriminate].
    apply element_Normal in E as [_ ->]. injection Hget as _ <-. reflexivity. }
  rewrite (bind_run _ _ _ _ _ Hconv). cbv iota.
  unfold bind at 1. rewrite Hthrow. reflexivity.
Qed.

(** ** The fitness history *)

Lemma ascending_snoc (l : list Q) (x f : Q) :
  ascending l -> last l = Some x -> x <= f -> ascending (l ++ [f]).
Proof.
  intros Hl Hlast Hx i j a b Hij Ha Hb.
  apply lookup_app_Some in Hb as [Hb | [Hj Hb]].
  - rewrite lookup_app_l in Ha by (apply lookup_lt_Some in Hb; lia).
    exact (Hl i j a b Hij Ha Hb).
  - destruct (j - length l)%nat as [| m] eqn:Em; [| discriminate].
    injection Hb as <-.
    apply lookup_app_Some in Ha as [Ha | [Hi Ha]].
    + rewrite last_lookup in Hlast.
      assert (Hle : a <= x).
      { apply (Hl i (pred (length l)) a x); [| exact Ha | exact Hlast].
        apply lookup_lt_Some in Ha. lia. }
      lra.
    + destruct (i - length l)%nat as [| m] eqn:Em'; [| discriminate].
      injection Ha as <-. apply Qle_refl.
Qed.

(** The history of a run, generation by generation. *)
Lemma reachable_history (start this : GeneticAlgorithm) :
  reachable start this ->
  exists (added : list Q) (best : ref),
    bestFitnessHistory this = bestFitnessHistory start ++ added /\
    Z.of_nat (length added) = (generation this + 1)%Z /\
    (forall f, f ∈ added -> 0 < f /\ f <= 1) /\
    population this !! 0%nat = Some best /\
    last added = Some (fitnessOf (heap this) best) /\
    (0 <= generation this)%Z /\
    (generation this <= Z.max 0 (maxGenerations (config start)))%Z /\
    ((1 <= elitismCount (config start))%Z -> ascending added).
Proof.
  induction 1 as [this Hseed | this this' Hreach IH Hgen _ Hnext].
  - destruct (initializePopulation_total start) as (agents & d & _ & _ & Hinit).
    rewrite (bind_run _ _ _ _ _ Hinit) in Hseed.
    apply bind_Normal in Hseed as ([] & s2 & Hev & H).
    unfold modify in H. injection H as <-.
    apply evaluateFitness_history in Hev as (best & Hbest & Hhist & Hpos & Hle).
    simpl_state.
    exists [fitnessOf (heap s2) best], best.
    split; [exact Hhist |]. split; [reflexivity |]. split.
    { intros f Hf. apply list_elem_of_singleton in Hf as ->. auto. }
    split; [exact Hbest |]. split; [reflexivity |].
    split; [lia |]. split; [lia |].
    intros _ i j x y Hij Hx Hy.
    destruct i; [| discriminate]. destruct j; [| discriminate].
    simpl in Hx, Hy. injection Hx as <-. injection Hy as <-. apply Qle_refl.
  - destruct IH as (added & best & Hhist & Hlen & Hrange & Hbest & Hlast
                    & Hg0 & Hgmax & Hasc).
    destruct (reachable_invariant _ _ Hreach) as (Hev & Hc & Hpop).
    apply Z.ltb_lt in Hgen. rewrite Hc in Hgen.
    apply bind_Normal in Hnext as ([] & s1 & Hnext & Hmod).
    unfold modify in Hmod. injection Hmod as <-.
    pose proof (nextGeneration_Normal _ _ (eval_allocated _ Hev) Hnext)
      as (k & _ & Hrank & Hev' & _ & Hg' & _ & _ & (offspring & Hperm & _)
          & _ & Hcopy).
    destruct (nextGeneration_steps _ _ (eval_allocated _ Hev) Hnext)
      as (agents & offspring' & filled & _ & _ & Hloop & Heval).
    apply offspringLoop_Normal in Hloop as (Hext & _).
    apply evaluateFitness_history in Heval as (best' & Hbest' & Hhist' & Hpos & Hle).
    destruct Hext as [_ _ _ Hh _ _]. simpl_state. rewrite Hh in Hhist'.
    exists (added ++ [fitnessOf (heap s1) best']), best'.
    split; [rewrite Hhist', Hhist, app_assoc; reflexivity |].
    split; [rewrite length_app; simpl; lia |].
    split.
    { intros f Hf. apply elem_of_app in Hf as [Hf | Hf]; [auto |].
      apply list_elem_of_singleton in Hf as ->. auto. }
    split; [exact Hbest' |]. split; [apply last_snoc |].
    split; [lia |]. split; [lia |].
    intros Helite. apply (ascending_snoc _ (fitnessOf (heap this) best));
      [auto | exact Hlast |].
    assert (H0 : (0 < k)%nat).
    { apply (Hrank 0%nat); [rewrite Hc; simpl; lia |].
      apply lookup_lt_Some in Hbest. exact Hbest. }
    specialize (Hcopy 0%nat best H0 Hbest). rewrite Nat.add_0_r in Hcopy.
    destruct (eval_allocated _ Hev best) as [b Hb];
      [eapply list_elem_of_lookup_2; exact Hbest |].
    rewrite Hb in Hcopy. simpl in Hcopy.
    rewrite (rescored_of_scored _ b) in Hcopy
      by (eapply (eval_scored _ Hev); [eapply list_elem_of_lookup_2 |]; eauto).
    destruct (evaluated_best _ Hev') as (top & _ & Htop & _ & _ & Hmax).
    assert (top = best') as -> by congruence.
    assert (Hin : length (heap this) ∈ population s1).
    { rewrite Hperm. apply elem_of_app. left. apply elem_of_seq. lia. }
    specialize (Hmax _ Hin).
    unfold fitnessOf at 1 in Hmax. rewrite Hcopy in Hmax.
    unfold fitnessOf at 1. rewrite Hb. exact Hmax.
Qed.



(** ** New objects in every generation *)

Lemma offspringLoop_NoDup (fuel : nat) (newPopulation result : list ref)
  (this this' : GeneticAlgorithm) :
  offspringLoop fuel newPopulation this = Normal (result, this') ->
  exists offspring,
    result = newPopulation ++ offspring /\
    NoDup offspring /\
    (forall r, r ∈ offspring -> (length (heap this) <= r < length (heap this'))%nat).
Proof.
  revert newPopulation this. induction fuel as [| fuel IH]; intros np this H.
  - injection H as <- <-. exists []. split; [rewrite app_nil_r; reflexivity |].
    split; [constructor |]. intros r Hr. apply elem_of_nil in Hr. contradiction.
  - simpl in H. run_inv H. run_basic Hrun.
    destruct (Z.of_nat (length np) <? populationSize (config st))%Z.
    + apply bind_Normal in H as (child & s1 & Hmake & H).
      apply makeOffspring_Normal in Hmake as [Hext Hr].
      pose proof (offspringLoop_Normal _ _ _ _ _ H) as (Hext' & _).
      apply IH in H as (offspring & -> & Hnodup & Hoff).
      exists (child :: offspring). split; [rewrite <- app_assoc; reflexivity |].
      destruct Hext', Hext. split.
      * constructor; [| exact Hnodup]. intros Hin. specialize (Hoff _ Hin). lia.
      * intros r Hin. apply elem_of_cons in Hin as [-> | Hin]; [lia |].
        specialize (Hoff r Hin). lia.
    + run_basic H. exists []. split; [rewrite app_nil_r; reflexivity |].
      split; [constructor |]. intros r Hr. apply elem_of_nil in Hr. contradiction.
Qed.

Lemma nextGeneration_fresh (this this' : GeneticAlgorithm) :
  (forall r, r ∈ population this -> is_Some (heap this !! r)) ->
  nextGeneration this = Normal (tt, this') ->
  NoDup (population this') /\
  forall r, r ∈ population this' -> (length (heap this) <= r)%nat.
Proof.
  intros Hall H.
  destruct (nextGeneration_steps _ _ Hall H)
    as (agents & offspring & filled & _ & _ & Hloop & Heval).
  apply offspringLoop_NoDup in Hloop as (offspring' & Heq & Hnodup & Hoff).
  apply app_inv_head in Heq as <-. simpl_state.
  rewrite length_app in Hoff.
  apply evaluateFitness_evaluated in Heval as (_ & Hperm & _). simpl_state.
  split.
  - rewrite Hperm. apply NoDup_app. split; [apply NoDup_seq |]. split; [| exact Hnodup].
    intros r Hr Hr'. apply elem_of_seq in Hr. specialize (Hoff r Hr'). lia.
  - intros r Hr. rewrite Hperm in Hr. apply elem_of_app in Hr as [Hr | Hr].
    + apply elem_of_seq in Hr. lia.
    + specialize (Hoff r Hr). lia.
Qed.

(** X11.  No aliasing in the population: at every head of the loop
    the slots of the population hold distinct objects, and every
    member of the next generation is an object created during the
    transition, so that no object is shared between two
    generations. *)
Theorem population_without_aliasing (start this : GeneticAlgorithm) :
  reachable start this ->
  NoDup (population this) /\
  forall this', nextGeneration this = Normal (tt, this') ->
    NoDup (population this') /\
    forall r, r ∈ population this' ->
              (length (heap this) <= r)%nat /\ r ∉ population this.
Proof.
  intros Hreach.
  assert (Hstep : forall s s', reachable start s ->
            nextGeneration s = Normal (tt, s') ->
            NoDup (population s') /\
            forall r, r ∈ population s' ->
                      (length (heap s) <= r)%nat /\ r ∉ population s).
  { intros s s' Hs Hnext.
    destruct (reachable_invariant _ _ Hs) as (Hev & _).
    destruct (nextGeneration_fresh _ _ (eval_allocated _ Hev) Hnext) as [Hnodup Hnew].
    split; [exact Hnodup |]. intros r Hr. split; [auto |].
    intros Hold. apply (eval_allocated _ Hev) in Hold.
    apply lookup_lt_is_Some in Hold. specialize (Hnew r Hr). lia. }
  split; [| intros this'; apply Hstep; exact Hreach].
  destruct Hreach as [this Hseed | this this' Hreach _ _ Hnext].
  - destruct (initializePopulation_total start) as (agents & d & _ & _ & Hinit).
    rewrite (bind_run _ _ _ _ _ Hinit) in Hseed.
    apply bind_Normal in Hseed as ([] & s2 & Hev & H).
    unfold modify in H. injection H as <-.
    apply evaluateFitness_evaluated in Hev as (_ & Hperm & _). simpl_state.
    rewrite Hperm. apply NoDup_seq.
  - apply bind_Normal in Hnext as ([] & s1 & Hnext & Hmod).
    unfold modify in Hmod. injection Hmod as <-. simpl_state.
    apply (Hstep this s1 Hreach Hnext).
Qed.

(** ** The number of elite individuals *)

(** X12.  [selectElite] copies the first [elitismCount] individuals
    when that number is between 0 and the size of the population,
    all of them when it is larger, and, when it is negative, all but
    the last [-elitismCount] ones; the copies are new objects that
    hold the fields of the originals, in the order of the ranks, and
    nothing else changes. *)
Theorem selectElite_count (this : GeneticAlgorithm) :
  (forall r, r ∈ population this -> is_Some (heap this !! r)) ->
  exists agents : list Agent,
    selectElite this
    = Normal (seq (length (heap this)) (length agents),
              withHeap (heap this ++ agents) this) /\
    Z.of_nat (length agents)
    = (if (elitismCount (config this) <? 0)%Z
       then Z.max (Z.of_nat (length (population this)) + elitismCount (config this)) 0
       else Z.min (elitismCount (config this)) (Z.of_nat (length (population this)))) /\
    (forall j r, (j < length agents)%nat -> population this !! j = Some r ->
                 agents !! j = heap this !! r).
Proof.
  intros Hall.
  destruct (selectElite_exact this Hall) as (agents & Hlen & Hagents & Hsel).
  exists agents. split; [exact Hsel |]. split; [| exact Hagents].
  rewrite Hlen. apply slice0_length.
Qed.

(** X13.  With [elitismCount] at least [populationSize] the elite
    fill the new population: the transition draws no number, holds no
    tournament, and the next generation is the copy of the current
    one, rank by rank; the history gets the same best fitness once
    more. *)
Theorem elitism_fills_population (start this : GeneticAlgorithm) :
  reachable start this ->
  (populationSize (config start) <= elitismCount (config start))%Z ->
  exists (agents : list Agent) (best : ref),
    length agents = length (population this) /\
    (forall j r, population this !! j = Some r -> agents !! j = heap this !! r) /\
    population this !! 0%nat = Some best /\
    nextGeneration this
    = Normal (tt,
        withHistory (bestFitnessHistory this ++ [fitnessOf (heap this) best])
          (withPopulation (seq (length (heap this)) (length (population this)))
             (withHeap (heap this ++ agents) this))).
Proof.
  intros Hreach Helite.
  destruct (reachable_invariant _ _ Hreach) as (Hev & Hc & Hlen).
  destruct (evaluated_best _ Hev) as (best & b & Hbest & Hb & Hfit & _).
  destruct (selectElite_exact this (eval_allocated _ Hev))
    as (agents & Hagents & Hcopy & Hsel).
  assert (Hne : length (population this) <> 0%nat)
    by (apply lookup_lt_Some in Hbest; lia).
  assert (Hk : length agents = length (population this)).
  { apply Nat2Z.inj. rewrite Hagents, slice0_length, Hc.
    destruct (elitismCount (config start) <? 0)%Z eqn:E;
      [apply Z.ltb_lt in E | apply Z.ltb_ge in E]; lia. }
  exists agents, best. split; [exact Hk |]. split.
  { intros j r Hr. apply Hcopy; [| exact Hr].
    apply lookup_lt_Some in Hr. lia. }
  split; [exact Hbest |].
  unfold nextGeneration. rewrite (bind_run _ _ _ _ _ Hsel).
  rewrite (bind_run get _ _ _ _ eq_refl). simpl_state. rewrite Hk.
  set (mid := withHeap (heap this ++ agents) this).
  set (new := seq (length (heap this)) (length (population this))).
  assert (Hloop : offspringLoop (Z.to_nat (populationSize (config this))) new mid
                  = Normal (new, mid)).
  { destruct (Z.to_nat (populationSize (config this))); [reflexivity |].
    simpl. unfold bind, get. unfold new at 1. rewrite length_seq.
    replace (Z.of_nat (length (population this)) <? populationSize (config mid))%Z
      with false; [reflexivity |].
    symmetry. apply Z.ltb_ge. unfold mid. simpl_state. rewrite Hc. lia. }
  rewrite (bind_run _ _ _ _ _ Hloop).
  rewrite (bind_run (modify _) _ mid (withPopulation new mid) tt) by reflexivity.
  assert (Hlookup : forall j r, population this !! j = Some r ->
            heap (withPopulation new mid) !! (length (heap this) + j)%nat
            = heap this !! r).
  { intros j r Hr. unfold mid. simpl_state. rewrite lookup_app_r by lia.
    replace (length (heap this) + j - length (heap this))%nat with j by lia.
    apply Hcopy; [| exact Hr]. apply lookup_lt_Some in Hr. lia. }
  assert (Hmember : forall x, x ∈ new ->
            exists j r, x = (length (heap this) + j)%nat /\
                        population this !! j = Some r).
  { intros x Hx. apply elem_of_seq in Hx.
    destruct (lookup_lt_is_Some_2 (population this) (x - length (heap this))%nat)
      as [r Hr]; [lia |].
    exists (x - length (heap this))%nat, r. split; [lia | exact Hr]. }
  assert (Hmid : evaluated (withPopulation new mid)).
  { constructor; simpl_state.
    - intros x Hx. apply Hmember in Hx as (j & r & -> & Hr).
      rewrite (Hlookup j r Hr). apply (eval_allocated _ Hev).
      eapply list_elem_of_lookup_2; exact Hr.
    - intros x a Hx Ha. apply Hmember in Hx as (j & r & -> & Hr).
      rewrite (Hlookup j r Hr) in Ha.
      eapply (eval_scored _ Hev); [eapply list_elem_of_lookup_2 |]; eauto.
    - intros i j x y Hij Hx Hy. unfold new in Hx, Hy.
      apply lookup_seq in Hx as [-> Hi]. apply lookup_seq in Hy as [-> Hj].
      destruct (lookup_lt_is_Some_2 (population this) i) as [ri Hri]; [lia |].
      destruct (lookup_lt_is_Some_2 (population this) j) as [rj Hrj]; [lia |].
      rewrite (fitnessOf_lookup _ _ _ _ (Hlookup i ri Hri)).
      rewrite (fitnessOf_lookup _ _ _ _ (Hlookup j rj Hrj)).
      exact (eval_sorted _ Hev i j ri rj Hij Hri Hrj).
    - unfold new. destruct (length (population this)); [congruence | discriminate]. }
  destruct (evaluateFitness_fixed _ Hmid) as (top & Htop & Hrun).
  rewrite Hrun. simpl_state.
  assert (top = length (heap this)) as ->.
  { unfold new in Htop. apply lookup_seq in Htop as [-> _]. lia. }
  specialize (Hlookup 0%nat best Hbest). rewrite Nat.add_0_r in Hlookup.
  simpl_state. rewrite (fitnessOf_lookup _ _ _ _ Hlookup). reflexivity.
Qed.

(** ** Properties of every object that a run creates *)

Section HeapInvariant.

Variable cfg : Config.

(** A property of chromosomes and a property of agents... *)
Variable G : string -> Prop.
Variable P : Agent -> Prop.

(** ... such that every way in which the program makes or changes an
    agent keeps them. *)
Hypothesis P_chromosome : forall a, P a -> G (chromosome a).
Hypothesis P_created : forall c, G c -> P (rescored cfg (mkAgent c 0 0 c)).
Hypothesis P_rescored : forall a, P a -> P (rescored cfg a).
Hypothesis G_generated :
  forall this c this', config this = cfg ->
    generateRandomEquation this = Normal (c, this') -> G c.
Hypothesis G_crossover :
  forall c1 c2 n, G c1 -> G c2 ->
    G (Js.substring c1 0
         (Qfloor (randomSource n * inject_Z (Z.of_nat (String.length c1))))
       ++ Js.substringFrom c2
            (Qfloor (randomSource (S n) * inject_Z (Z.of_nat (String.length c2))))) /\
    G (Js.substring c2 0
         (Qfloor (randomSource (S n) * inject_Z (Z.of_nat (String.length c2))))
       ++ Js.substringFrom c1
            (Qfloor (randomSource n * inject_Z (Z.of_nat (String.length c1))))).
Hypothesis G_mutated :
  forall c this edits this', G c ->
    chooseEdits (Js.split c) this = Normal (edits, this') ->
    G (Js.join (foldl applyEdit (Js.split c) edits)).

Lemma Normal_inv {A} (x y : A) (s s' : GeneticAlgorithm) :
  Normal (x, s) = Normal (y, s') -> x = y /\ s = s'.
Proof. intros H. injection H as -> ->. auto. Qed.

Lemma heapAll_withDrawn (d : nat) (this : GeneticAlgorithm) :
  heapAll cfg P this -> heapAll cfg P (withDrawn d this).
Proof. intros H. exact H. Qed.

Lemma createRandomAgent_heapAll (this this' : GeneticAlgorithm) (r : ref) :
  createRandomAgent this = Normal (r, this') ->
  heapAll cfg P this -> heapAll cfg P this'.
Proof.
  unfold createRandomAgent. intros H [Hc Hall].
  apply bind_Normal in H as (c & s1 & Hgen & H).
  pose proof (G_generated _ _ _ Hc Hgen) as Hg.
  destruct (generateRandomEquation_total this) as (c0 & d & Hgen').
  rewrite Hgen' in Hgen. injection Hgen as -> <-.
  rewrite createAgentFromChromosome_run in H. apply Normal_inv in H as [_ <-].
  split; simpl_state; [exact Hc |].
  apply Forall_app. split; [exact Hall |].
  constructor; [| constructor]. rewrite Hc. apply P_created, Hg.
Qed.

Lemma initializeLoop_heapAll (n : nat) (this this' : GeneticAlgorithm) :
  initializeLoop n this = Normal (tt, this') ->
  heapAll cfg P this -> heapAll cfg P this'.
Proof.
  revert this. induction n as [| n IH]; intros this H Hinv.
  - injection H as <-. exact Hinv.
  - cbn [initializeLoop] in H.
    apply bind_Normal in H as (agent & s1 & Hnew & H).
    apply bind_Normal in H as ([] & s2 & Hmod & H).
    unfold modify in Hmod. injection Hmod as <-.
    apply (IH _ H). apply (createRandomAgent_heapAll _ _ _ Hnew) in Hinv.
    exact Hinv.
Qed.

Lemma initializePopulation_heapAll (this this' : GeneticAlgorithm) :
  initializePopulation this = Normal (tt, this') ->
  heapAll cfg P this -> heapAll cfg P this'.
Proof.
  unfold initializePopulation. intros H Hinv.
  apply bind_Normal in H as ([] & s1 & Hmod & H).
  unfold modify in Hmod. injection Hmod as <-.
  apply bind_Normal in H as (s & s2 & Hget & H).
  unfold get in Hget. injection Hget as <- <-.
  apply (initializeLoop_heapAll _ _ _ H). exact Hinv.
Qed.

Lemma evaluateFitness_heapAll (this this' : GeneticAlgorithm) :
  evaluateFitness this = Normal (tt, this') ->
  heapAll cfg P this -> heapAll cfg P this'.
Proof.
  intros H [Hc Hall].
  apply evaluateFitness_Normal in H as (Halloc & h' & best & _ & Hin & Hout & _ & ->).
  split; simpl_state; [exact Hc |].
  apply Forall_lookup. intros i a Ha.
  destruct (decide (i ∈ population this)) as [Hi | Hi].
  - rewrite (Hin i Hi) in Ha. destruct (Halloc i Hi) as [b Hb].
    rewrite Hb in Ha. injection Ha as <-. rewrite Hc.
    apply P_rescored. exact (proj1 (Forall_lookup _ _) Hall i b Hb).
  - rewrite (Hout i Hi) in Ha. exact (proj1 (Forall_lookup _ _) Hall i a Ha).
Qed.

Lemma makeOffspring_heapAll (this this' : GeneticAlgorithm) (r : ref) :
  makeOffspring this = Normal (r, this') ->
  heapAll cfg P this -> heapAll cfg P this'.
Proof.
  unfold makeOffspring. intros H Hinv. run_inv H.
  apply tournamentSelection_Normal in Hrun as [_ [d1 ->]].
  apply tournamentSelection_Normal in Hrun0 as [_ [d2 ->]].
  run_basic Hrun1. rewrite Math_random_run in Hrun2. injection Hrun2 as <- <-.
  rewrite Math_random_run in Hrun4. injection Hrun4 as <- <-.
  run_basic H. simpl_state.
  assert (Hoff : heapAll cfg P st3).
  { destruct Hinv as [Hc Hall]. destruct (Qltb _ (crossoverRate _)).
    - destruct (crossover_Normal _ _ _ _ _ Hrun3) as (a1 & a2 & H1 & H2).
      rewrite (crossover_run _ _ _ a1 a2 H1 H2) in Hrun3. cbv zeta in Hrun3.
      apply Normal_inv in Hrun3 as [_ <-]. simpl_state.
      split; simpl_state; [exact Hc |].
      apply Forall_app. split; [exact Hall |].
      pose proof (P_chromosome _ (proj1 (Forall_lookup _ _) Hall _ _ H1)) as G1.
      pose proof (P_chromosome _ (proj1 (Forall_lookup _ _) Hall _ _ H2)) as G2.
      unfold crossoverChildren. cbn [fst snd]. rewrite Hc.
      constructor; [| constructor; [| constructor]]; apply P_created.
      + apply (proj1 (G_crossover _ _ _ G1 G2)).
      + apply (proj2 (G_crossover _ _ _ G1 G2)).
    - apply cloneAgent_Normal in Hrun3 as (a & Ha & _ & ->). simpl_state.
      split; simpl_state; [exact Hc |].
      apply Forall_app. split; [exact Hall |].
      constructor; [| constructor].
      exact (proj1 (Forall_lookup _ _) Hall _ _ Ha). }
  destruct (Qltb _ (mutationRate _)).
  - destruct v5. destruct (mutate_Normal _ _ _ Hrun5) as [a Ha].
    destruct (mutate_run _ _ a Ha) as (edits & d & Hedits & Hm).
    cbv zeta in Hm. rewrite Hm in Hrun5. apply Normal_inv in Hrun5 as [_ <-].
    destruct Hoff as [Hc3 Hall3]. simpl_state.
    split; simpl_state; [exact Hc3 |].
    apply Forall_insert; [exact Hall3 |]. rewrite Hc3.
    apply P_created. eapply G_mutated; [| exact Hedits].
    apply P_chromosome. exact (proj1 (Forall_lookup _ _) Hall3 _ _ Ha).
  - run_basic Hrun5. exact Hoff.
Qed.

Lemma offspringLoop_heapAll (fuel : nat) (newPopulation result : list ref)
  (this this' : GeneticAlgorithm) :
  offspringLoop fuel newPopulation this = Normal (result, this') ->
  heapAll cfg P this -> heapAll cfg P this'.
Proof.
  revert newPopulation this. induction fuel as [| fuel IH]; intros np this H Hinv.
  - apply Normal_inv in H as [_ <-]. exact Hinv.
  - simpl in H. apply bind_Normal in H as (s & s0 & Hget & H).
    unfold get in Hget. apply Normal_inv in Hget as [<- <-].
    destruct (Z.of_nat (length np) <? populationSize (config this))%Z.
    + apply bind_Normal in H as (child & s1 & Hmake & H).
      apply (IH _ _ H). apply (makeOffspring_heapAll _ _ _ Hmake Hinv).
    + apply Normal_inv in H as [_ <-]. exact Hinv.
Qed.

(** The state in which the new population is full and not yet
    evaluated. *)
Lemma nextGeneration_filled (this this' : GeneticAlgorithm) :
  (forall r, r ∈ population this -> is_Some (heap this !! r)) ->
  nextGeneration this = Normal (tt, this') ->
  heapAll cfg P this ->
  exists newPopulation filled,
    heapAll cfg P filled /\
    (forall r, r ∈ newPopulation -> is_Some (heap filled !! r)) /\
    evaluateFitness (withPopulation newPopulation filled) = Normal (tt, this').
Proof.
  intros Halloc H Hinv.
  destruct (nextGeneration_steps _ _ Halloc H)
    as (agents & offspring & filled & Hlen & Hcopy & Hloop & Heval).
  exists (seq (length (heap this)) (length agents) ++ offspring), filled.
  split; [| split; [| exact Heval]].
  - apply offspringLoop_heapAll in Hloop; [exact Hloop |].
    destruct Hinv as [Hc Hall]. split; simpl_state; [exact Hc |].
    apply Forall_app. split; [exact Hall |].
    apply Forall_lookup. intros j a Ha.
    assert (Hj : (j < length agents)%nat) by (apply lookup_lt_Some in Ha; exact Ha).
    assert (Hk : (length agents <= length (population this))%nat).
    { apply Nat2Z.inj_le. rewrite Hlen, slice0_length.
      destruct (elitismCount (config this) <? 0)%Z eqn:E;
        [apply Z.ltb_lt in E | apply Z.ltb_ge in E]; lia. }
    destruct (lookup_lt_is_Some_2 (population this) j) as [r Hr]; [lia |].
    rewrite (Hcopy j r Hj Hr) in Ha.
    exact (proj1 (Forall_lookup _ _) Hall _ _ Ha).
  - apply evaluateFitness_Normal in Heval as (Hall' & _). exact Hall'.
Qed.

Lemma nextGeneration_heapAll (this this' : GeneticAlgorithm) :
  (forall r, r ∈ population this -> is_Some (heap this !! r)) ->
  nextGeneration this = Normal (tt, this') ->
  heapAll cfg P this -> heapAll cfg P this'.
Proof.
  intros Halloc H Hinv.
  destruct (nextGeneration_filled _ _ Halloc H Hinv)
    as (newPopulation & filled & Hfilled & _ & Heval).
  apply (evaluateFitness_heapAll _ _ Heval). exact Hfilled.
Qed.

(** Every object in the heap at a head of the loop satisfies [P],
    when those of the initial heap do. *)
Lemma reachable_heapAll (start this : GeneticAlgorithm) :
  reachable start this ->
  heapAll cfg P start -> heapAll cfg P this.
Proof.
  intros Hreach Hstart.
  induction Hreach as [this Hseed | this this' Hreach IH _ _ Hnext].
  - apply bind_Normal in Hseed as ([] & s1 & Hinit & H).
    apply bind_Normal in H as ([] & s2 & Hev & H).
    unfold modify in H. apply Normal_inv in H as [_ <-].
    apply (initializePopulation_heapAll _ _ Hinit) in Hstart.
    apply (evaluateFitness_heapAll _ _ Hev) in Hstart. exact Hstart.
  - destruct (reachable_invariant _ _ Hreach) as (Hev & _).
    apply bind_Normal in Hnext as ([] & s1 & Hnext & Hmod).
    unfold modify in Hmod. apply Normal_inv in Hmod as [_ <-].
    apply (nextGeneration_heapAll _ _ (eval_allocated _ Hev) Hnext) in IH.
    exact IH.
Qed.

End HeapInvariant.

(** X14.  No stale score anywhere: at every head of the loop, every
    object that the run has created so far, member of the population
    or not (elite copies, both children of every crossover, mutated
    offspring, the members of earlier generations), stores the
    solution and the fitness computed from its chromosome, and its
    [equation] is its chromosome. *)
Theorem heap_scored (start this : GeneticAlgorithm) :
  reachable start this ->
  Forall (fun a => scored (config start) a /\ equation a = chromosome a) (heap start) ->
  config this = config start /\
  Forall (fun a => scored (config start) a /\ equation a = chromosome a) (heap this).
Proof.
  intros Hreach Hstart.
  change (heapAll (config start)
            (fun a => scored (config start) a /\ equation a = chromosome a) this).
  apply (reachable_heapAll (config start) (fun _ => True)
           (fun a => scored (config start) a /\ equation a = chromosome a))
    with (start := start); auto.
  - intros c _. split; [apply rescored_scored | reflexivity].
  - intros a [_ He]. split; [apply rescored_scored | exact He].
  - split; [reflexivity | exact Hstart].
Qed.


(** * Properties of runs whose draws lie in the unit interval *)

Section UnitDraws.

(** [Math.random] returns a number in [[0, 1)]. *)
Hypothesis random_unit : forall n, 0 <= randomSource n /\ randomSource n < 1.

(** ** Chromosomes as lists of characters *)

Lemma join_chars (cs : list ascii) :
  Js.join ((fun c => String c EmptyString) <$> cs) = string_of_list_ascii cs.
Proof.
  induction cs as [| c cs IH]; [reflexivity |].
  cbn [fmap list_fmap Js.join foldr string_of_list_ascii].
  change (foldr String.append EmptyString ((fun c => String c EmptyString) <$> cs))
    with (Js.join ((fun c => String c EmptyString) <$> cs)).
  rewrite IH. reflexivity.
Qed.

Lemma genes_spec (s : string) :
  genes s = true <->
  forall c, c ∈ list_ascii_of_string s -> geneChar c = true.
Proof.
  unfold genes. rewrite forallb_forall. split; intros H c Hc; apply H.
  - apply list_elem_of_In. exact Hc.
  - apply list_elem_of_In. exact Hc.
Qed.

Lemma genes_chars (cs : list ascii) :
  genes (string_of_list_ascii cs) = forallb geneChar cs.
Proof. unfold genes. rewrite list_ascii_of_string_of_list_ascii. reflexivity. Qed.

Lemma genes_append (s t : string) : genes (s ++ t) = genes s && genes t.
Proof. unfold genes. rewrite list_ascii_append. apply forallb_app. Qed.

Lemma length_chars (cs : list ascii) :
  String.length (string_of_list_ascii cs) = length cs.
Proof. rewrite <- length_list_ascii, list_ascii_of_string_of_list_ascii. reflexivity. Qed.

Lemma geneChar_drawn (c : ascii) :
  Js.isDigit c = true \/ Js.isOperator c = true -> geneChar c = true.
Proof. unfold geneChar. intros [-> | ->]; [reflexivity | apply orb_true_r]. Qed.

(** ** Mutation, character by character *)

(** What [mutate] does to the characters of a chromosome, by the
    value of its first draw. *)
Lemma mutation_chars (c : string) (this this' : GeneticAlgorithm) (edits : list Edit) :
  chooseEdits (Js.split c) this = Normal (edits, this') ->
  exists cs' : list ascii,
    Js.join (foldl applyEdit (Js.split c) edits) = string_of_list_ascii cs' /\
    ((randomSource (drawn this) < 33 # 100 /\
      exists (i : nat) (ch : ascii),
        geneChar ch = true /\
        ((i < length (list_ascii_of_string c))%nat /\
         cs' = <[i := ch]> (list_ascii_of_string c) \/
         list_ascii_of_string c = [] /\ cs' = [ch])) \/
     (33 # 100 <= randomSource (drawn this) /\ randomSource (drawn this) < 66 # 100 /\
      exists (k : nat) (ch : ascii),
        geneChar ch = true /\
        (k <= length (list_ascii_of_string c))%nat /\
        cs' = take k (list_ascii_of_string c) ++ ch :: drop k (list_ascii_of_string c)) \/
     (66 # 100 <= randomSource (drawn this) /\
      (3 < length (list_ascii_of_string c))%nat /\
      exists k : nat,
        (k < length (list_ascii_of_string c))%nat /\
        cs' = take k (list_ascii_of_string c) ++ drop (S k) (list_ascii_of_string c)) \/
     (66 # 100 <= randomSource (drawn this) /\
      (length (list_ascii_of_string c) <= 3)%nat /\
      cs' = list_ascii_of_string c)).
Proof.
  intros H. rewrite chooseEdits_run in H. cbv zeta in H.
  unfold Js.split in *. set (cs := list_ascii_of_string c) in *.
  set (single := fun c : ascii => String c EmptyString) in *.
  assert (Hlen : length (single <$> cs) = length cs) by apply length_fmap.
  rewrite Hlen in H.
  destruct (position_draw random_unit (S (drawn this)) (single <$> cs)) as [Hi0 Hi].
  rewrite Hlen in Hi0, Hi.
  destruct (pick_char random_unit (S (S (drawn this))) (S (S (S (drawn this)))))
    as (ch & Htext & Hch).
  apply geneChar_drawn in Hch.
  set (idx := Qfloor (randomSource (S (drawn this)) * inject_Z (Z.of_nat (length cs))))
    in *.
  destruct (Qltb (randomSource (drawn this)) (33 # 100)) eqn:E1;
    [| destruct (Qltb (randomSource (drawn this)) (66 # 100)) eqn:E2;
       [| destruct (3 <? Z.of_nat (length cs))%Z eqn:E3]];
    apply Normal_inv in H as [<- _]; cbn [foldl applyEdit].
  - apply Qltb_true in E1. rewrite Htext. fold (single ch).
    destruct cs as [| c0 cs0] eqn:Ecs.
    + exists [ch]. split.
      * cbn [length Z.of_nat] in idx. unfold idx. rewrite floor_scaled_zero.
        reflexivity.
      * left. split; [exact E1 |]. exists 0%nat, ch. auto.
    + rewrite <- Ecs in *.
      assert (Hne : single <$> cs <> []) by (rewrite Ecs; discriminate).
      specialize (Hi Hne).
      exists (<[Z.to_nat idx := ch]> cs). split.
      * unfold Js.assign. rewrite Hlen.
        destruct (Z.ltb_spec idx 0); [lia |].
        destruct (Z.ltb_spec idx (Z.of_nat (length cs))); [| lia].
        rewrite <- list_fmap_insert. apply join_chars.
      * left. split; [exact E1 |]. exists (Z.to_nat idx), ch.
        split; [exact Hch |]. left. split; [lia | reflexivity].
  - apply Qltb_false in E1. apply Qltb_true in E2. rewrite Htext. fold (single ch).
    exists (take (Z.to_nat (Z.min idx (Z.of_nat (length cs)))) cs
            ++ ch :: drop (Z.to_nat (Z.min idx (Z.of_nat (length cs)))) cs).
    split.
    + unfold Js.spliceInsert, Js.spliceStart. rewrite Hlen.
      destruct (Z.ltb_spec idx 0); [lia |].
      rewrite <- fmap_take, <- fmap_drop, <- fmap_cons, <- fmap_app.
      apply join_chars.
    + right. left. split; [exact E1 |]. split; [exact E2 |].
      exists (Z.to_nat (Z.min idx (Z.of_nat (length cs)))), ch.
      split; [exact Hch |]. split; [lia | reflexivity].
  - apply Qltb_false in E1. apply Qltb_false in E2. apply Z.ltb_lt in E3.
    assert (Hne : single <$> cs <> []).
    { intros E. apply (f_equal length) in E. rewrite Hlen in E. simpl in E. lia. }
    specialize (Hi Hne).
    exists (take (Z.to_nat idx) cs ++ drop (S (Z.to_nat idx)) cs). split.
    + unfold Js.spliceDelete, Js.spliceStart. rewrite Hlen.
      destruct (Z.ltb_spec idx 0); [lia |].
      replace (Z.to_nat (Z.min idx (Z.of_nat (length cs)))) with (Z.to_nat idx) by lia.
      rewrite <- fmap_take, <- fmap_drop, <- fmap_app.
      apply join_chars.
    + right. right. left. split; [exact E2 |]. split; [lia |].
      exists (Z.to_nat idx). split; [lia | reflexivity].
  - apply Qltb_false in E1. apply Qltb_false in E2. apply Z.ltb_ge in E3.
    exists cs. split; [apply join_chars |].
    right. right. right. split; [exact E2 |]. split; [lia | reflexivity].
Qed.

Lemma forallb_Forall_true {A} (f : A -> bool) (l : list A) :
  forallb f l = true <-> Forall (fun x => f x = true) l.
Proof.
  induction l as [| x l IH]; simpl.
  - split; [constructor | reflexivity].
  - rewrite andb_true_iff, Forall_cons, IH. reflexivity.
Qed.

(** Lengths and alphabet after a mutation. *)
Lemma mutation_shape (c : string) (this this' : GeneticAlgorithm) (edits : list Edit) :
  chooseEdits (Js.split c) this = Normal (edits, this') ->
  (randomSource (drawn this) < 33 # 100 ->
   String.length (Js.join (foldl applyEdit (Js.split c) edits))
   = Nat.max 1 (String.length c)) /\
  (33 # 100 <= randomSource (drawn this) -> randomSource (drawn this) < 66 # 100 ->
   String.length (Js.join (foldl applyEdit (Js.split c) edits))
   = S (String.length c)) /\
  (66 # 100 <= randomSource (drawn this) ->
   String.length (Js.join (foldl applyEdit (Js.split c) edits))
   = if (3 <? String.length c)%nat then pred (String.length c) else String.length c) /\
  (genes c = true -> genes (Js.join (foldl applyEdit (Js.split c) edits)) = true).
Proof.
  intros H. apply mutation_chars in H as (cs' & -> & Hcases).
  rewrite length_chars, genes_chars. unfold genes.
  rewrite <- (length_list_ascii c).
  set (cs := list_ascii_of_string c) in *.
  rewrite !forallb_Forall_true.
  destruct Hcases as [(Hm & i & ch & Hch & Hcs) | [(Hm1 & Hm2 & k & ch & Hch & Hk & ->)
    | [(Hm & Hlen & k & Hk & ->) | (Hm & Hlen & ->)]]].
  - split; [intros _ | split; [intros; lra | split; [intros; lra |]]].
    + destruct Hcs as [[Hi ->] | [-> ->]]; [rewrite length_insert; lia | reflexivity].
    + intros Hg. destruct Hcs as [[Hi ->] | [_ ->]].
      * apply Forall_insert; assumption.
      * constructor; [exact Hch | constructor].
  - split; [intros; lra | split; [intros _ _ | split; [intros; lra |]]].
    + rewrite length_app. cbn [length]. rewrite length_take, length_drop. lia.
    + intros Hg. apply Forall_app. split; [apply Forall_take, Hg |].
      constructor; [exact Hch | apply Forall_drop, Hg].
  - split; [intros; lra | split; [intros; lra | split; [intros _ |]]].
    + rewrite length_app, length_take, length_drop.
      destruct (Nat.ltb_spec 3 (length cs)); lia.
    + intros Hg. apply Forall_app. split; [apply Forall_take, Hg | apply Forall_drop, Hg].
  - split; [intros; lra | split; [intros; lra | split; [intros _ |]]].
    + destruct (Nat.ltb_spec 3 (length cs)); [lia | reflexivity].
    + auto.
Qed.

(** X15.  A mutation always returns; it changes the length of the
    chromosome by one at most: a substitution keeps it (and makes an
    empty chromosome one character long), an insertion adds one
    character, a deletion removes one from a chromosome longer than
    3, and a chromosome of 3 characters or more never gets shorter
    than 3.  A chromosome of digits and operators stays one.  The
    mutation writes to the one object it is given and allocates
    nothing. *)
Theorem mutate_length (agent : ref) (this : GeneticAlgorithm) (a : Agent) :
  heap this !! agent = Some a ->
  exists (this' : GeneticAlgorithm) (a' : Agent),
    mutate agent this = Normal (tt, this') /\
    heap this' !! agent = Some a' /\
    (randomSource (drawn this) < 33 # 100 ->
     String.length (chromosome a') = Nat.max 1 (String.length (chromosome a))) /\
    (33 # 100 <= randomSource (drawn this) -> randomSource (drawn this) < 66 # 100 ->
     String.length (chromosome a') = S (String.length (chromosome a))) /\
    (66 # 100 <= randomSource (drawn this) ->
     String.length (chromosome a')
     = if (3 <? String.length (chromosome a))%nat
       then pred (String.length (chromosome a))
       else String.length (chromosome a)) /\
    ((3 <= String.length (chromosome a))%nat ->
     (3 <= String.length (chromosome a'))%nat) /\
    (genes (chromosome a) = true -> genes (chromosome a') = true) /\
    length (heap this') = length (heap this) /\
    (forall r, r <> agent -> heap this' !! r = heap this !! r).
Proof.
  intros Ha.
  destruct (mutate_run agent this a Ha) as (edits & d & Hedits & Hm). cbv zeta in Hm.
  destruct (mutation_shape _ _ _ _ Hedits) as (H1 & H2 & H3 & Hg).
  eexists _, _. split; [exact Hm |]. simpl_state.
  split; [apply list_lookup_insert_eq; apply lookup_lt_Some in Ha; exact Ha |].
  cbn [rescored chromosome].
  split; [exact H1 |]. split; [exact H2 |]. split; [exact H3 |].
  split; [| split; [exact Hg | split; [apply length_insert |]]].
  - intros Hlen.
    destruct (Qlt_le_dec (randomSource (drawn this)) (33 # 100)) as [L1 | L1];
      [rewrite (H1 L1); lia |].
    destruct (Qlt_le_dec (randomSource (drawn this)) (66 # 100)) as [L2 | L2];
      [rewrite (H2 L1 L2); lia |].
    rewrite (H3 L2). destruct (Nat.ltb_spec 3 (String.length (chromosome a))); lia.
  - intros r Hr. apply list_lookup_insert_ne. congruence.
Qed.

(** ** Crossover, character by character *)

Lemma crossover_strings (s1 s2 : string) (n : nat) :
  let A := list_ascii_of_string s1 in
  let B := list_ascii_of_string s2 in
  exists p1 p2 : nat,
    (A <> [] -> (p1 < length A)%nat) /\
    (B <> [] -> (p2 < length B)%nat) /\
    list_ascii_of_string
      (Js.substring s1 0
         (Qfloor (randomSource n * inject_Z (Z.of_nat (String.length s1))))
       ++ Js.substringFrom s2
            (Qfloor (randomSource (S n) * inject_Z (Z.of_nat (String.length s2)))))
    = take p1 A ++ drop p2 B /\
    list_ascii_of_string
      (Js.substring s2 0
         (Qfloor (randomSource (S n) * inject_Z (Z.of_nat (String.length s2))))
       ++ Js.substringFrom s1
            (Qfloor (randomSource n * inject_Z (Z.of_nat (String.length s1)))))
    = take p2 B ++ drop p1 A.
Proof.
  cbv zeta.
  exists (Z.to_nat (Qfloor (randomSource n * inject_Z (Z.of_nat (String.length s1))))),
         (Z.to_nat (Qfloor (randomSource (S n)
                            * inject_Z (Z.of_nat (String.length s2))))).
  rewrite !list_ascii_append, !substring_prefix, !substring_suffix.
  split; [| split; [| split; reflexivity]].
  - intros Hne.
    assert (Hpos : (0 < String.length s1)%nat).
    { rewrite <- length_list_ascii. destruct (list_ascii_of_string s1);
        [congruence | simpl; lia]. }
    pose proof (randomSource_index random_unit n _ Hpos).
    rewrite length_list_ascii. lia.
  - intros Hne.
    assert (Hpos : (0 < String.length s2)%nat).
    { rewrite <- length_list_ascii. destruct (list_ascii_of_string s2);
        [congruence | simpl; lia]. }
    pose proof (randomSource_index random_unit (S n) _ Hpos).
    rewrite length_list_ascii. lia.
Qed.

Lemma chars_nonempty (s : string) :
  s <> EmptyString <-> list_ascii_of_string s <> [].
Proof. destruct s; simpl; split; congruence. Qed.

Lemma crossover_shape (s1 s2 : string) (n : nat) (c1 c2 : string) :
  c1 = (Js.substring s1 0
          (Qfloor (randomSource n * inject_Z (Z.of_nat (String.length s1))))
        ++ Js.substringFrom s2
             (Qfloor (randomSource (S n) * inject_Z (Z.of_nat (String.length s2)))))%string ->
  c2 = (Js.substring s2 0
          (Qfloor (randomSource (S n) * inject_Z (Z.of_nat (String.length s2))))
        ++ Js.substringFrom s1
             (Qfloor (randomSource n * inject_Z (Z.of_nat (String.length s1)))))%string ->
  list_ascii_of_string c1 ++ list_ascii_of_string c2
    ≡ₚ list_ascii_of_string s1 ++ list_ascii_of_string s2 /\
  (s2 <> EmptyString -> c1 <> EmptyString) /\
  (s1 <> EmptyString -> c2 <> EmptyString) /\
  (genes s1 = true -> genes s2 = true -> genes c1 = true /\ genes c2 = true).
Proof.
  intros -> ->.
  destruct (crossover_strings s1 s2 n) as (p1 & p2 & H1 & H2 & E1 & E2).
  rewrite !chars_nonempty. unfold genes. rewrite E1, E2, !forallb_Forall_true.
  set (A := list_ascii_of_string s1) in *. set (B := list_ascii_of_string s2) in *.
  split; [| split; [| split]].
  - rewrite <- (take_drop p1 A) at 3. rewrite <- (take_drop p2 B) at 3.
    rewrite <- !app_assoc. apply Permutation_app_head.
    rewrite (Permutation_app_swap_app (drop p1 A)).
    rewrite (Permutation_app_comm (drop p2 B)). rewrite <- app_assoc.
    reflexivity.
  - intros Hne E. apply (f_equal length) in E.
    rewrite length_app, length_drop in E. specialize (H2 Hne). simpl in E. lia.
  - intros Hne E. apply (f_equal length) in E.
    rewrite length_app, length_drop in E. specialize (H1 Hne). simpl in E. lia.
  - intros HA HB. split; apply Forall_app; split;
      auto using Forall_take, Forall_drop.
Qed.

(** X16.  A crossover that has its two parents allocates both
    children, returns one of them and writes to no other object; it
    draws two numbers.  The two children together hold exactly the
    characters of the two parents; neither is empty when the parents
    are not; and children of parents made of digits and operators
    are made of digits and operators. *)
Theorem crossover_conserves_characters
  (parent1 parent2 : ref) (this : GeneticAlgorithm) (a1 a2 : Agent) :
  heap this !! parent1 = Some a1 ->
  heap this !! parent2 = Some a2 ->
  exists (c1 c2 : Agent) (child : ref),
    crossover parent1 parent2 this
    = Normal (child, withHeap (heap this ++ [c1; c2])
                       (withDrawn (S (S (drawn this))) this)) /\
    (child = length (heap this) \/ child = S (length (heap this))) /\
    list_ascii_of_string (chromosome c1) ++ list_ascii_of_string (chromosome c2)
      ≡ₚ list_ascii_of_string (chromosome a1) ++ list_ascii_of_string (chromosome a2) /\
    (chromosome a2 <> EmptyString -> chromosome c1 <> EmptyString) /\
    (chromosome a1 <> EmptyString -> chromosome c2 <> EmptyString) /\
    (genes (chromosome a1) = true -> genes (chromosome a2) = true ->
     genes (chromosome c1) = true /\ genes (chromosome c2) = true).
Proof.
  intros H1 H2.
  pose proof (crossover_run parent1 parent2 this a1 a2 H1 H2) as Hrun.
  cbv zeta in Hrun.
  eexists _, _, _. split; [exact Hrun |].
  split; [destruct (Qgtb _ _); auto |].
  apply (crossover_shape (chromosome a1) (chromosome a2) (drawn this)); reflexivity.
Qed.

(** ** The alphabet of the chromosomes *)

Lemma geneChar_expressionChar (c : ascii) :
  geneChar c = true -> expressionChar c = true.
Proof. unfold geneChar, expressionChar. intros ->. reflexivity. Qed.

Lemma geneChar_not_parenthesis (c : ascii) :
  geneChar c = true -> (c =? "(")%char = false /\ (c =? ")")%char = false.
Proof. destruct c as [[] [] [] [] [] [] [] []]; vm_compute; auto; discriminate. Qed.

Lemma balanceLoop_genes (c : string) (balance : Z) :
  genes c = true -> (0 <= balance)%Z -> balanceLoop balance c = Some balance.
Proof.
  intros Hg Hb. induction c as [| ch c IH]; [reflexivity |].
  unfold genes in Hg. simpl in Hg. apply andb_true_iff in Hg as [Hch Hg].
  destruct (geneChar_not_parenthesis ch Hch) as [Ho Hc].
  simpl. rewrite Ho, Hc.
  destruct (Z.ltb_spec balance 0); [lia |]. apply IH, Hg.
Qed.

Lemma cleanExpression_genes (c : string) :
  genes c = true -> cleanExpression c = c.
Proof.
  intros Hg. rewrite cleanExpression_expressionChar. apply keep_all.
  intros ch Hch. apply geneChar_expressionChar.
  exact (proj1 (genes_spec c) Hg ch Hch).
Qed.

Lemma isValidExpression_genes (c : string) :
  genes c = true ->
  isValidExpression c
  = negb ((String.length c =? 0)%nat || consecutiveOperators c).
Proof.
  intros Hg. unfold isValidExpression.
  destruct (String.length c =? 0)%nat; [reflexivity |].
  rewrite (balanceLoop_genes c 0 Hg) by lia. cbn [Z.eqb negb orb].
  destruct (consecutiveOperators c); reflexivity.
Qed.


Lemma genes_snoc (s : string) (c : ascii) :
  genes s = true -> geneChar c = true -> genes (s ++ String c EmptyString) = true.
Proof.
  intros Hs Hc. rewrite genes_append, Hs. unfold genes. simpl. rewrite Hc. reflexivity.
Qed.

Lemma equationLoop_genes (n : nat) (equation : string) (e : bool)
  (this this' : GeneticAlgorithm) (equation' : string) (e' : bool) :
  genes equation = true ->
  equationLoop n equation e this = Normal ((equation', e'), this') ->
  genes equation' = true.
Proof.
  revert equation e this. induction n as [| n IH]; intros equation e this Hg H.
  - apply Normal_value in H. congruence.
  - cbn [equationLoop] in H.
    apply bind_Normal in H as (place & s1 & Hplace & H).
    destruct place.
    + rewrite (bind_run _ _ _ _ _ (randomIndex_run _ _)) in H.
      destruct (draw_operator random_unit (drawn s1)) as (c & Hc & Hop).
      rewrite Hc in H. apply IH in H; [exact H |].
      apply genes_snoc; [exact Hg | apply geneChar_drawn; auto].
    + rewrite (bind_run _ _ _ _ _ (randomIndex_run _ _)) in H.
      destruct (draw_digit random_unit (drawn s1)) as (c & Hc & Hd).
      rewrite Hc in H. apply IH in H; [exact H |].
      apply genes_snoc; [exact Hg | apply geneChar_drawn; auto].
Qed.

Lemma generateRandomEquation_genes (this this' : GeneticAlgorithm) (equation : string) :
  generateRandomEquation this = Normal (equation, this') ->
  genes equation = true.
Proof.
  intros H. unfold generateRandomEquation in H.
  erewrite bind_run in H by reflexivity.
  erewrite bind_run in H by apply Math_random_run.
  apply bind_Normal in H as ([eq e] & s1 & Hloop & H).
  apply equationLoop_genes in Hloop; [| reflexivity].
  cbn [fst snd] in H. destruct e.
  - rewrite (bind_run _ _ _ _ _ (randomIndex_run _ _)) in H.
    destruct (draw_digit random_unit (drawn s1)) as (c & Hc & Hd).
    rewrite Hc in H. unfold ret in H. apply Normal_value in H as <-.
    apply genes_snoc; [exact Hloop | apply geneChar_drawn; auto].
  - unfold ret in H. apply Normal_value in H as <-. exact Hloop.
Qed.

(** X18.  Every generated chromosome is a string of digits and
    operators that passes the validity check, so that the evaluator
    hands it to the parser as it is: no generated chromosome is
    refused before parsing. *)
Theorem generated_chromosome_reaches_parser
  (this this' : GeneticAlgorithm) (equation : string) :
  (3 <= maxEquationLength (config this))%Z ->
  generateRandomEquation this = Normal (equation, this') ->
  genes equation = true /\
  isValidExpression equation = true /\
  evaluate parser equation = parser equation.
Proof.
  intros Hmax H.
  pose proof (generateRandomEquation_genes _ _ _ H) as Hg.
  destruct (generateRandomEquation_shape random_unit _ _ _ Hmax H)
    as (Hcons & _ & Hlen & _).
  pose proof (isValidExpression_genes equation Hg) as Hvalid.
  assert (Hz : (String.length equation =? 0)%nat = false)
    by (apply Nat.eqb_neq; lia).
  rewrite Hz, Hcons in Hvalid. cbn [orb negb] in Hvalid.
  split; [exact Hg |]. split; [exact Hvalid |].
  unfold evaluate. rewrite (cleanExpression_genes equation Hg), Hvalid. reflexivity.
Qed.

(** X26.  The population that seeding leaves, after its first
    evaluation pass: every individual has a chromosome of digits and
    operators that begins with a digit, has no two operators in a
    row and is between 3 and [maxEquationLength] characters long (4
    when [maxEquationLength] is 3); the chromosome passes the
    validity check, and the solution stored is the value that the
    parser gives to it, or 0 when the parser gives none. *)
Theorem seeded_population_shape (start seeded : GeneticAlgorithm) :
  (3 <= maxEquationLength (config start))%Z ->
  heap start = [] ->
  (initializePopulation;; evaluateFitness) start = Normal (tt, seeded) ->
  forall r, r ∈ population seeded ->
    exists a,
      heap seeded !! r = Some a /\
      seededShape (maxEquationLength (config start)) (chromosome a) /\
      isValidExpression (chromosome a) = true /\
      solution a = default 0 (parser (chromosome a)) /\
      fitness a = calculateFitness (config start) (solution a).
Proof.
  intros Hmax Hheap Hrun r Hr.
  apply bind_Normal in Hrun as ([] & s1 & Hinit & Heval).
  pose proof (evaluateFitness_evaluated _ _ Heval) as (Hev & _ & Hc & _).
  assert (Hc1 : config s1 = config start).
  { destruct (initializePopulation_total start) as (agents & d & _ & _ & Hinit').
    rewrite Hinit' in Hinit. apply Normal_inv in Hinit as [_ <-]. reflexivity. }
  assert (Hall : heapAll (config start)
            (fun a => seededShape (maxEquationLength (config start)) (chromosome a))
            seeded).
  { apply (evaluateFitness_heapAll (config start)
             (fun a => seededShape (maxEquationLength (config start)) (chromosome a)))
      with (this := s1); [auto | exact Heval |].
    apply (initializePopulation_heapAll (config start)
             (seededShape (maxEquationLength (config start)))
             (fun a => seededShape (maxEquationLength (config start)) (chromosome a)))
      with (this := start); [auto | | exact Hinit |].
    - intros this0 c this1 Hc0 Hgen. rewrite <- Hc0 in Hmax |- *.
      destruct (generateRandomEquation_shape random_unit _ _ _ Hmax Hgen)
        as (Hcons & Hfirst & Hlen & _).
      split; [exact (generateRandomEquation_genes _ _ _ Hgen) | auto].
    - split; [reflexivity |]. rewrite Hheap. constructor. }
  destruct (eval_allocated _ Hev r Hr) as [a Ha]. exists a.
  split; [exact Ha |].
  pose proof (proj1 (Forall_lookup _ _) (proj2 Hall) r a Ha) as Hshape.
  split; [exact Hshape |].
  destruct Hshape as (Hg & Hcons & _ & Hlen & _).
  assert (Hvalid : isValidExpression (chromosome a) = true).
  { rewrite (isValidExpression_genes _ Hg), Hcons.
    replace (String.length (chromosome a) =? 0)%nat with false; [reflexivity |].
    symmetry. apply Nat.eqb_neq. lia. }
  split; [exact Hvalid |].
  destruct (eval_scored _ Hev r a Hr Ha) as [Hsol Hfit].
  rewrite Hc, Hc1 in Hfit. split; [| exact Hfit].
  rewrite Hsol. unfold evaluate.
  rewrite (cleanExpression_genes _ Hg), Hvalid. reflexivity.
Qed.

(** X19.  The chromosomes of a run are strings of digits and
    operators: when those of the initial heap are, every object in the
    heap at every head of the loop has such a chromosome (no
    parenthesis, no dot, no white space ever enters one). *)
Theorem chromosomes_over_alphabet (start this : GeneticAlgorithm) :
  reachable start this ->
  Forall (fun a => genes (chromosome a) = true) (heap start) ->
  Forall (fun a => genes (chromosome a) = true) (heap this).
Proof.
  intros Hreach Hstart.
  apply (reachable_heapAll (config start) (fun c => genes c = true)
           (fun a => genes (chromosome a) = true)) with (start := start); auto.
  - intros this0 c this1 _ H. exact (generateRandomEquation_genes _ _ _ H).
  - intros c1 c2 n G1 G2.
    apply (crossover_shape c1 c2 n); auto.
  - intros c this0 edits this1 Hg H.
    apply (mutation_shape _ _ _ _ H). exact Hg.
  - split; [reflexivity | exact Hstart].
Qed.

(** X20.  No chromosome of a run is empty: with
    [maxEquationLength] at least 3, when no object of the initial heap
    has an empty chromosome, none has at any head of the loop.
    Seeding gives 3 characters or more, a crossover leaves at least
    one character to each child, and a mutation deletes nothing from
    a chromosome of 3 characters or fewer. *)
Theorem chromosomes_never_empty (start this : GeneticAlgorithm) :
  reachable start this ->
  (3 <= maxEquationLength (config start))%Z ->
  Forall (fun a => chromosome a <> EmptyString) (heap start) ->
  Forall (fun a => chromosome a <> EmptyString) (heap this).
Proof.
  intros Hreach Hmax Hstart.
  apply (reachable_heapAll (config start) (fun c => c <> EmptyString)
           (fun a => chromosome a <> EmptyString)) with (start := start); auto.
  - intros this0 c this1 Hc H. rewrite <- Hc in Hmax.
    destruct (generateRandomEquation_shape random_unit _ _ _ Hmax H)
      as (_ & _ & Hlen & _).
    intros ->. simpl in Hlen. lia.
  - intros c1 c2 n G1 G2.
    destruct (crossover_shape c1 c2 n _ _ eq_refl eq_refl) as (_ & N1 & N2 & _).
    auto.
  - intros c this0 edits this1 Hne H.
    destruct (mutation_shape _ _ _ _ H) as (H1 & H2 & H3 & _).
    assert (Hpos : (1 <= String.length c)%nat)
      by (destruct c; [congruence | simpl; lia]).
    intros E. apply (f_equal String.length) in E. simpl in E.
    destruct (Qlt_le_dec (randomSource (drawn this0)) (33 # 100)) as [L1 | L1];
      [rewrite (H1 L1) in E; lia |].
    destruct (Qlt_le_dec (randomSource (drawn this0)) (66 # 100)) as [L2 | L2];
      [rewrite (H2 L1 L2) in E; lia |].
    rewrite (H3 L2) in E. destruct (Nat.ltb_spec 3 (String.length c)); lia.
  - split; [reflexivity | exact Hstart].
Qed.

(** ** Generations without variation *)

Lemma makeOffspring_clone (this this' : GeneticAlgorithm) (r : ref) :
  crossoverRate (config this) <= 0 ->
  mutationRate (config this) <= 0 ->
  makeOffspring this = Normal (r, this') ->
  exists (parent : ref) (a : Agent),
    parent ∈ population this /\
    heap this !! parent = Some a /\
    r = length (heap this) /\
    heap this' = heap this ++ [a].
Proof.
  intros Hcross Hmut H. unfold makeOffspring in H. run_inv H.
  apply tournamentSelection_Normal in Hrun as [Hparent [d1 ->]].
  apply tournamentSelection_Normal in Hrun0 as [_ [d2 ->]].
  run_basic Hrun1. rewrite Math_random_run in Hrun2. injection Hrun2 as <- <-.
  rewrite Math_random_run in Hrun4. injection Hrun4 as <- <-.
  run_basic H. simpl_state.
  assert (E1 : Qltb (randomSource d2) (crossoverRate (config this)) = false).
  { apply Qltb_false. destruct (random_unit d2). lra. }
  rewrite E1 in Hrun3.
  apply cloneAgent_Normal in Hrun3 as (a & Ha & -> & ->). simpl_state.
  assert (E2 : Qltb (randomSource (S d2)) (mutationRate (config this)) = false).
  { apply Qltb_false. destruct (random_unit (S d2)). lra. }
  rewrite E2 in Hrun5. run_basic Hrun5. simpl_state.
  exists v, a. auto.
Qed.

Lemma offspringLoop_clones (fuel : nat) (newPopulation result : list ref)
  (this this' : GeneticAlgorithm) :
  crossoverRate (config this) <= 0 ->
  mutationRate (config this) <= 0 ->
  (forall r, r ∈ population this -> is_Some (heap this !! r)) ->
  offspringLoop fuel newPopulation this = Normal (result, this') ->
  exists offspring,
    result = newPopulation ++ offspring /\
    forall r, r ∈ offspring ->
      exists parent, parent ∈ population this /\
                     heap this' !! r = heap this !! parent.
Proof.
  revert newPopulation this. induction fuel as [| fuel IH];
    intros np this Hcross Hmut Halloc H.
  - apply Normal_inv in H as [<- _]. exists [].
    split; [rewrite app_nil_r; reflexivity |].
    intros r Hr. apply elem_of_nil in Hr. contradiction.
  - simpl in H. apply bind_Normal in H as (s & s0 & Hget & H).
    unfold get in Hget. apply Normal_inv in Hget as [<- <-].
    destruct (Z.of_nat (length np) <? populationSize (config this))%Z.
    + apply bind_Normal in H as (child & s1 & Hmake & H).
      pose proof (makeOffspring_Normal _ _ _ Hmake) as [Hext _].
      destruct (makeOffspring_clone _ _ _ Hcross Hmut Hmake)
        as (parent & a & Hparent & Ha & -> & Hheap).
      pose proof (offspringLoop_Normal _ _ _ _ _ H) as (Hext' & _).
      destruct Hext as [Hc Hp _ _ _ Hold].
      apply IH in H as (offspring & -> & Hoff).
      * exists (length (heap this) :: offspring).
        split; [rewrite <- app_assoc; reflexivity |].
        intros r Hr. apply elem_of_cons in Hr as [-> | Hr].
        -- exists parent. split; [exact Hparent |].
           rewrite (ext_heap _ _ _ Hext') by (rewrite Hheap, length_app; simpl; lia).
           rewrite Hheap, Ha. apply list_lookup_middle. reflexivity.
        -- destruct (Hoff r Hr) as (p & Hp' & Hlook). exists p.
           rewrite Hp in Hp'. split; [exact Hp' |].
           rewrite Hlook. apply Hold. apply lookup_lt_is_Some, Halloc, Hp'.
      * rewrite Hc. exact Hcross.
      * rewrite Hc. exact Hmut.
      * intros r Hr. rewrite Hp in Hr. rewrite Hheap.
        apply lookup_lt_is_Some. rewrite length_app.
        apply Halloc, lookup_lt_is_Some in Hr. lia.
    + apply Normal_inv in H as [<- _]. exists [].
      split; [rewrite app_nil_r; reflexivity |].
      intros r Hr. apply elem_of_nil in Hr. contradiction.
Qed.

(** X21.  Without crossover and without mutation (both rates zero or
    negative) a generation invents nothing: every member of the next
    generation is the copy of a member of the current one, with its
    chromosome, its solution and its fitness, so that the best
    fitness cannot rise. *)
Theorem generation_without_variation (start this this' : GeneticAlgorithm) :
  reachable start this ->
  crossoverRate (config start) <= 0 ->
  mutationRate (config start) <= 0 ->
  nextGeneration this = Normal (tt, this') ->
  (forall r', r' ∈ population this' ->
     exists r, r ∈ population this /\ heap this' !! r' = heap this !! r) /\
  (forall best best',
     population this !! 0%nat = Some best ->
     population this' !! 0%nat = Some best' ->
     fitnessOf (heap this') best' <= fitnessOf (heap this) best).
Proof.
  intros Hreach Hcross Hmut Hnext.
  destruct (reachable_invariant _ _ Hreach) as (Hev & Hc & _).
  assert (Hcopies : forall r', r' ∈ population this' ->
            exists r, r ∈ population this /\ heap this' !! r' = heap this !! r).
  { destruct (nextGeneration_steps _ _ (eval_allocated _ Hev) Hnext)
      as (agents & offspring & filled & Hlen & Hcopy & Hloop & Heval).
    assert (Hk : (length agents <= length (population this))%nat).
    { apply Nat2Z.inj_le. rewrite Hlen, slice0_length.
      destruct (elitismCount (config this) <? 0)%Z eqn:E;
        [apply Z.ltb_lt in E | apply Z.ltb_ge in E]; lia. }
    pose proof (offspringLoop_Normal _ _ _ _ _ Hloop) as (Hext & _).
    apply offspringLoop_clones in Hloop as (offspring' & Heq & Hoff).
    - apply app_inv_head in Heq as <-. simpl_state.
      assert (Hfilled : forall r', r' ∈ seq (length (heap this)) (length agents)
                                        ++ offspring ->
                exists r, r ∈ population this /\ heap filled !! r' = heap this !! r).
      { intros r' Hr'. apply elem_of_app in Hr' as [Hr' | Hr'].
        - apply elem_of_seq in Hr'.
          destruct (lookup_lt_is_Some_2 (population this)
                      (r' - length (heap this))%nat) as [r Hr]; [lia |].
          exists r. split; [eapply list_elem_of_lookup_2; exact Hr |].
          rewrite (ext_heap _ _ _ Hext)
            by (simpl_state; rewrite length_app; lia).
          simpl_state. rewrite lookup_app_r by lia.
          apply Hcopy; [lia | exact Hr].
        - destruct (Hoff r' Hr') as (p & Hp & Hlook). exists p.
          split; [exact Hp |]. rewrite Hlook. simpl_state.
          apply lookup_app_l, lookup_lt_is_Some, (eval_allocated _ Hev), Hp. }
      pose proof (evaluateFitness_evaluated _ _ Heval) as (_ & Hperm & _).
      apply evaluateFitness_Normal in Heval
        as (_ & h' & top & _ & Hin & _ & _ & ->). simpl_state.
      intros r' Hr'. rewrite sort_Permutation in Hr'.
      destruct (Hfilled r' Hr') as (r & Hr & Hlook). exists r.
      split; [exact Hr |]. rewrite (Hin r' Hr'), Hlook.
      destruct (eval_allocated _ Hev r Hr) as [a Ha]. rewrite Ha. simpl.
      rewrite (ext_config _ _ _ Hext). simpl_state.
      rewrite (rescored_of_scored _ a (eval_scored _ Hev r a Hr Ha)). reflexivity.
    - simpl_state. rewrite Hc. exact Hcross.
    - simpl_state. rewrite Hc. exact Hmut.
    - simpl_state. intros r Hr. apply lookup_lt_is_Some. rewrite length_app.
      apply (eval_allocated _ Hev), lookup_lt_is_Some in Hr. lia. }
  split; [exact Hcopies |].
  intros best best' Hbest Hbest'.
  destruct (Hcopies best') as (r & Hr & Hlook);
    [eapply list_elem_of_lookup_2; exact Hbest' |].
  rewrite (fitnessOf_lookup _ _ _ _ Hlook).
  destruct (evaluated_best _ Hev) as (top & _ & Htop & _ & _ & Hmax).
  assert (top = best) as -> by congruence. apply Hmax, Hr.
Qed.

(** ** The usage example *)

(** X22.  [runExample] always reports a final solution: its run
    returns an individual, and the branch that prints that no
    solution was found within the generation limit is never taken. *)
Theorem runExample_reports_solution :
  exists final : GeneticAlgorithm,
    runExample = Normal (true, final) /\
    terminal final /\
    Z.of_nat (length (population final)) = 50%Z.
Proof.
  unfold runExample.
  destruct (evolve_total random_unit (constructor exampleConfig))
    as (result & final & Hrun); [simpl; lia | simpl; lia |].
  exists final. rewrite (bind_run _ _ _ _ _ Hrun).
  destruct (evolve_Normal _ _ _ Hrun) as (seeded & Hreach & Hloop & Hgen).
  apply (generationLoop_Normal (constructor exampleConfig)) in Hloop
    as (Hfinal & Hterminal & best & -> & _); [| exact Hreach | rewrite Hgen; lia].
  split; [reflexivity |]. split; [exact Hterminal |].
  destruct (reachable_invariant _ _ Hfinal) as (_ & _ & Hlen). exact Hlen.
Qed.

End UnitDraws.

(** ** What a run returns *)

Lemma ascending_last (l : list Q) (x f : Q) :
  ascending l -> last l = Some x -> f ∈ l -> f <= x.
Proof.
  intros Hl Hlast Hf. apply list_elem_of_lookup_1 in Hf as [i Hi].
  rewrite last_lookup in Hlast.
  apply (Hl i (pred (length l)) f x); [| exact Hi | exact Hlast].
  apply lookup_lt_Some in Hi. lia.
Qed.

Lemma evolve_final (start final : GeneticAlgorithm) (result : option ref) :
  evolve start = Normal (result, final) ->
  reachable start final /\ terminal final /\
  exists best, result = Some best /\ population final !! 0%nat = Some best.
Proof.
  intros Hrun.
  destruct (evolve_Normal _ _ _ Hrun) as (seeded & Hreach & Hloop & Hgen).
  apply (generationLoop_Normal start) in Hloop; [exact Hloop | exact Hreach |].
  rewrite Hgen. lia.
Qed.

(** X24.  With at least one elite individual a run returns the best
    fitness it has ever seen: the fitness of the individual returned
    is the last entry that the run adds to the history, and no entry
    of the run is higher. *)
Theorem evolve_returns_best_ever
  (start final : GeneticAlgorithm) (result : option ref) :
  evolve start = Normal (result, final) ->
  (1 <= elitismCount (config start))%Z ->
  exists (best : ref) (added : list Q),
    result = Some best /\
    getFitnessHistory final = bestFitnessHistory start ++ added /\
    last added = Some (fitnessOf (heap final) best) /\
    forall f, f ∈ added -> f <= fitnessOf (heap final) best.
Proof.
  intros Hrun Helite.
  destruct (evolve_final _ _ _ Hrun) as (Hreach & _ & best & -> & Hbest).
  destruct (reachable_history _ _ Hreach)
    as (added & best' & Hhist & _ & _ & Hbest' & Hlast & _ & _ & Hasc).
  assert (best' = best) as -> by congruence.
  exists best, added. split; [reflexivity |]. split; [exact Hhist |].
  split; [exact Hlast |].
  intros f Hf. exact (ascending_last _ _ _ (Hasc Helite) Hlast Hf).
Qed.


End GeneticAlgorithm.

(** * The model at work: concrete runs *)

Lemma draws_unit (l : list Q) :
  forallb Sample.inUnitInterval l = true ->
  forall n, 0 <= Sample.draws l n /\ Sample.draws l n < 1.
Proof.
  intros Hall n. unfold Sample.draws.
  assert (Hunit : forall r, Sample.inUnitInterval r = true -> 0 <= r /\ r < 1).
  { intros r Hr. unfold Sample.inUnitInterval in Hr.
    apply andb_true_iff in Hr as [H0 H1].
    apply Qle_bool_iff in H0. apply negb_true_iff in H1.
    split; [exact H0 |]. apply Qnot_le_lt. intros Hle.
    apply Qle_bool_iff in Hle. congruence. }
  destruct (Nat.lt_ge_cases n (length l)) as [Hlt | Hge].
  - apply Hunit. rewrite forallb_forall in Hall. apply Hall. apply nth_In. exact Hlt.
  - rewrite nth_overflow by exact Hge. split; [apply Qle_refl | reflexivity].
Qed.

(** Runs [m] and gives the state it ends in as the witness of the
    goal. *)
Ltac run_to_state m :=
  let r := eval vm_compute in m in
  lazymatch r with
  | Normal (_, ?s) => exists s
  end.

Lemma population_size_and_order_witness :
  exists first,
    reachable Sample.arithmetic (Sample.draws Sample.someDraws)
      (constructor Sample.smallRun) first /\
    Z.of_nat (length (population first)) = 3%Z /\
    descending (fitnessOf (heap first)) (population first).
Proof.
  destruct (population_size_and_order Sample.arithmetic (Sample.draws Sample.someDraws)
              (constructor Sample.smallRun))
    as (_ & [first Hfirst] & Hinv & _).
  - simpl. lia.
  - simpl. lia.
  - exists first. destruct (Hinv first Hfirst) as (Hlen & Hsorted & _). auto.
Defined.

Lemma elitism_non_regression_witness :
  exists this this',
    reachable Sample.arithmetic (Sample.draws Sample.someDraws)
      (constructor Sample.smallRun) this /\
    nextGeneration Sample.arithmetic (Sample.draws Sample.someDraws) this
    = Normal (tt, this') /\
    forall (i : nat) (r : ref),
      (Z.of_nat i < elitismCount (config this))%Z ->
      population this !! i = Some r ->
      (exists r', population this' !! i = Some r' /\
                  fitnessOf (heap this) r <= fitnessOf (heap this') r') /\
      heap this' !! (length (heap this) + i)%nat = heap this !! r /\
      (length (heap this) + i)%nat ∉ population this.
Proof.
  let seeded :=
    eval vm_compute in
      ((initializePopulation Sample.arithmetic (Sample.draws Sample.someDraws);;
        evaluateFitness Sample.arithmetic;;
        modify (withGeneration 0)) (constructor Sample.smallRun)) in
  lazymatch seeded with
  | Normal (_, ?s1) =>
      let next :=
        eval vm_compute in
          (nextGeneration Sample.arithmetic (Sample.draws Sample.someDraws) s1) in
      lazymatch next with
      | Normal (_, ?s2) => exists s1, s2
      end
  end.
  match goal with
  | |- reachable ?p ?r ?start ?s /\ _ =>
      assert (Hreach : reachable p r start s)
        by (apply reach_seeded; vm_compute; reflexivity)
  end.
  split; [exact Hreach |].
  match goal with
  | |- ?run = ?result /\ _ => assert (Hnext : run = result) by (vm_compute; reflexivity)
  end.
  split; [exact Hnext |].
  intros i r Hi Hr.
  destruct (elitism_non_regression _ _ _ _ _ Hreach Hnext) as [Helite _].
  destruct (Helite i r Hi Hr) as (Hrank & _ & Hcopy & _ & Hnew). auto.
Defined.

Lemma rejected_chromosome_scores_zero_witness :
  evaluate Sample.arithmetic "5//2" = None /\
  exists agent this' a,
    createAgentFromChromosome Sample.arithmetic "5//2" (constructor noOverrides)
    = Normal (agent, this') /\
    heap this' !! agent = Some a /\
    solution a = 0 /\
    fitness a == 1 / (1 + Qabs (0 - 42)).
Proof.
  destruct (rejected_chromosome_scores_zero Sample.arithmetic "5//2"
              (constructor noOverrides)) as [Hrejected Hzero].
  specialize (Hrejected eq_refl). split; [exact Hrejected |].
  destruct (Hzero Hrejected) as [(agent & this' & a & H1 & H2 & _ & H4 & _ & H6) _].
  exists agent, this', a. auto.
Defined.

Lemma crossover_returns_fitter_child_witness :
  exists (p1 p2 : nat) (child1 child2 : string) (child : ref)
         (this' : GeneticAlgorithm) (c : Agent),
    (p1 < 3)%nat /\ (p2 < 3)%nat /\
    list_ascii_of_string child1
    = take p1 (list_ascii_of_string "1+2") ++ drop p2 (list_ascii_of_string "3+4") /\
    list_ascii_of_string child2
    = take p2 (list_ascii_of_string "3+4") ++ drop p1 (list_ascii_of_string "1+2") /\
    crossover Sample.arithmetic (Sample.draws [1 # 3; 2 # 3]) 0%nat 1%nat
      (Sample.stateWith [Sample.agentOf "1+2"; Sample.agentOf "3+4"])
    = Normal (child, this') /\
    heap this' !! child = Some c /\
    (chromosome c = child1 \/ chromosome c = child2).
Proof.
  destruct (crossover_returns_fitter_child Sample.arithmetic
              (Sample.draws [1 # 3; 2 # 3])
              (draws_unit [1 # 3; 2 # 3] eq_refl) 0%nat 1%nat
              (Sample.stateWith [Sample.agentOf "1+2"; Sample.agentOf "3+4"])
              (Sample.agentOf "1+2") (Sample.agentOf "3+4") eq_refl eq_refl)
    as (p1 & p2 & child1 & child2 & child & this' & c
        & Hp1 & Hp2 & H1 & H2 & Hrun & Hc & _ & _ & Hfirst & Hsecond).
  exists p1, p2, child1, child2, child, this', c.
  split; [apply Hp1; discriminate |]. split; [apply Hp2; discriminate |].
  split; [exact H1 |]. split; [exact H2 |]. split; [exact Hrun |].
  split; [exact Hc |].
  match type of Hfirst with
  | ?x < ?y -> _ => destruct (Qlt_le_dec x y) as [Hlt | Hle]
  end; [left; apply Hfirst, Hlt | right; apply Hsecond, Hle].
Defined.

(** On a tie the code returns the second candidate, not the first:
    cutting "1+2" and "3+4" after one character gives "1+4" and "3+2",
    both of value 5, and the call returns the object at address 3,
    which is "3+2". *)
Lemma crossover_tie_returns_second :
  exists final first second,
    crossover Sample.arithmetic (Sample.draws [1 # 3; 1 # 3]) 0%nat 1%nat
      (Sample.stateWith [Sample.agentOf "1+2"; Sample.agentOf "3+4"])
    = Normal (3%nat, final) /\
    heap final !! 2%nat = Some first /\
    heap final !! 3%nat = Some second /\
    chromosome first = "1+4"%string /\
    chromosome second = "3+2"%string /\
    fitness first == fitness second.
Proof.
  run_to_state
    (crossover Sample.arithmetic (Sample.draws [1 # 3; 1 # 3]) 0%nat 1%nat
       (Sample.stateWith [Sample.agentOf "1+2"; Sample.agentOf "3+4"])).
  eexists _, _.
  split; [vm_compute; reflexivity |].
  split; [reflexivity |]. split; [reflexivity |].
  split; [reflexivity |]. split; [reflexivity |]. reflexivity.
Qed.

Lemma mutate_edits_and_rescores_witness :
  exists (edits : list Edit) (this' : GeneticAlgorithm) (a' : Agent),
    mutate Sample.arithmetic (Sample.draws [1 # 2; 1 # 2; 3 # 4; 1 # 2]) 0%nat
      (Sample.stateWith [Sample.agentOf "1+2"])
    = Normal (tt, this') /\
    (exists i c, edits = [Insert i (String c EmptyString)]) /\
    heap this' !! 0%nat = Some a' /\
    chromosome a' = Js.join (foldl applyEdit (Js.split "1+2") edits) /\
    solution a' = default 0 (evaluate Sample.arithmetic (chromosome a')) /\
    fitness a' = calculateFitness DEFAULT_CONFIG (solution a').
Proof.
  destruct (mutate_edits_and_rescores Sample.arithmetic
              (Sample.draws [1 # 2; 1 # 2; 3 # 4; 1 # 2])
              (draws_unit [1 # 2; 1 # 2; 3 # 4; 1 # 2] eq_refl) 0%nat
              (Sample.stateWith [Sample.agentOf "1+2"])
              (Sample.agentOf "1+2") eq_refl)
    as (edits & this' & a' & _ & Hrun & _ & _ & Hinsert & _ & _ & Ha' & Hc & _ & Hs & Hf).
  exists edits, this', a'. split; [exact Hrun |].
  split.
  - destruct Hinsert as (i & c & He & _); [vm_compute; discriminate | reflexivity |].
    exists i, c. exact He.
  - auto.
Defined.

(** A call that edits nothing: with the draw 0.9 the deletion branch
    is taken, and on the three characters of "1+2" it does nothing. *)
Lemma mutate_without_edit :
  chooseEdits (Sample.draws [9 # 10]) (Js.split "1+2")
    (Sample.stateWith [Sample.agentOf "1+2"])
  = Normal ([], withDrawn 1 (Sample.stateWith [Sample.agentOf "1+2"])) /\
  exists final a',
    mutate Sample.arithmetic (Sample.draws [9 # 10]) 0%nat
      (Sample.stateWith [Sample.agentOf "1+2"])
    = Normal (tt, final) /\
    heap final !! 0%nat = Some a' /\
    chromosome a' = "1+2"%string /\
    drawn final = 1%nat.
Proof.
  split; [vm_compute; reflexivity |].
  run_to_state
    (mutate Sample.arithmetic (Sample.draws [9 # 10]) 0%nat
       (Sample.stateWith [Sample.agentOf "1+2"])).
  eexists. split; [vm_compute; reflexivity |]. repeat split.
Qed.

(** With [maxGenerations = 0] the run returns an individual, not
    [null]. *)
Lemma evolve_zero_generations_returns_individual :
  exists final,
    evolve Sample.arithmetic (Sample.draws Sample.someDraws)
      (constructor Sample.noGeneration)
    = Normal (Some 0%nat, final) /\
    maxGenerations (config final) = 0%Z /\
    population final !! 0%nat = Some 0%nat /\
    fitnessOf (heap final) 0%nat == 1 # 11.
Proof.
  run_to_state
    (evolve Sample.arithmetic (Sample.draws Sample.someDraws)
       (constructor Sample.noGeneration)).
  split; [vm_compute; reflexivity |]. repeat split.
Qed.

Lemma evolve_without_generations_witness :
  exists best seeded,
    evolve Sample.arithmetic (Sample.draws Sample.someDraws)
      (constructor Sample.noGeneration)
    = Normal (Some best, seeded) /\
    population seeded !! 0%nat = Some best /\
    Z.of_nat (length (population seeded)) = 3%Z /\
    length (getFitnessHistory seeded) = 1%nat.
Proof.
  destruct (evolve_without_generations Sample.arithmetic
              (Sample.draws Sample.someDraws) Sample.noGeneration)
    as (best & seeded & _ & Hrun & Hbest & _ & Hlen & _ & Hhistory).
  - reflexivity.
  - simpl. lia.
  - exists best, seeded. auto.
Defined.

(** A configuration with more elite than individuals, rates outside
    [[0, 1]] and tournaments larger than the population is not
    refused: the run proceeds through a generation and returns an
    individual. *)
Lemma broken_configuration_runs :
  (populationSize (config (constructor Sample.brokenInvariants))
   <= elitismCount (config (constructor Sample.brokenInvariants)))%Z /\
  1 < mutationRate (config (constructor Sample.brokenInvariants)) /\
  crossoverRate (config (constructor Sample.brokenInvariants)) < 0 /\
  (populationSize (config (constructor Sample.brokenInvariants))
   < tournamentSize (config (constructor Sample.brokenInvariants)))%Z /\
  exists best final,
    evolve Sample.arithmetic (Sample.draws Sample.someDraws)
      (constructor Sample.brokenInvariants)
    = Normal (Some best, final) /\
    generation final = 1%Z.
Proof.
  split; [simpl; lia |]. split; [reflexivity |]. split; [reflexivity |].
  split; [simpl; lia |].
  let r := eval vm_compute in
    (evolve Sample.arithmetic (Sample.draws Sample.someDraws)
       (constructor Sample.brokenInvariants)) in
  lazymatch r with
  | Normal (Some ?b, ?s) => exists b, s
  end.
  split; [vm_compute; reflexivity | reflexivity].
Qed.

(** C4. The final step of [generateRandomEquation] appends a digit
    when the loop ended on a digit and nothing when it ended on an
    operator, so a generated chromosome can end with an operator:
    the draws below give a loop of three characters, the digits 1
    and 2 and then [+], and the result is "12+". *)
Theorem generateRandomEquation_ends_with_operator :
  generateRandomEquation (Sample.draws [0; 1 # 10; 2 # 10; 2 # 10; 5 # 10; 0])
    (constructor noOverrides)
  = Normal ("12+"%string, withDrawn 6 (constructor noOverrides)) /\
  lastChar "12+" = Some "+"%char /\
  Js.isOperator "+" = true /\
  Js.isDigit "+" = false.
Proof.
  split; [vm_compute; reflexivity |]. repeat split.
Qed.

(** ** Instances of the further properties *)

(** Seeds a run on [cfg] and gives the state at the first head of the
    loop as the witness of the goal, with the proof that the run
    reaches it. *)
Ltac seed cfg :=
  let seeded :=
    eval vm_compute in
      ((initializePopulation Sample.arithmetic (Sample.draws Sample.someDraws);;
        evaluateFitness Sample.arithmetic;;
        modify (withGeneration 0)) (constructor cfg)) in
  lazymatch seeded with
  | Normal (_, ?s) =>
      exists s;
      assert (Hreach : reachable Sample.arithmetic (Sample.draws Sample.someDraws)
                         (constructor cfg) s)
        by (apply reach_seeded; vm_compute; reflexivity)
  end.

(** The same with the state after the first generation transition. *)
Ltac seed_next cfg :=
  let seeded :=
    eval vm_compute in
      ((initializePopulation Sample.arithmetic (Sample.draws Sample.someDraws);;
        evaluateFitness Sample.arithmetic;;
        modify (withGeneration 0)) (constructor cfg)) in
  lazymatch seeded with
  | Normal (_, ?s1) =>
      let next :=
        eval vm_compute in
          (nextGeneration Sample.arithmetic (Sample.draws Sample.someDraws) s1) in
      lazymatch next with
      | Normal (_, ?s2) =>
          exists s1, s2;
          assert (Hreach : reachable Sample.arithmetic (Sample.draws Sample.someDraws)
                             (constructor cfg) s1)
            by (apply reach_seeded; vm_compute; reflexivity);
          assert (Hnext : nextGeneration Sample.arithmetic
                            (Sample.draws Sample.someDraws) s1 = Normal (tt, s2))
            by (vm_compute; reflexivity)
      end
  end.

Lemma evaluate_ignores_other_characters_witness :
  evaluate Sample.arithmetic "4 2 + x1" = evaluate Sample.arithmetic "42+1".
Proof. apply evaluate_ignores_other_characters. reflexivity. Defined.

Lemma evaluate_guards_parser_witness :
  evaluate Sample.arithmetic "((1+2"
  = evaluate (fun s => if isValidExpression s then Sample.arithmetic s else Some 7)
      "((1+2".
Proof.
  apply evaluate_guards_parser. intros s Hs _. rewrite Hs. reflexivity.
Defined.


Lemma tournamentSelection_winner_witness :
  exists tournament : list ref,
    length tournament = 3%nat /\
    exists i,
      tournament !! i = Some 1%nat /\
      forall j x, tournament !! j = Some x ->
                  fitnessOf [Sample.three; Sample.answer] x
                  <= fitnessOf [Sample.three; Sample.answer] 1%nat.
Proof.
  destruct (tournamentSelection_winner (Sample.draws [1 # 3; 2 # 3; 1 # 5])
              (Sample.stateWith [Sample.three; Sample.answer])
              (withDrawn 3 (Sample.stateWith [Sample.three; Sample.answer])) 1%nat)
    as (t & Hlen & _ & _ & (i & Hi & Hmax & _) & _).
  - vm_compute. reflexivity.
  - exists t. split; [exact Hlen |]. exists i. split; [exact Hi | exact Hmax].
Defined.

Lemma tournament_without_contestants_witness :
  exists this,
    reachable Sample.arithmetic (Sample.draws Sample.someDraws)
      (constructor Sample.noTournament) this /\
    nextGeneration Sample.arithmetic (Sample.draws Sample.someDraws) this = TypeError.
Proof.
  seed Sample.noTournament. split; [exact Hreach |].
  destruct (tournament_without_contestants _ _ _ _ 0%nat Hreach) as (_ & H & _).
  - simpl. lia.
  - simpl. lia.
  - exact H.
Defined.

Lemma evaluateFitness_twice_witness :
  exists first,
    evaluateFitness Sample.arithmetic
      (Sample.stateWith [Sample.agentOf "1+2"; Sample.agentOf "6*7"])
    = Normal (tt, first) /\
    exists f,
      evaluateFitness Sample.arithmetic first
      = Normal (tt, withHistory (bestFitnessHistory first ++ [f]) first).
Proof.
  run_to_state
    (evaluateFitness Sample.arithmetic
       (Sample.stateWith [Sample.agentOf "1+2"; Sample.agentOf "6*7"])).
  match goal with
  | |- ?run = ?result /\ _ => assert (Hrun : run = result) by (vm_compute; reflexivity)
  end.
  split; [exact Hrun |].
  destruct (evaluateFitness_twice _ _ _ Hrun) as (best & f & _ & _ & _ & H).
  exists f. exact H.
Defined.



Lemma population_without_aliasing_witness :
  exists this,
    reachable Sample.arithmetic (Sample.draws Sample.someDraws)
      (constructor Sample.smallRun) this /\
    NoDup (population this).
Proof.
  seed Sample.smallRun. split; [exact Hreach |].
  exact (proj1 (population_without_aliasing _ _ _ _ Hreach)).
Defined.

Lemma selectElite_count_witness :
  exists agents : list Agent,
    selectElite (Sample.stateWith [Sample.three; Sample.answer])
    = Normal (seq 2 (length agents),
              withHeap ([Sample.three; Sample.answer] ++ agents)
                (Sample.stateWith [Sample.three; Sample.answer])) /\
    Z.of_nat (length agents) = 2%Z.
Proof.
  destruct (selectElite_count (Sample.stateWith [Sample.three; Sample.answer]))
    as (agents & Hrun & Hlen & _).
  - intros r Hr. apply lookup_lt_is_Some. apply elem_of_seq in Hr. simpl in *. lia.
  - exists agents. split; [exact Hrun | exact Hlen].
Defined.

Lemma elitism_fills_population_witness :
  exists this,
    reachable Sample.arithmetic (Sample.draws Sample.someDraws)
      (constructor Sample.brokenInvariants) this /\
    exists (agents : list Agent) (best : ref),
      length agents = length (population this) /\
      nextGeneration Sample.arithmetic (Sample.draws Sample.someDraws) this
      = Normal (tt,
          withHistory (bestFitnessHistory this ++ [fitnessOf (heap this) best])
            (withPopulation (seq (length (heap this)) (length (population this)))
               (withHeap (heap this ++ agents) this))).
Proof.
  seed Sample.brokenInvariants. split; [exact Hreach |].
  destruct (elitism_fills_population _ _ _ _ Hreach)
    as (agents & best & Hlen & _ & _ & Hrun).
  - simpl. lia.
  - exists agents, best. split; [exact Hlen | exact Hrun].
Defined.

Lemma heap_scored_witness :
  exists this,
    reachable Sample.arithmetic (Sample.draws Sample.someDraws)
      (constructor Sample.smallRun) this /\
    Forall (fun a => scored Sample.arithmetic (config (constructor Sample.smallRun)) a /\
                     equation a = chromosome a) (heap this).
Proof.
  seed Sample.smallRun. split; [exact Hreach |].
  apply (heap_scored _ _ _ _ Hreach). apply Forall_nil_2.
Defined.


Lemma mutate_length_witness :
  exists (this' : GeneticAlgorithm) (a' : Agent),
    mutate Sample.arithmetic (Sample.draws [1 # 2; 1 # 2; 3 # 4; 1 # 2]) 0%nat
      (Sample.stateWith [Sample.agentOf "1+2"])
    = Normal (tt, this') /\
    heap this' !! 0%nat = Some a' /\
    String.length (chromosome a') = 4%nat.
Proof.
  destruct (mutate_length Sample.arithmetic
              (Sample.draws [1 # 2; 1 # 2; 3 # 4; 1 # 2])
              (draws_unit [1 # 2; 1 # 2; 3 # 4; 1 # 2] eq_refl) 0%nat
              (Sample.stateWith [Sample.agentOf "1+2"])
              (Sample.agentOf "1+2") eq_refl)
    as (this' & a' & Hrun & Ha' & _ & Hinsert & _).
  exists this', a'. split; [exact Hrun |]. split; [exact Ha' |].
  apply Hinsert; [vm_compute; discriminate | reflexivity].
Defined.

Lemma crossover_conserves_characters_witness :
  exists (c1 c2 : Agent) (child : ref) (this' : GeneticAlgorithm),
    crossover Sample.arithmetic (Sample.draws [1 # 3; 2 # 3]) 0%nat 1%nat
      (Sample.stateWith [Sample.agentOf "1+2"; Sample.agentOf "3+4"])
    = Normal (child, this') /\
    list_ascii_of_string (chromosome c1) ++ list_ascii_of_string (chromosome c2)
      ≡ₚ list_ascii_of_string "1+2" ++ list_ascii_of_string "3+4" /\
    chromosome c1 <> EmptyString /\ chromosome c2 <> EmptyString.
Proof.
  destruct (crossover_conserves_characters Sample.arithmetic
              (Sample.draws [1 # 3; 2 # 3])
              (draws_unit [1 # 3; 2 # 3] eq_refl) 0%nat 1%nat
              (Sample.stateWith [Sample.agentOf "1+2"; Sample.agentOf "3+4"])
              (Sample.agentOf "1+2") (Sample.agentOf "3+4") eq_refl eq_refl)
    as (c1 & c2 & child & Hrun & _ & Hperm & Hne1 & Hne2 & _).
  exists c1, c2, child. eexists. split; [exact Hrun |]. split; [exact Hperm |].
  split; [apply Hne1; discriminate | apply Hne2; discriminate].
Defined.


Lemma generated_chromosome_reaches_parser_witness :
  genes "12+" = true /\
  isValidExpression "12+" = true /\
  evaluate Sample.arithmetic "12+" = Sample.arithmetic "12+".
Proof.
  apply (generated_chromosome_reaches_parser Sample.arithmetic
           (Sample.draws [0; 1 # 10; 2 # 10; 2 # 10; 5 # 10; 0])
           (draws_unit [0; 1 # 10; 2 # 10; 2 # 10; 5 # 10; 0] eq_refl)
           (constructor noOverrides) (withDrawn 6 (constructor noOverrides))).
  - simpl. lia.
  - vm_compute. reflexivity.
Defined.

Lemma chromosomes_over_alphabet_witness :
  exists this,
    reachable Sample.arithmetic (Sample.draws Sample.someDraws)
      (constructor Sample.smallRun) this /\
    Forall (fun a => genes (chromosome a) = true) (heap this).
Proof.
  seed Sample.smallRun. split; [exact Hreach |].
  apply (chromosomes_over_alphabet _ _ (draws_unit Sample.someDraws eq_refl) _ _ Hreach).
  apply Forall_nil_2.
Defined.

Lemma chromosomes_never_empty_witness :
  exists this,
    reachable Sample.arithmetic (Sample.draws Sample.someDraws)
      (constructor Sample.smallRun) this /\
    Forall (fun a => chromosome a <> EmptyString) (heap this).
Proof.
  seed Sample.smallRun. split; [exact Hreach |].
  apply (chromosomes_never_empty _ _ (draws_unit Sample.someDraws eq_refl) _ _ Hreach).
  - simpl. lia.
  - apply Forall_nil_2.
Defined.

Lemma generation_without_variation_witness :
  exists this this',
    reachable Sample.arithmetic (Sample.draws Sample.someDraws)
      (constructor Sample.noVariation) this /\
    nextGeneration Sample.arithmetic (Sample.draws Sample.someDraws) this
    = Normal (tt, this') /\
    forall r', r' ∈ population this' ->
      exists r, r ∈ population this /\ heap this' !! r' = heap this !! r.
Proof.
  seed_next Sample.noVariation.
  split; [exact Hreach |]. split; [exact Hnext |].
  apply (generation_without_variation _ _ (draws_unit Sample.someDraws eq_refl)
           _ _ _ Hreach).
  - vm_compute. discriminate.
  - vm_compute. discriminate.
  - exact Hnext.
Defined.

Lemma runExample_reports_solution_witness :
  exists final : GeneticAlgorithm,
    runExample Sample.arithmetic (Sample.draws Sample.someDraws)
    = Normal (true, final).
Proof.
  destruct (runExample_reports_solution Sample.arithmetic
              (Sample.draws Sample.someDraws)
              (draws_unit Sample.someDraws eq_refl)) as (final & Hrun & _).
  exists final. exact Hrun.
Defined.

Lemma evolve_returns_best_ever_witness :
  exists (final : GeneticAlgorithm) (best : ref) (added : list Q),
    evolve Sample.arithmetic (Sample.draws Sample.someDraws)
      (constructor Sample.smallRun)
    = Normal (Some best, final) /\
    getFitnessHistory final = [] ++ added /\
    forall f, f ∈ added -> f <= fitnessOf (heap final) best.
Proof.
  let r := eval vm_compute in
    (evolve Sample.arithmetic (Sample.draws Sample.someDraws)
       (constructor Sample.smallRun)) in
  lazymatch r with
  | Normal (?result, ?s) =>
      exists s;
      assert (Hrun : evolve Sample.arithmetic (Sample.draws Sample.someDraws)
                       (constructor Sample.smallRun) = Normal (result, s))
        by (vm_compute; reflexivity)
  end.
  destruct (evolve_returns_best_ever _ _ _ _ _ Hrun)
    as (best & added & Hresult & Hhist & _ & Hmax).
  - simpl. lia.
  - exists best, added. rewrite <- Hresult. auto.
Defined.


Lemma seeded_population_shape_witness :
  exists seeded,
    (initializePopulation Sample.arithmetic (Sample.draws Sample.someDraws);;
     evaluateFitness Sample.arithmetic) (constructor Sample.smallRun)
    = Normal (tt, seeded) /\
    forall r, r ∈ population seeded ->
      exists a,
        heap seeded !! r = Some a /\
        isValidExpression (chromosome a) = true /\
        solution a = default 0 (Sample.arithmetic (chromosome a)).
Proof.
  run_to_state
    ((initializePopulation Sample.arithmetic (Sample.draws Sample.someDraws);;
      evaluateFitness Sample.arithmetic) (constructor Sample.smallRun)).
  match goal with
  | |- ?run = ?result /\ _ => assert (Hrun : run = result) by (vm_compute; reflexivity)
  end.
  split; [exact Hrun |].
  intros r Hr.
  destruct (seeded_population_shape Sample.arithmetic (Sample.draws Sample.someDraws)
              (draws_unit Sample.someDraws eq_refl)
              (constructor Sample.smallRun) _ ltac:(simpl; lia) eq_refl Hrun r Hr)
    as (a & Ha & _ & Hvalid & Hsol & _).
  exists a. auto.
Defined.
